(** * tpc-rs: coordinate transforms and helix model

    A shallow embedding of [src/src/coords.cpp] (the coordinate transform
    and its sector transform cache) and of [src/src/particles/StHelix.hh]
    (the inline part of the helix model).

    Number model.  In [coords.cpp] a C++ [double] is a real number of
    [R]: rounding, overflow, NaN and signed zeros are not modelled, and a
    division by zero has the value that [R] gives it (x / 0 = 0) where
    IEEE arithmetic gives an infinity or NaN; the theorems name the
    divisors that must not be zero.  [XToPad], whose result is bounded
    from below by a comparison that a NaN passes, is written a second
    time over the reals extended by the infinities and NaN
    ([Extended.XToPad]).  [int] is [Z]; the sources perform no
    integer arithmetic that could leave the 32-bit range on the values
    they are given (row, sector and stage indices, two-digit diagnostic
    codes), and signed overflow is undefined in C++ anyway.  C arrays and
    [std::vector] are lists read through [lookupZ], which yields [None]
    for an index outside the array: an out-of-bounds access is a fault of
    the program, and every function that reads an array returns an
    [option].

    The helix is written once over an interface of floating-point
    operations ([Floating]), because [StHelix::bad] asks whether a stored
    value is finite.  The interface has two instances: exact reals, in
    which every value is finite, and reals extended by the two infinities
    and NaN. *)

From Stdlib Require Import Reals Lra Lia ZArith List Bool Sorted RNsatz.
From stdpp Require Import base list.
Import ListNotations.

Open Scope Z_scope.
Open Scope R_scope.

(** ** Faults and array reads *)

(** A faulting computation is an [option]; [x ← c; k] is stdpp's bind,
    which stops at the first [None]. *)

(** [a[i]] on a C array or a vector whose elements are [l]. *)
Definition lookupZ {A : Type} (l : list A) (i : Z) : option A :=
  if (i <? 0)%Z then None else l !! Z.to_nat i.

(** [a[i] = v]. *)
Definition storeZ {A : Type} (l : list A) (i : Z) (v : A) : option (list A) :=
  if ((0 <=? i)%Z && (i <? Z.of_nat (length l))%Z)%bool
  then Some (<[Z.to_nat i := v]> l) else None.

(** The integers of [for (k = lo; k < hi; k++)]. *)
Definition Zrange (lo hi : Z) : list Z :=
  map (fun i => (lo + Z.of_nat i)%Z) (seq 0 (Z.to_nat (hi - lo))).

(** Comparisons of doubles, as booleans. *)
Definition Rltb (a b : R) : bool := if Rlt_dec a b then true else false.
Definition Reqb (a b : R) : bool := if Req_dec_T a b then true else false.

(** Conversion of a [double] to [int]: truncation toward zero. *)
Definition double_to_int (x : R) : Z :=
  if Rle_dec 0 x then Int_part x else (- Int_part (- x))%Z.

(** ** The geometry primitive (ROOT's TVector3, TGeoHMatrix)

    The matrix classes belong to an external library.  They are modelled
    by what the library documents: a 3x3 array in row-major order with a
    translation, composed as homogeneous matrices; [RotateX], [RotateY]
    and [RotateZ] multiply from the left by the rotation of the given
    angle in degrees.  Names of matrices serve diagnostics only and are
    left out. *)

Record TVector3 := mkVec { vx : R; vy : R; vz : R }.

Definition Mag (v : TVector3) : R :=
  sqrt (vx v * vx v + vy v * vy v + vz v * vz v).

Definition vscale (a : R) (v : TVector3) : TVector3 :=
  mkVec (a * vx v) (a * vy v) (a * vz v).

Definition Cross (p q : TVector3) : TVector3 :=
  mkVec (vy p * vz q - vy q * vz p)
        (vz p * vx q - vz q * vx p)
        (vx p * vy q - vx q * vy p).

Definition Dot (p q : TVector3) : R :=
  vx p * vx q + vy p * vy q + vz p * vz q.

(** [double r[9]], row by row. *)
Record Rotation := mkRot {
  r0 : R; r1 : R; r2 : R;
  r3 : R; r4 : R; r5 : R;
  r6 : R; r7 : R; r8 : R }.

Record TGeoHMatrix := mkHMatrix {
  fTranslation : TVector3;
  fRotationMatrix : Rotation }.

Definition rot_identity : Rotation := mkRot 1 0 0 0 1 0 0 0 1.

Definition rot_mul (a b : Rotation) : Rotation :=
  mkRot (r0 a * r0 b + r1 a * r3 b + r2 a * r6 b)
        (r0 a * r1 b + r1 a * r4 b + r2 a * r7 b)
        (r0 a * r2 b + r1 a * r5 b + r2 a * r8 b)
        (r3 a * r0 b + r4 a * r3 b + r5 a * r6 b)
        (r3 a * r1 b + r4 a * r4 b + r5 a * r7 b)
        (r3 a * r2 b + r4 a * r5 b + r5 a * r8 b)
        (r6 a * r0 b + r7 a * r3 b + r8 a * r6 b)
        (r6 a * r1 b + r7 a * r4 b + r8 a * r7 b)
        (r6 a * r2 b + r7 a * r5 b + r8 a * r8 b).

Definition rot_apply (a : Rotation) (v : TVector3) : TVector3 :=
  mkVec (r0 a * vx v + r1 a * vy v + r2 a * vz v)
        (r3 a * vx v + r4 a * vy v + r5 a * vz v)
        (r6 a * vx v + r7 a * vy v + r8 a * vz v).

Definition vadd (p q : TVector3) : TVector3 :=
  mkVec (vx p + vx q) (vy p + vy q) (vz p + vz q).

(** A default-constructed matrix. *)
Definition hm_identity : TGeoHMatrix :=
  mkHMatrix (mkVec 0 0 0) rot_identity.

(** [a * b]. *)
Definition hm_mul (a b : TGeoHMatrix) : TGeoHMatrix :=
  mkHMatrix (vadd (fTranslation a) (rot_apply (fRotationMatrix a) (fTranslation b)))
            (rot_mul (fRotationMatrix a) (fRotationMatrix b)).

Declare Scope hm_scope.
Delimit Scope hm_scope with hm.
Infix "**" := hm_mul (at level 40, left associativity) : hm_scope.

Definition TGeoTranslation (dx dy dz : R) : TGeoHMatrix :=
  mkHMatrix (mkVec dx dy dz) rot_identity.

Definition SetRotation (m : TGeoHMatrix) (r : Rotation) : TGeoHMatrix :=
  mkHMatrix (fTranslation m) r.

Definition SetTranslation (m : TGeoHMatrix) (t : TVector3) : TGeoHMatrix :=
  mkHMatrix t (fRotationMatrix m).

Definition DegToRad : R := PI / 180.

Definition RotateX (m : TGeoHMatrix) (angle : R) : TGeoHMatrix :=
  let phi := angle * DegToRad in
  let c := cos phi in
  let s := sin phi in
  let r := fRotationMatrix m in
  let t := fTranslation m in
  mkHMatrix
    (mkVec (vx t) (c * vy t - s * vz t) (s * vy t + c * vz t))
    (mkRot (r0 r) (r1 r) (r2 r)
           (c * r3 r - s * r6 r) (c * r4 r - s * r7 r) (c * r5 r - s * r8 r)
           (s * r3 r + c * r6 r) (s * r4 r + c * r7 r) (s * r5 r + c * r8 r)).

Definition RotateY (m : TGeoHMatrix) (angle : R) : TGeoHMatrix :=
  let phi := angle * DegToRad in
  let c := cos phi in
  let s := sin phi in
  let r := fRotationMatrix m in
  let t := fTranslation m in
  mkHMatrix
    (mkVec (c * vx t + s * vz t) (vy t) (- s * vx t + c * vz t))
    (mkRot (c * r0 r + s * r6 r) (c * r1 r + s * r7 r) (c * r2 r + s * r8 r)
           (r3 r) (r4 r) (r5 r)
           (- s * r0 r + c * r6 r) (- s * r1 r + c * r7 r) (- s * r2 r + c * r8 r)).

Definition RotateZ (m : TGeoHMatrix) (angle : R) : TGeoHMatrix :=
  let phi := angle * DegToRad in
  let c := cos phi in
  let s := sin phi in
  let r := fRotationMatrix m in
  let t := fTranslation m in
  mkHMatrix
    (mkVec (c * vx t - s * vy t) (s * vx t + c * vy t) (vz t))
    (mkRot (c * r0 r - s * r3 r) (c * r1 r - s * r4 r) (c * r2 r - s * r5 r)
           (s * r0 r + c * r3 r) (s * r1 r + c * r4 r) (s * r2 r + c * r5 r)
           (r6 r) (r7 r) (r8 r)).

(** [TGeoRotation::SetAngles]: the three columns are the unit vectors of
    the given polar and azimuthal angles, in degrees. *)
Definition SetAngles (theta1 phi1 theta2 phi2 theta3 phi3 : R) : TGeoHMatrix :=
  let d := DegToRad in
  mkHMatrix (mkVec 0 0 0)
    (mkRot (cos (phi1 * d) * sin (theta1 * d))
           (cos (phi2 * d) * sin (theta2 * d))
           (cos (phi3 * d) * sin (theta3 * d))
           (sin (phi1 * d) * sin (theta1 * d))
           (sin (phi2 * d) * sin (theta2 * d))
           (sin (phi3 * d) * sin (theta3 * d))
           (cos (theta1 * d))
           (cos (theta2 * d))
           (cos (theta3 * d))).

(** ** The helix model ([StHelix.hh])

    The interface of the operations on [double] that the helix uses. *)

Class Floating (D : Type) := {
  of_real : R -> D;
  of_int : Z -> D;
  fadd : D -> D -> D;
  fsub : D -> D -> D;
  fmul : D -> D -> D;
  fdiv : D -> D -> D;
  fabs : D -> D;
  fcos : D -> D;
  fsin : D -> D;
  flt : D -> D -> bool;
  finite : D -> bool }.

(** Exact reals: every value is finite. *)
#[export] Instance real_Floating : Floating R := {
  of_real := fun r => r;
  of_int := IZR;
  fadd := Rplus;
  fsub := Rminus;
  fmul := Rmult;
  fdiv := Rdiv;
  fabs := Rabs;
  fcos := cos;
  fsin := sin;
  flt := Rltb;
  finite := fun _ => true }.

(** Reals extended by the infinities and NaN, with the arithmetic of
    IEEE 754 on them and exact arithmetic on finite values. *)
Inductive xreal := Fin (r : R) | PInf | NInf | NaN.

Definition xneg (a : xreal) : xreal :=
  match a with Fin r => Fin (- r) | PInf => NInf | NInf => PInf | NaN => NaN end.

Definition xadd (a b : xreal) : xreal :=
  match a, b with
  | NaN, _ | _, NaN => NaN
  | Fin p, Fin q => Fin (p + q)
  | PInf, NInf | NInf, PInf => NaN
  | PInf, _ | _, PInf => PInf
  | NInf, _ | _, NInf => NInf
  end.

(** The sign of a real: [Some true] positive, [Some false] negative,
    [None] zero. *)
Definition Rsign (r : R) : option bool :=
  if Rlt_dec 0 r then Some true else if Rlt_dec r 0 then Some false else None.

Definition xsign (a : xreal) : option bool :=
  match a with Fin r => Rsign r | PInf => Some true | NInf => Some false | NaN => None end.

Definition xinf (positive : bool) : xreal := if positive then PInf else NInf.

Definition xmul (a b : xreal) : xreal :=
  match a, b with
  | NaN, _ | _, NaN => NaN
  | Fin p, Fin q => Fin (p * q)
  | _, _ => match xsign a, xsign b with
            | Some sa, Some sb => xinf (eqb sa sb)
            | _, _ => NaN
            end
  end.

Definition xdiv (a b : xreal) : xreal :=
  match a, b with
  | NaN, _ | _, NaN => NaN
  | Fin p, Fin q =>
      if Req_dec_T q 0
      then match Rsign p with Some sp => xinf sp | None => NaN end
      else Fin (p / q)
  | Fin _, _ => Fin 0
  | _, Fin q => match xsign a, Rsign q with
                | Some sa, Some sq => xinf (eqb sa sq)
                | Some sa, None => xinf sa
                | None, _ => NaN
                end
  | _, _ => NaN
  end.

Definition xabs (a : xreal) : xreal :=
  match a with Fin r => Fin (Rabs r) | PInf | NInf => PInf | NaN => NaN end.

Definition xlt (a b : xreal) : bool :=
  match a, b with
  | NaN, _ | _, NaN => false
  | Fin p, Fin q => Rltb p q
  | NInf, NInf | PInf, _ => false
  | NInf, _ | _, PInf => true
  | _, NInf => false
  end.

Definition xfinite (a : xreal) : bool :=
  match a with Fin _ => true | _ => false end.

Definition xlift (f : R -> R) (a : xreal) : xreal :=
  match a with Fin r => Fin (f r) | _ => NaN end.

#[export] Instance xreal_Floating : Floating xreal := {
  of_real := Fin;
  of_int := fun n => Fin (IZR n);
  fadd := xadd;
  fsub := fun a b => xadd a (xneg b);
  fmul := xmul;
  fdiv := xdiv;
  fabs := xabs;
  fcos := xlift cos;
  fsin := xlift sin;
  flt := xlt;
  finite := xfinite }.

Module Helix.

Declare Scope fl_scope.
Delimit Scope fl_scope with fl.
Infix "+" := fadd : fl_scope.
Infix "-" := fsub : fl_scope.
Infix "*" := fmul : fl_scope.
Infix "/" := fdiv : fl_scope.
Infix "<" := flt : fl_scope.
Notation "a > b" := (flt b a) : fl_scope.

Record StThreeVector (D : Type) := mkThreeVector { mX1 : D; mX2 : D; mX3 : D }.
Arguments mkThreeVector {D}.
Arguments mX1 {D}.
Arguments mX2 {D}.
Arguments mX3 {D}.

Record StHelix (D : Type) := mkHelix {
  mSingularity : bool;
  mOrigin : StThreeVector D;
  mDipAngle : D;
  mCurvature : D;
  mPhase : D;
  mH : Z;
  mCosDipAngle : D;
  mSinDipAngle : D;
  mCosPhase : D;
  mSinPhase : D }.
Arguments mkHelix {D}.
Arguments mSingularity {D}.
Arguments mOrigin {D}.
Arguments mDipAngle {D}.
Arguments mCurvature {D}.
Arguments mPhase {D}.
Arguments mH {D}.
Arguments mCosDipAngle {D}.
Arguments mSinDipAngle {D}.
Arguments mCosPhase {D}.
Arguments mSinPhase {D}.

Section Model.

Context {D : Type} {F : Floating D}.

(** [StThreeVector<double>::bad], declared in a header that is not among
    the sources: the code of the first defect of a vector, 0 for none. *)
Variable StThreeVector_bad : StThreeVector D -> D -> Z.

Implicit Types (h : StHelix D) (s : D).

Definition M_PI : D := of_real PI.

Definition x h s : D :=
  if mSingularity h then
    (mX1 (mOrigin h) - s * mCosDipAngle h * mSinPhase h)%fl
  else
    (mX1 (mOrigin h)
     + (fcos (mPhase h + s * of_int (mH h) * mCurvature h * mCosDipAngle h)
        - mCosPhase h) / mCurvature h)%fl.

Definition y h s : D :=
  if mSingularity h then
    (mX2 (mOrigin h) + s * mCosDipAngle h * mCosPhase h)%fl
  else
    (mX2 (mOrigin h)
     + (fsin (mPhase h + s * of_int (mH h) * mCurvature h * mCosDipAngle h)
        - mSinPhase h) / mCurvature h)%fl.

Definition z h s : D :=
  (mX3 (mOrigin h) + s * mSinDipAngle h)%fl.

Definition at_ h s : StThreeVector D :=
  mkThreeVector (x h s) (y h s) (z h s).

(** The pointing vector.  The interface has no negation: [- a] is
    written [0 - a], which differs from it in the sign of a zero
    only. *)
Definition cx h s : D :=
  if mSingularity h then
    (of_real 0 - mCosDipAngle h * mSinPhase h)%fl
  else
    ((of_real 0
      - fsin (mPhase h + s * of_int (mH h) * mCurvature h * mCosDipAngle h))
     * of_int (mH h) * mCosDipAngle h)%fl.

Definition cy h s : D :=
  if mSingularity h then
    (mCosDipAngle h * mCosPhase h)%fl
  else
    (fcos (mPhase h + s * of_int (mH h) * mCurvature h * mCosDipAngle h)
     * of_int (mH h) * mCosDipAngle h)%fl.

Definition cz h s : D := mSinDipAngle h.

Definition cat h s : StThreeVector D :=
  mkThreeVector (cx h s) (cy h s) (cz h s).

Definition bad h (WorldSize : D) : Z :=
  if negb (finite (mDipAngle h)) then 11%Z else
  if negb (finite (mCurvature h)) then 12%Z else
  let ierr := StThreeVector_bad (mOrigin h) WorldSize in
  if negb (ierr =? 0)%Z then (3 + ierr * 100)%Z else
  if (fabs (mDipAngle h) > of_real 1.58)%fl then 21%Z else
  let qwe := fabs (fabs (mDipAngle h) - M_PI / of_real 2)%fl in
  if (qwe < of_real 1 / WorldSize)%fl then 31%Z else
  if (fabs (mCurvature h) > WorldSize)%fl then 22%Z else
  if (mCurvature h < of_real 0)%fl then 32%Z else
  if negb (Z.abs (mH h) =? 1)%Z then 24%Z else
  0%Z.

Definition valid h (world : D) : bool := (bad h world =? 0)%Z.

(** The checks of [bad] in their order, each with the code that reports
    it: whether the check is violated, and the code. *)
Definition checks h (WorldSize : D) : list (bool * Z) :=
  let k := StThreeVector_bad (mOrigin h) WorldSize in
  [ (negb (finite (mDipAngle h)), 11%Z);
    (negb (finite (mCurvature h)), 12%Z);
    (negb (k =? 0)%Z, (3 + 100 * k)%Z);
    ((fabs (mDipAngle h) > of_real 1.58)%fl, 21%Z);
    ((fabs (fabs (mDipAngle h) - of_real PI / of_real 2) < of_real 1 / WorldSize)%fl,
     31%Z);
    ((fabs (mCurvature h) > WorldSize)%fl, 22%Z);
    ((mCurvature h < of_real 0)%fl, 32%Z);
    (negb (Z.abs (mH h) =? 1)%Z, 24%Z) ].

(** The code of the first violated check, 0 when there is none. *)
Fixpoint first_violation (l : list (bool * Z)) : Z :=
  match l with
  | [] => 0%Z
  | (violated, code) :: l' => if violated then code else first_violation l'
  end.

End Model.

End Helix.

(** ** The calibration snapshot

    The tables read by [coords.cpp], one record per table, with the
    fields the code reads.  The matrices returned by
    [cfg.C<T>().GetMatrix(i)] are functions of the index. *)

Record starClockOnl := { frequency : R }.

Record tpcEffectiveGeom := { z_inner_offset : R; z_outer_offset : R }.

Record tpcPadPlanes := {
  padRows : Z;
  innerPadRows : Z;
  innerSectorPadPitch : R;
  outerSectorPadPitch : R;
  outerSectorPadPlaneZ : R }.

Record trgTimeOffset := { offset : R }.

Record tpcElectronics := { tZero : R }.

Record tpcPadrowT0 := { T0 : list R }.

Record tpcSectorT0offset := { t0 : list R }.

Record tpcGlobalPosition := {
  PhiXZ_geom : R;
  PhiYZ_geom : R;
  LocalxShift : R;
  LocalyShift : R;
  LocalzShift : R }.

Record tpcWirePlanes := { outerSectorGatingGridPadSep : R }.

Record Configurator := {
  S_starClockOnl : starClockOnl;
  S_tpcEffectiveGeom : tpcEffectiveGeom;
  S_tpcPadPlanes : tpcPadPlanes;
  S_trgTimeOffset : trgTimeOffset;
  S_tpcElectronics : tpcElectronics;
  S_tpcPadrowT0 : list tpcPadrowT0;
  S_tpcSectorT0offset : tpcSectorT0offset;
  S_tpcGlobalPosition : tpcGlobalPosition;
  S_tpcWirePlanes : tpcWirePlanes;
  StTpcSuperSectorPosition_GetMatrix : Z -> TGeoHMatrix;
  StTpcOuterSectorPosition_GetMatrix : Z -> TGeoHMatrix }.

(** ** Coordinates *)

Record Coords := mkCoords { x : R; y : R; z : R }.

Record StTpcPadCoordinate := mkPad {
  pad_sector : Z; pad_row : Z; pad : R; timeBucket : R }.

Record StTpcLocalSectorCoordinate := mkLocalSector {
  position : Coords; sector : Z; row : Z }.

Record StTpcLocalCoordinate := mkLocal {
  local_position : Coords; local_sector : Z; local_row : Z }.

(** The free functions on [Coords] at the top of [coords.cpp]. *)
Module CoordsOps.

Definition mag (c : Coords) : R :=
  sqrt (x c * x c + y c * y c + z c * z c).

Definition perp (c : Coords) : R :=
  sqrt (x c * x c + y c * y c).

(** [Coords{}] is the zero vector. *)
Definition unit (c : Coords) : Coords :=
  let m := mag c in
  if Req_dec_T m 0 then mkCoords 0 0 0 else mkCoords (x c / m) (y c / m) (z c / m).

(** [c1 - c2]. *)
Definition minus (c1 c2 : Coords) : Coords :=
  mkCoords (x c1 - x c2) (y c1 - y c2) (z c1 - z c2).

(** [c1 * c2]. *)
Definition dot (c1 c2 : Coords) : R :=
  x c1 * x c2 + y c1 * y c2 + z c1 * z c2.

(** [c / v]. *)
Definition div (c : Coords) (v : R) : Coords :=
  mkCoords (x c / v) (y c / v) (z c / v).

End CoordsOps.

(** ROOT's transforms of points and of free vectors, on the three
    doubles of a [Coords]: [LocalToMasterVect] applies the rotation
    array, [MasterToLocalVect] its transpose; a [TGeoTranslation] adds
    its vector in [LocalToMaster] and subtracts it in [MasterToLocal]. *)
Definition LocalToMasterVect (m : TGeoHMatrix) (local : Coords) : Coords :=
  let r := fRotationMatrix m in
  mkCoords (x local * r0 r + y local * r1 r + z local * r2 r)
           (x local * r3 r + y local * r4 r + z local * r5 r)
           (x local * r6 r + y local * r7 r + z local * r8 r).

Definition MasterToLocalVect (m : TGeoHMatrix) (master : Coords) : Coords :=
  let r := fRotationMatrix m in
  mkCoords (x master * r0 r + y master * r3 r + z master * r6 r)
           (x master * r1 r + y master * r4 r + z master * r7 r)
           (x master * r2 r + y master * r5 r + z master * r8 r).

Definition GetTranslation (m : TGeoHMatrix) : TVector3 := fTranslation m.

Definition TGeoTranslation_LocalToMaster (t : TGeoHMatrix) (local : Coords) : Coords :=
  let tr := fTranslation t in
  mkCoords (vx tr + x local) (vy tr + y local) (vz tr + z local).

Definition TGeoTranslation_MasterToLocal (t : TGeoHMatrix) (master : Coords) : Coords :=
  let tr := fTranslation t in
  mkCoords (x master - vx tr) (y master - vy tr) (z master - vz tr).

(** ** The transform object *)

Record CoordTransform := mkCoordTransform {
  cfg_ : Configurator;
  timebin_width_ : R;
  z_inner_offset_ : R;
  z_outer_offset_ : R;
  tpc2global_ : TGeoHMatrix;
  sector_rotations_ : list TGeoHMatrix }.

(** The function-local statics of [YToRow].  A null [Radii] is the empty
    list: reading through either is out of bounds. *)
Record YToRowStatics := mkStatics { Nrows : Z; Radii : list R }.

Definition statics_initial : YToRowStatics := mkStatics 0 [].

(** ** [XToPad] over floating-point values

    The same function over the interface [Floating], for the values that
    exact reals leave out: a position that is an infinity or NaN, and the
    quotient by a pad pitch of zero.  The pitch and the number of pads
    are those of the configuration. *)

Module Extended.

Section Pads.

Context {D : Type} {F : Floating D}.

Variable NumberOfPads : Z -> Configurator -> Z.

Definition XToPad (ct : CoordTransform) (x : D) (sector row : Z) : D :=
  let planes := S_tpcPadPlanes (cfg_ ct) in
  let row := if (row >? padRows planes)%Z then padRows planes else row in
  let pitch := if (row <=? innerPadRows planes)%Z
               then innerSectorPadPitch planes
               else outerSectorPadPitch planes in
  let npads := NumberOfPads row (cfg_ ct) in
  let probablePad := fsub (fdiv (fadd (of_int npads) (of_real 1)) (of_real 2))
                          (fdiv x (of_real pitch)) in
  if flt probablePad (of_real 0.500001) then of_real 0.500001 else probablePad.

(** The linear formula of the spec, [(npads + 1)/2 - x/pitch], as
    [XToPad] computes it. *)
Definition linear_pad (ct : CoordTransform) (x : D) (row : Z) : D :=
  let planes := S_tpcPadPlanes (cfg_ ct) in
  let row := if (row >? padRows planes)%Z then padRows planes else row in
  let pitch := if (row <=? innerPadRows planes)%Z
               then innerSectorPadPitch planes
               else outerSectorPadPitch planes in
  let npads := NumberOfPads row (cfg_ ct) in
  fsub (fdiv (fadd (of_int npads) (of_real 1)) (of_real 2))
       (fdiv x (of_real pitch)).

End Pads.

(** An extended real is a number that is not below [bound]; NaN is
    not. *)
Definition at_least (bound : R) (v : xreal) : Prop :=
  match v with
  | Fin r => bound <= r
  | PInf => True
  | NInf | NaN => False
  end.

End Extended.

(** Modelled from the spec: the stage tags of [coords.h], which is not
    among the sources.  Their values are the positions in the [names]
    array of [SetTpcRotations], the order of the spec's stage list. *)
Definition kSupS2Tpc : Z := 0.
Definition kSupS2Glob : Z := 1.
Definition kSubSInner2SupS : Z := 2.
Definition kSubSOuter2SupS : Z := 3.
Definition kSubSInner2Tpc : Z := 4.
Definition kSubSOuter2Tpc : Z := 5.
Definition kSubSInner2Glob : Z := 6.
Definition kSubSOuter2Glob : Z := 7.
Definition kPadInner2SupS : Z := 8.
Definition kPadOuter2SupS : Z := 9.
Definition kPadInner2Tpc : Z := 10.
Definition kPadOuter2Tpc : Z := 11.
Definition kPadInner2Glob : Z := 12.
Definition kPadOuter2Glob : Z := 13.
Definition kTotalTpcSectorRotaions : Z := 14.

(** The index into [sector_rotations_] for a sector and a stage, as
    [SetTpcRotations] computes it when it stores a matrix. *)
Definition slot (sector k : Z) : Z :=
  (kTotalTpcSectorRotaions * (sector - 1) + k)%Z.

(** Modelled from the spec: the accessors of [coords.h], which is not
    among the sources; the cache is keyed by (sector, stage), and an
    accessor reads the slot that [SetTpcRotations] writes for its stage. *)
Definition sector_rotation (ct : CoordTransform) (sector k : Z) : option TGeoHMatrix :=
  lookupZ (sector_rotations_ ct) (slot sector k).

Definition SupS2Tpc ct sector := sector_rotation ct sector kSupS2Tpc.
Definition SupS2Glob ct sector := sector_rotation ct sector kSupS2Glob.
Definition SubSInner2SupS ct sector := sector_rotation ct sector kSubSInner2SupS.
Definition SubSOuter2SupS ct sector := sector_rotation ct sector kSubSOuter2SupS.
Definition SubSInner2Tpc ct sector := sector_rotation ct sector kSubSInner2Tpc.
Definition SubSOuter2Tpc ct sector := sector_rotation ct sector kSubSOuter2Tpc.
Definition SubSInner2Glob ct sector := sector_rotation ct sector kSubSInner2Glob.
Definition SubSOuter2Glob ct sector := sector_rotation ct sector kSubSOuter2Glob.
Definition PadInner2SupS ct sector := sector_rotation ct sector kPadInner2SupS.
Definition PadOuter2SupS ct sector := sector_rotation ct sector kPadOuter2SupS.
Definition PadInner2Tpc ct sector := sector_rotation ct sector kPadInner2Tpc.
Definition PadOuter2Tpc ct sector := sector_rotation ct sector kPadOuter2Tpc.
Definition PadInner2Glob ct sector := sector_rotation ct sector kPadInner2Glob.
Definition PadOuter2Glob ct sector := sector_rotation ct sector kPadOuter2Glob.

(** ** Example data

    A small configuration on which the properties below are exercised:
    four rows, two of them inner, pad pitches 1 and 2, ten pads in every
    row, row [i] at radius [i], the same drift velocity in every sector,
    zero time offsets and identity alignment matrices.  The clock
    frequency is left open. *)

Definition example_IsInner (row : Z) (cfg : Configurator) : bool :=
  (row <=? innerPadRows (S_tpcPadPlanes cfg))%Z.
Definition example_NumberOfPads (row : Z) (cfg : Configurator) : Z := 10.
Definition example_RadialDistanceAtRow (row : Z) (cfg : Configurator) : R := IZR row.
Definition example_DriftVelocity (sector : Z) (cfg : Configurator) : R := 1.
Definition example_to_float (r : R) : R := r.
Definition example_kUndefSector : Z := -1.

Definition example_cfg (clock : R) : Configurator := {|
  S_starClockOnl := {| frequency := clock |};
  S_tpcEffectiveGeom := {| z_inner_offset := 0; z_outer_offset := 0 |};
  S_tpcPadPlanes := {| padRows := 4; innerPadRows := 2;
                       innerSectorPadPitch := 1; outerSectorPadPitch := 2;
                       outerSectorPadPlaneZ := 200 |};
  S_trgTimeOffset := {| offset := 0 |};
  S_tpcElectronics := {| tZero := 0 |};
  S_tpcPadrowT0 := replicate 24 {| T0 := [0; 0; 0; 0] |};
  S_tpcSectorT0offset := {| t0 := replicate 48 0 |};
  S_tpcGlobalPosition := {| PhiXZ_geom := 0; PhiYZ_geom := 0;
                            LocalxShift := 0; LocalyShift := 0; LocalzShift := 0 |};
  S_tpcWirePlanes := {| outerSectorGatingGridPadSep := 1 |};
  StTpcSuperSectorPosition_GetMatrix := fun _ => hm_identity;
  StTpcOuterSectorPosition_GetMatrix := fun _ => hm_identity |}.

Definition example_ct (clock : R) : CoordTransform :=
  mkCoordTransform (example_cfg clock) (1e6 / clock) 0 0 hm_identity [].

(** A local sector coordinate whose row, 5, is beyond the four rows. *)
Definition example_bad_row : StTpcLocalSectorCoordinate :=
  mkLocalSector (mkCoords 1 0.7 0) 1 5.

(** The helix of the spec's example: curvature 0.01, dip angle 0.1,
    phase 0, origin (0, 0, 0), h = -1. *)
Definition example_helix : Helix.StHelix R :=
  Helix.mkHelix false (Helix.mkThreeVector 0 0 0) 0.1 0.01 0 (-1)
    (cos 0.1) (sin 0.1) (cos 0) (sin 0).

(** A helix over the extended reals with the given dip angle, curvature
    and handedness, and a check of the origin that finds no defect. *)
Definition example_xhelix (dip curvature : xreal) (hh : Z) : Helix.StHelix xreal :=
  Helix.mkHelix false (Helix.mkThreeVector (Fin 0) (Fin 0) (Fin 0))
    dip curvature (Fin 0) hh
    (xlift cos dip) (xlift sin dip) (Fin 1) (Fin 0).

Definition example_origin_ok : Helix.StThreeVector xreal -> xreal -> Z :=
  fun _ _ => 0%Z.

(** ** Vocabulary of the helix in exact reals *)

(** The cached cosines and sines of a helix are those of its angles, as
    the setters of the class leave them. *)
Definition helix_consistent (h : Helix.StHelix R) : Prop :=
  Helix.mCosDipAngle h = cos (Helix.mDipAngle h)
  /\ Helix.mSinDipAngle h = sin (Helix.mDipAngle h)
  /\ Helix.mCosPhase h = cos (Helix.mPhase h)
  /\ Helix.mSinPhase h = sin (Helix.mPhase h).

(** The centre of the circle that a helix with curvature describes in
    the xy-plane. *)
Definition circle_center_x (h : Helix.StHelix R) : R :=
  Helix.mX1 (Helix.mOrigin h) - Helix.mCosPhase h / Helix.mCurvature h.
Definition circle_center_y (h : Helix.StHelix R) : R :=
  Helix.mX2 (Helix.mOrigin h) - Helix.mSinPhase h / Helix.mCurvature h.

(** The path length after which a helix with curvature repeats in the
    xy-plane. *)
Definition turn_length (h : Helix.StHelix R) : R :=
  2 * PI / (Helix.mCurvature h * Helix.mCosDipAngle h).

(** The square of the length of a vector. *)
Definition mag2 (v : Helix.StThreeVector R) : R :=
  Helix.mX1 v * Helix.mX1 v + Helix.mX2 v * Helix.mX2 v + Helix.mX3 v * Helix.mX3 v.

(** A rigid pad frame for the example: the exchange of x and y with z
    negated, shifted along z by the row. *)
Definition example_Pad2Tpc (ct : CoordTransform) (sector row : Z) : TGeoHMatrix :=
  mkHMatrix (mkVec 0 0 (IZR row)) (mkRot 0 1 0
                                         1 0 0
                                         0 0 (-1)).

(** The example configuration with both pad pitches zero. *)
Definition example_cfg_no_pitch : Configurator := {|
  S_starClockOnl := S_starClockOnl (example_cfg 10);
  S_tpcEffectiveGeom := S_tpcEffectiveGeom (example_cfg 10);
  S_tpcPadPlanes := {| padRows := 4; innerPadRows := 2;
                       innerSectorPadPitch := 0; outerSectorPadPitch := 0;
                       outerSectorPadPlaneZ := 200 |};
  S_trgTimeOffset := S_trgTimeOffset (example_cfg 10);
  S_tpcElectronics := S_tpcElectronics (example_cfg 10);
  S_tpcPadrowT0 := S_tpcPadrowT0 (example_cfg 10);
  S_tpcSectorT0offset := S_tpcSectorT0offset (example_cfg 10);
  S_tpcGlobalPosition := S_tpcGlobalPosition (example_cfg 10);
  S_tpcWirePlanes := S_tpcWirePlanes (example_cfg 10);
  StTpcSuperSectorPosition_GetMatrix := fun _ => hm_identity;
  StTpcOuterSectorPosition_GetMatrix := fun _ => hm_identity |}.

Definition example_ct_no_pitch : CoordTransform :=
  mkCoordTransform example_cfg_no_pitch (1e6 / 10) 0 0 hm_identity [].

(** Case analysis on the comparisons of reals in a goal. *)
Ltac decide_R :=
  repeat match goal with
         | |- context [Rlt_dec ?a ?b] => destruct (Rlt_dec a b); [try lra | try lra]
         | |- context [Req_dec_T ?a ?b] => destruct (Req_dec_T a b); [try lra | try lra]
         end.

Section Coordinates.

(** The helpers of namespace [tpcrs] are declared in headers that are not
    among the sources; [coords.cpp] is verified for any helpers. *)
Variable IsInner : Z -> Configurator -> bool.
Variable NumberOfPads : Z -> Configurator -> Z.
Variable RadialDistanceAtRow : Z -> Configurator -> R.
Variable DriftVelocity : Z -> Configurator -> R.

(** Rounding of a [double] to [float], for the one [float] temporary. *)
Variable to_float : R -> R.

(** The value of [kUndefSector], from the same missing header. *)
Variable kUndefSector : Z.

(** The accessor [Pad2Tpc(sector, row)] of the same missing header: the
    cached transform from the pad frame of a row to the Tpc frame. *)
Variable Pad2Tpc : CoordTransform -> Z -> Z -> TGeoHMatrix.

(** *** Scalar conversions *)

(** Over [R] the quotient [x / pitch] is 0 for a pitch of 0, where the
    program computes an infinity or NaN: the definition is that of the
    program for a nonzero pitch, see [Extended.XToPad]. *)
Definition XToPad (ct : CoordTransform) (x : R) (sector row : Z) : R :=
  let planes := S_tpcPadPlanes (cfg_ ct) in
  let row := if (row >? padRows planes)%Z then padRows planes else row in
  let pitch := if (row <=? innerPadRows planes)%Z
               then innerSectorPadPitch planes
               else outerSectorPadPitch planes in
  let npads := NumberOfPads row (cfg_ ct) in
  let probablePad := (IZR npads + 1) / 2 - x / pitch in
  if Rlt_dec probablePad 0.500001 then 0.500001 else probablePad.

Definition PadToX (ct : CoordTransform) (sector row : Z) (pad : R) : R :=
  let planes := S_tpcPadPlanes (cfg_ ct) in
  let row := if (row >? padRows planes)%Z then padRows planes else row in
  let pitch := if (row <=? innerPadRows planes)%Z
               then innerSectorPadPitch planes
               else outerSectorPadPitch planes in
  let npads := NumberOfPads row (cfg_ ct) in
  - pitch * (pad - (IZR npads + 1) / 2).

Definition TimeToZ (ct : CoordTransform) (tb : R) (sector row pad : Z) : option R :=
  let cfg := cfg_ ct in
  let row := if (row >? padRows (S_tpcPadPlanes cfg))%Z
             then padRows (S_tpcPadPlanes cfg) else row in
  let triggerTimeOffset := to_float (1e-6 * offset (S_trgTimeOffset cfg)) in
  let trigT0 := triggerTimeOffset * 1e6 in
  let elecT0 := tZero (S_tpcElectronics cfg) in
  padrowT0 ← lookupZ (S_tpcPadrowT0 cfg) (sector - 1);
  sectT0 ← lookupZ (T0 padrowT0) (row - 1);
  let t0_ := trigT0 + elecT0 + sectT0 in
  let l := sector in
  let l := if IsInner row cfg then (l + 24)%Z else l in
  t0off ← lookupZ (t0 (S_tpcSectorT0offset cfg)) (l - 1);
  let tbx := tb + t0off in
  let time := t0_ + tbx * timebin_width_ ct in
  Some (DriftVelocity sector cfg * 1e-6 * time).

Definition ZToTime (ct : CoordTransform) (z : R) (sector row pad : Z) : option R :=
  let cfg := cfg_ ct in
  let row := if (row >? padRows (S_tpcPadPlanes cfg))%Z
             then padRows (S_tpcPadPlanes cfg) else row in
  let triggerTimeOffset := to_float (1e-6 * offset (S_trgTimeOffset cfg)) in
  let trigT0 := triggerTimeOffset * 1e6 in
  let elecT0 := tZero (S_tpcElectronics cfg) in
  padrowT0 ← lookupZ (S_tpcPadrowT0 cfg) (sector - 1);
  sectT0 ← lookupZ (T0 padrowT0) (row - 1);
  let t0_ := trigT0 + elecT0 + sectT0 in
  let time := z / (DriftVelocity sector cfg * 1e-6) in
  let l := sector in
  let l := if IsInner row cfg then (l + 24)%Z else l in
  t0off ← lookupZ (t0 (S_tpcSectorT0offset cfg)) (l - 1);
  Some ((time - t0_) / timebin_width_ ct - t0off).

(** *** Row lookup *)

(** [std::lower_bound(a + first, a + first + len, val)] as the standard
    library's binary search, an index into [a]; [fuel] bounds the
    iterations. *)
Fixpoint lower_bound_loop (fuel : nat) (a : list R) (first len : Z) (val : R)
  : option Z :=
  if (len <=? 0)%Z then Some first else
  match fuel with
  | O => None
  | S fuel' =>
      let half := Z.shiftr len 1 in
      let middle := (first + half)%Z in
      m ← lookupZ a middle;
      if Rlt_dec m val
      then lower_bound_loop fuel' a (middle + 1) (len - half - 1) val
      else lower_bound_loop fuel' a first half val
  end.

Definition lower_bound (a : list R) (n : Z) (val : R) : option Z :=
  lower_bound_loop (Z.to_nat n) a 0 n val.

(** The value stored at [Radii[i - 1]] by the loop of [YToRow]. *)
Definition row_boundary (cfg : Configurator) (nrows i : Z) : R :=
  if (i =? 1)%Z then
    (3 * RadialDistanceAtRow i cfg - RadialDistanceAtRow (i + 1) cfg) / 2
  else if (i =? nrows + 1)%Z then
    (3 * RadialDistanceAtRow (i - 1) cfg - RadialDistanceAtRow (i - 2) cfg) / 2
  else
    (RadialDistanceAtRow (i - 1) cfg + RadialDistanceAtRow i cfg) / 2.

Definition build_Radii (cfg : Configurator) (nrows : Z) : list R :=
  map (row_boundary cfg nrows) (Zrange 1 (nrows + 2)).

(** The lazy rebuild; [new double[n]] throws for a negative [n]. *)
Definition refresh_statics (cfg : Configurator) (st : YToRowStatics)
  : option YToRowStatics :=
  let rows := padRows (S_tpcPadPlanes cfg) in
  if (Nrows st =? rows)%Z then Some st
  else if (rows + 1 <? 0)%Z then None
  else Some (mkStatics rows (build_Radii cfg rows)).

Definition YToRow (ct : CoordTransform) (st : YToRowStatics) (y : R) (sector : Z)
  : option (Z * YToRowStatics) :=
  st' ← refresh_statics (cfg_ ct) st;
  let n := (Nrows st' + 1)%Z in
  r_ptr ← lower_bound (Radii st') n y;
  hit ← (if (r_ptr =? n)%Z then Some false
         else v ← lookupZ (Radii st') r_ptr; Some (Reqb v y));
  let row := if (hit : bool) then (r_ptr + 1)%Z else r_ptr in
  let row := if (row <=? 0)%Z then 1%Z else row in
  let row := if (row >? Nrows st')%Z then Nrows st' else row in
  Some (row, st').

(** *** Local sector coordinate to pad coordinate *)

Definition local_sector_to_hardware (ct : CoordTransform) (st : YToRowStatics)
    (a : StTpcLocalSectorCoordinate)
  : option (StTpcPadCoordinate * YToRowStatics) :=
  let planes := S_tpcPadPlanes (cfg_ ct) in
  '(row', st') ←
     (if ((row a <? 1)%Z || (row a >? padRows planes)%Z)%bool
      then YToRow ct st (y (position a)) (sector a)
      else Some (row a, st));
  let probablePad := XToPad ct (x (position a)) (sector a) (row a) in
  let zoffset := if (row' >? innerPadRows planes)%Z
                 then z_outer_offset_ ct else z_inner_offset_ ct in
  tb ← ZToTime ct (z (position a) + zoffset) (sector a) row'
          (double_to_int probablePad);
  Some (mkPad (sector a) row' probablePad tb, st').

(** *** Pad coordinate to local sector coordinate *)

Definition hardware_to_local_sector (ct : CoordTransform) (a : StTpcPadCoordinate)
  : option StTpcLocalSectorCoordinate :=
  let planes := S_tpcPadPlanes (cfg_ ct) in
  let x := PadToX ct (pad_sector a) (pad_row a) (pad a) in
  let y := RadialDistanceAtRow (pad_row a) (cfg_ ct) in
  let zoffset := if (pad_row a >? innerPadRows planes)%Z
                 then z_outer_offset_ ct else z_inner_offset_ ct in
  tz ← TimeToZ ct (timeBucket a) (pad_sector a) (pad_row a)
         (double_to_int (pad a));
  Some (mkLocalSector (mkCoords x y (tz - zoffset)) (pad_sector a) (pad_row a)).

(** *** Local sector coordinate and local coordinate *)

Definition local_sector_to_local (ct : CoordTransform) (st : YToRowStatics)
    (a : StTpcLocalSectorCoordinate)
  : option (StTpcLocalCoordinate * YToRowStatics) :=
  let planes := S_tpcPadPlanes (cfg_ ct) in
  '(row', st') ←
     (if ((row a <? 1)%Z || (row a >? padRows planes)%Z)%bool
      then YToRow ct st (y (position a)) (sector a)
      else Some (row a, st));
  let xGG := LocalToMasterVect (Pad2Tpc ct (sector a) row') (position a) in
  let trans := GetTranslation (Pad2Tpc ct (sector a) row') in
  let GG2TPC := TGeoTranslation (vx trans) (vy trans) (vz trans) in
  Some (mkLocal (TGeoTranslation_LocalToMaster GG2TPC xGG) (sector a) row', st').

Definition local_to_local_sector (ct : CoordTransform) (st : YToRowStatics)
    (a : StTpcLocalCoordinate)
  : option (StTpcLocalSectorCoordinate * YToRowStatics) :=
  let planes := S_tpcPadPlanes (cfg_ ct) in
  '(row', st') ←
     (if ((local_row a <? 1)%Z || (local_row a >? padRows planes)%Z)%bool
      then supS ← SupS2Tpc ct (local_sector a);
           let xyzS := MasterToLocalVect supS (local_position a) in
           YToRow ct st (x xyzS) (local_sector a)
      else Some (local_row a, st));
  let trans := GetTranslation (Pad2Tpc ct (local_sector a) row') in
  let GG2TPC := TGeoTranslation (vx trans) (vy trans) (vz trans) in
  let xGG := TGeoTranslation_MasterToLocal GG2TPC (local_position a) in
  Some (mkLocalSector (MasterToLocalVect (Pad2Tpc ct (local_sector a) row') xGG)
          (local_sector a) row', st').

(** *** Construction of the sector transform cache *)

(** A loop whose body may fail. *)
Fixpoint for_each {S A : Type} (body : S -> A -> option S) (l : list A) (s : S)
  : option S :=
  match l with
  | [] => Some s
  | a :: l' => s' ← body s a; for_each body l' s'
  end.

Definition flip_matrix : TGeoHMatrix :=
  SetRotation hm_identity (mkRot 0 1 0
                                 1 0 0
                                 0 0 (-1)).

(** The block "Normalize" of the loop body. *)
Definition normalize (rotA : TGeoHMatrix) : TGeoHMatrix :=
  let r := fRotationMatrix rotA in
  let d := mkVec (r0 r) (r3 r) (r6 r) in
  let t := mkVec (r2 r) (r5 r) (r8 r) in
  let n := mkVec (r1 r) (r4 r) (r7 r) in
  let d := vscale (1 / Mag d) d in
  let t := vscale (1 / Mag t) t in
  let c := Cross d t in
  let c := if Rlt_dec (Dot c n) 0 then vscale (-1) c else c in
  SetRotation rotA (mkRot (vx d) (vx c) (vx t)
                          (vy d) (vy c) (vy t)
                          (vz d) (vz c) (vz t)).

(** The branch [sector == 0]: the TPC reference system. *)
Definition tpc_reference_system (cfg : Configurator) : TGeoHMatrix :=
  let g := S_tpcGlobalPosition cfg in
  let phi := 0 in
  let theta := PhiXZ_geom g * 180 / PI in
  let psi := PhiYZ_geom g * 180 / PI in
  let rotA := RotateX hm_identity (- psi) in
  let rotA := RotateY rotA (- theta) in
  let rotA := RotateZ rotA (- phi) in
  SetTranslation rotA (mkVec (LocalxShift g) (LocalyShift g) (LocalzShift g)).

(** The case [kSupS2Tpc]; [%] on [int] truncates toward zero. *)
Definition supersector_to_tpc (cfg : Configurator) (sector : Z) : TGeoHMatrix :=
  let rotm := hm_identity in
  let iphi := Z.rem (360 + 90 - 30 * sector) 360 in
  let drift_dist_z := outerSectorPadPlaneZ (S_tpcPadPlanes cfg)
                      - outerSectorGatingGridPadSep (S_tpcWirePlanes cfg) in
  let '(rotm, drift_dist_z, iphi) :=
    if (sector >? 12)%Z
    then (SetAngles 90 0 90 (-90) 180 0,
          drift_dist_z * -1,
          Z.rem (90 + 30 * (sector - 12)) 360)
    else (rotm, drift_dist_z, iphi) in
  let rotm := RotateZ rotm (IZR iphi) in
  let rotA := (TGeoTranslation 0 0 drift_dist_z ** rotm)%hm in
  (rotA ** StTpcSuperSectorPosition_GetMatrix cfg (sector - 1))%hm.

(** The [switch (k)]; the [default] branch is [assert(0)]. *)
Definition stage_matrix (ct : CoordTransform) (sector k : Z) : option TGeoHMatrix :=
  if (k =? kSupS2Tpc)%Z then
    Some (supersector_to_tpc (cfg_ ct) sector)
  else if (k =? kSupS2Glob)%Z then
    a ← SupS2Tpc ct sector; Some (tpc2global_ ct ** a)%hm
  else if (k =? kSubSInner2SupS)%Z then
    Some flip_matrix
  else if (k =? kSubSOuter2SupS)%Z then
    Some (flip_matrix ** StTpcOuterSectorPosition_GetMatrix (cfg_ ct) (sector - 1))%hm
  else if (k =? kSubSInner2Tpc)%Z then
    a ← SupS2Tpc ct sector; b ← SubSInner2SupS ct sector; Some (a ** b)%hm
  else if (k =? kSubSOuter2Tpc)%Z then
    a ← SupS2Tpc ct sector; b ← SubSOuter2SupS ct sector; Some (a ** b)%hm
  else if (k =? kSubSInner2Glob)%Z then
    a ← SubSInner2Tpc ct sector; Some (tpc2global_ ct ** a)%hm
  else if (k =? kSubSOuter2Glob)%Z then
    a ← SubSOuter2Tpc ct sector; Some (tpc2global_ ct ** a)%hm
  else if (k =? kPadInner2SupS)%Z then
    SubSInner2SupS ct sector
  else if (k =? kPadOuter2SupS)%Z then
    SubSOuter2SupS ct sector
  else if (k =? kPadInner2Tpc)%Z then
    a ← SupS2Tpc ct sector; b ← PadInner2SupS ct sector; Some (a ** b)%hm
  else if (k =? kPadOuter2Tpc)%Z then
    a ← SupS2Tpc ct sector; b ← PadOuter2SupS ct sector; Some (a ** b)%hm
  else if (k =? kPadInner2Glob)%Z then
    a ← PadInner2Tpc ct sector; Some (tpc2global_ ct ** a)%hm
  else if (k =? kPadOuter2Glob)%Z then
    a ← PadOuter2Tpc ct sector; Some (tpc2global_ ct ** a)%hm
  else None.

Definition set_tpc2global (ct : CoordTransform) (m : TGeoHMatrix) : CoordTransform :=
  mkCoordTransform (cfg_ ct) (timebin_width_ ct) (z_inner_offset_ ct)
    (z_outer_offset_ ct) m (sector_rotations_ ct).

Definition set_sector_rotations (ct : CoordTransform) (v : list TGeoHMatrix)
  : CoordTransform :=
  mkCoordTransform (cfg_ ct) (timebin_width_ ct) (z_inner_offset_ ct)
    (z_outer_offset_ ct) (tpc2global_ ct) v.

(** The body of the inner loop. *)
Definition rotation_step (sector : Z) (ct : CoordTransform) (k : Z)
  : option CoordTransform :=
  rotA ← (if (sector =? 0)%Z then Some (tpc_reference_system (cfg_ ct))
          else stage_matrix ct sector k);
  let rotA := normalize rotA in
  if (sector =? 0)%Z then Some (set_tpc2global ct rotA)
  else v ← storeZ (sector_rotations_ ct) (slot sector k) rotA;
       Some (set_sector_rotations ct v).

(** The stages visited for a sector: [k1 <= k < k2]. *)
Definition stages_of (sector : Z) : list Z :=
  let k1 := kSupS2Tpc in
  let k2 := kTotalTpcSectorRotaions in
  let '(k1, k2) := if (sector =? 0)%Z then (kUndefSector, k1) else (k1, k2) in
  Zrange k1 k2.

Definition sector_step (ct : CoordTransform) (sector : Z) : option CoordTransform :=
  for_each (rotation_step sector) (stages_of sector) ct.

Definition SetTpcRotations (ct : CoordTransform) : option CoordTransform :=
  for_each sector_step (Zrange 0 25) ct.

(** The constructor. *)
Definition new_CoordTransform (cfg : Configurator) : option CoordTransform :=
  SetTpcRotations
    (mkCoordTransform cfg
       (1e6 / frequency (S_starClockOnl cfg))
       (z_inner_offset (S_tpcEffectiveGeom cfg))
       (z_outer_offset (S_tpcEffectiveGeom cfg))
       hm_identity
       (replicate (Z.to_nat (12 * 2 * kTotalTpcSectorRotaions)) hm_identity)).

(** The slots written by the construction, in the order of the writes. *)
Definition write_schedule : list Z :=
  flat_map (fun sector => map (slot sector) (stages_of sector)) (Zrange 1 25).

(** ** Vocabulary of the properties *)

(** The row after the clamp at the top of each scalar conversion. *)
Definition clamped_row (ct : CoordTransform) (row : Z) : Z :=
  Z.min row (padRows (S_tpcPadPlanes (cfg_ ct))).

(** The pad pitch of a row: inner up to [innerPadRows], outer beyond. *)
Definition pitch_of (ct : CoordTransform) (row : Z) : R :=
  if (clamped_row ct row <=? innerPadRows (S_tpcPadPlanes (cfg_ ct)))%Z
  then innerSectorPadPitch (S_tpcPadPlanes (cfg_ ct))
  else outerSectorPadPitch (S_tpcPadPlanes (cfg_ ct)).

Definition npads_of (ct : CoordTransform) (row : Z) : Z :=
  NumberOfPads (clamped_row ct row) (cfg_ ct).

(** The linear formula of the spec: [(npads + 1)/2 - x/pitch]. *)
Definition linear_pad (ct : CoordTransform) (x : R) (row : Z) : R :=
  (IZR (npads_of ct row) + 1) / 2 - x / pitch_of ct row.

(** The calibration tables cover the configured ranges: a zero-time table
    for each of the 24 sectors with an entry for every row, and a sector
    offset for each of the 48 half-sectors. *)
Definition tables_cover (cfg : Configurator) : Prop :=
  (24 <= length (S_tpcPadrowT0 cfg))%nat
  /\ Forall (fun r => (padRows (S_tpcPadPlanes cfg) <= Z.of_nat (length (T0 r)))%Z)
            (S_tpcPadrowT0 cfg)
  /\ (48 <= length (t0 (S_tpcSectorT0offset cfg)))%nat.

(** The elements of [a] below index [k] are less than [val], the others
    are not: [k] is the partition point that a binary search looks for. *)
Definition partition_point (a : list R) (val : R) (k : Z) : Prop :=
  forall i v, lookupZ a i = Some v ->
    ((i < k)%Z -> v < val) /\ ((k <= i)%Z -> ~ v < val).

Definition nondecreasing (a : list R) : Prop :=
  forall i j vi vj, (i <= j)%Z ->
    lookupZ a i = Some vi -> lookupZ a j = Some vj -> vi <= vj.

(** The search of [YToRow] in a given boundary table. *)
Definition search_row (st : YToRowStatics) (y : R) : option Z :=
  let n := (Nrows st + 1)%Z in
  r_ptr ← lower_bound (Radii st) n y;
  hit ← (if (r_ptr =? n)%Z then Some false
         else v ← lookupZ (Radii st) r_ptr; Some (Reqb v y));
  let row := if (hit : bool) then (r_ptr + 1)%Z else r_ptr in
  let row := if (row <=? 0)%Z then 1%Z else row in
  let row := if (row >? Nrows st)%Z then Nrows st else row in
  Some row.

(** The table that [YToRow] holds once it has been called with [cfg]. *)
Definition statics_of (cfg : Configurator) : YToRowStatics :=
  mkStatics (padRows (S_tpcPadPlanes cfg))
            (build_Radii cfg (padRows (S_tpcPadPlanes cfg))).

(** The states that the statics of [YToRow] can be in: before the first
    call, or with a table of [Nrows + 1] boundaries, whichever
    configuration it was built from. *)
Definition statics_reachable (st : YToRowStatics) : Prop :=
  st = statics_initial \/ Z.of_nat (length (Radii st)) = (Nrows st + 1)%Z.

(** The statics were left by a call with [cfg], or call for a rebuild:
    no other configuration with the same number of rows has filled the
    table. *)
Definition statics_ok (cfg : Configurator) (st : YToRowStatics) : Prop :=
  Nrows st = padRows (S_tpcPadPlanes cfg) -> st = statics_of cfg.

(** The columns of a rotation array are orthonormal. *)
Definition orthonormal (r : Rotation) : Prop :=
  r0 r * r0 r + r3 r * r3 r + r6 r * r6 r = 1
  /\ r1 r * r1 r + r4 r * r4 r + r7 r * r7 r = 1
  /\ r2 r * r2 r + r5 r * r5 r + r8 r * r8 r = 1
  /\ r0 r * r1 r + r3 r * r4 r + r6 r * r7 r = 0
  /\ r0 r * r2 r + r3 r * r5 r + r6 r * r8 r = 0
  /\ r1 r * r2 r + r4 r * r5 r + r7 r * r8 r = 0.

(** A rigid transform: a matrix whose rotation array is orthonormal. *)
Definition rigid (m : TGeoHMatrix) : Prop := orthonormal (fRotationMatrix m).

(** The flip of the second half of the TPC: (x, y, z) to (x, -y, -z). *)
Definition flip_y_z : TGeoHMatrix :=
  mkHMatrix (mkVec 0 0 0) (mkRot 1 0 0
                                 0 (-1) 0
                                 0 0 (-1)).

(** The fields that the construction never writes. *)
Definition same_calibration (ct ct' : CoordTransform) : Prop :=
  cfg_ ct' = cfg_ ct
  /\ timebin_width_ ct' = timebin_width_ ct
  /\ z_inner_offset_ ct' = z_inner_offset_ ct
  /\ z_outer_offset_ ct' = z_outer_offset_ ct.

(** The calibration supplies rigid transforms. *)
Definition calibration_rigid (cfg : Configurator) : Prop :=
  forall i, rigid (StTpcSuperSectorPosition_GetMatrix cfg i)
            /\ rigid (StTpcOuterSectorPosition_GetMatrix cfg i).

(** The documented product of each stage, from the stages it is made
    of: [g] is Tpc to Global. *)
Definition stage_product (cfg : Configurator) (g : TGeoHMatrix) (sector k : Z)
  : TGeoHMatrix :=
  let supS := supersector_to_tpc cfg sector in
  let inner := flip_matrix in
  let outer := (flip_matrix ** StTpcOuterSectorPosition_GetMatrix cfg (sector - 1))%hm in
  if (k =? kSupS2Tpc)%Z then supS
  else if (k =? kSupS2Glob)%Z then (g ** supS)%hm
  else if (k =? kSubSInner2SupS)%Z then inner
  else if (k =? kSubSOuter2SupS)%Z then outer
  else if (k =? kSubSInner2Tpc)%Z then (supS ** inner)%hm
  else if (k =? kSubSOuter2Tpc)%Z then (supS ** outer)%hm
  else if (k =? kSubSInner2Glob)%Z then (g ** (supS ** inner))%hm
  else if (k =? kSubSOuter2Glob)%Z then (g ** (supS ** outer))%hm
  else if (k =? kPadInner2SupS)%Z then inner
  else if (k =? kPadOuter2SupS)%Z then outer
  else if (k =? kPadInner2Tpc)%Z then (supS ** inner)%hm
  else if (k =? kPadOuter2Tpc)%Z then (supS ** outer)%hm
  else if (k =? kPadInner2Glob)%Z then (g ** (supS ** inner))%hm
  else (g ** (supS ** outer))%hm.

Definition cache_size : nat := Z.to_nat (12 * 2 * kTotalTpcSectorRotaions).

(** Stages [0 .. k-1] of a sector hold their documented products. *)
Definition stages_filled (ct : CoordTransform) (sector k : Z) : Prop :=
  forall j, (0 <= j < k)%Z ->
    sector_rotation ct sector j
    = Some (stage_product (cfg_ ct) (tpc2global_ ct) sector j).

Ltac stage_cases k H :=
  assert (k = 0 \/ k = 1 \/ k = 2 \/ k = 3 \/ k = 4 \/ k = 5 \/ k = 6 \/ k = 7
          \/ k = 8 \/ k = 9 \/ k = 10 \/ k = 11 \/ k = 12 \/ k = 13)%Z
    as H by lia;
  repeat (destruct H as [H | H]).

(** The state of the construction between two iterations: the cache has
    its full size and Tpc to Global is rigid. *)
Definition cache_wf (ct : CoordTransform) : Prop :=
  length (sector_rotations_ ct) = cache_size /\ rigid (tpc2global_ ct).

(** [ct'] differs from [ct] in the slots of [sector] from stage [k] on at
    most. *)
Definition writes_only (ct ct' : CoordTransform) (sector k : Z) : Prop :=
  same_calibration ct ct'
  /\ tpc2global_ ct' = tpc2global_ ct
  /\ length (sector_rotations_ ct') = length (sector_rotations_ ct)
  /\ forall i, (i < slot sector k \/ slot sector kTotalTpcSectorRotaions <= i)%Z ->
       lookupZ (sector_rotations_ ct') i = lookupZ (sector_rotations_ ct) i.

(** Every sector before [sector] holds the documented products. *)
Definition sectors_filled (ct : CoordTransform) (sector : Z) : Prop :=
  forall s, (1 <= s < sector)%Z -> stages_filled ct s kTotalTpcSectorRotaions.

(** The in-plane rotation by [deg] degrees. *)
Definition rotation_z (deg : R) : TGeoHMatrix :=
  mkHMatrix (mkVec 0 0 0)
    (mkRot (cos (deg * PI / 180)) (- sin (deg * PI / 180)) 0
           (sin (deg * PI / 180)) (cos (deg * PI / 180)) 0
           0 0 1).

(** The drift distance along the chamber axis. *)
Definition drift_distance (cfg : Configurator) : R :=
  outerSectorPadPlaneZ (S_tpcPadPlanes cfg)
  - outerSectorGatingGridPadSep (S_tpcWirePlanes cfg).

(** The boundaries of a table grow strictly with the index. *)
Definition increasing (a : list R) : Prop :=
  forall i j vi vj, (i < j)%Z ->
    lookupZ a i = Some vi -> lookupZ a j = Some vj -> vi < vj.

(** The nominal radii of the configured rows grow strictly with the
    row. *)
Definition radii_increasing (cfg : Configurator) : Prop :=
  forall i, (1 <= i < padRows (S_tpcPadPlanes cfg))%Z ->
    RadialDistanceAtRow i cfg < RadialDistanceAtRow (i + 1) cfg.

(** The radius half way between the nominal radii of two rows. *)
Definition midpoint (cfg : Configurator) (i j : Z) : R :=
  (RadialDistanceAtRow i cfg + RadialDistanceAtRow j cfg) / 2.

(** The cache has the size that the constructor gives it. *)
Definition cache_sized (ct : CoordTransform) : Prop :=
  length (sector_rotations_ ct) = cache_size.

(** The fields that the loop over the sectors 1..24 never writes. *)
Definition same_frame (ct ct' : CoordTransform) : Prop :=
  same_calibration ct ct' /\ tpc2global_ ct' = tpc2global_ ct.

(** The tilt of the TPC: the rotation by [- psi] about x followed by the
    rotation by [- theta] about y, angles in radians, and a shift. *)
Definition tilted_frame (theta psi : R) (shift : TVector3) : TGeoHMatrix :=
  mkHMatrix shift
    (mkRot (cos theta) (sin theta * sin psi) (- sin theta * cos psi)
           0           (cos psi)             (sin psi)
           (sin theta) (- cos theta * sin psi) (cos theta * cos psi)).

(** The columns of the rotation array of a matrix. *)
Definition column_x (m : TGeoHMatrix) : TVector3 :=
  mkVec (r0 (fRotationMatrix m)) (r3 (fRotationMatrix m)) (r6 (fRotationMatrix m)).
Definition column_y (m : TGeoHMatrix) : TVector3 :=
  mkVec (r1 (fRotationMatrix m)) (r4 (fRotationMatrix m)) (r7 (fRotationMatrix m)).
Definition column_z (m : TGeoHMatrix) : TVector3 :=
  mkVec (r2 (fRotationMatrix m)) (r5 (fRotationMatrix m)) (r8 (fRotationMatrix m)).

(** The matrix that [Pad2Tpc] returns is rigid for every row of the
    sector. *)
Definition pad_frames_rigid (ct : CoordTransform) (sector : Z) : Prop :=
  forall row, (1 <= row <= padRows (S_tpcPadPlanes (cfg_ ct)))%Z ->
    rigid (Pad2Tpc ct sector row).

(** ** Properties of the scalar conversions *)

Lemma clamp_is_min (row rows : Z) :
  (if (row >? rows)%Z then rows else row) = Z.min row rows.
Proof. destruct (Z.gtb_spec row rows); lia. Qed.

Lemma XToPad_unfold ct x sector row :
  XToPad ct x sector row =
  if Rlt_dec (linear_pad ct x row) 0.500001 then 0.500001 else linear_pad ct x row.
Proof.
  unfold XToPad, linear_pad, npads_of, pitch_of, clamped_row.
  rewrite clamp_is_min. reflexivity.
Qed.

Lemma PadToX_unfold ct sector row p :
  PadToX ct sector row p = - pitch_of ct row * (p - (IZR (npads_of ct row) + 1) / 2).
Proof.
  unfold PadToX, npads_of, pitch_of, clamped_row.
  rewrite clamp_is_min. reflexivity.
Qed.

Lemma XToPad_extended_unfold ct (x : xreal) sector row :
  Extended.XToPad NumberOfPads ct x sector row
  = if xlt (Extended.linear_pad NumberOfPads ct x row) (Fin 0.500001)
    then Fin 0.500001 else Extended.linear_pad NumberOfPads ct x row.
Proof. reflexivity. Qed.

(** On a finite position and with a nonzero pad pitch, the formula over
    the extended reals computes the real number of [linear_pad]. *)
Lemma linear_pad_extended_finite ct x row :
  pitch_of ct row <> 0 ->
  Extended.linear_pad NumberOfPads ct (Fin x) row = Fin (linear_pad ct x row).
Proof.
  unfold linear_pad, npads_of, pitch_of, clamped_row. rewrite <- clamp_is_min.
  unfold Extended.linear_pad. cbv zeta.
  set (row' := if (row >? padRows (S_tpcPadPlanes (cfg_ ct)))%Z
               then padRows (S_tpcPadPlanes (cfg_ ct)) else row).
  set (pitch := if (row' <=? innerPadRows (S_tpcPadPlanes (cfg_ ct)))%Z
                then innerSectorPadPitch (S_tpcPadPlanes (cfg_ ct))
                else outerSectorPadPitch (S_tpcPadPlanes (cfg_ ct))).
  intros Hpitch.
  cbn [fdiv fsub fadd of_int of_real xreal_Floating xdiv xadd].
  destruct (Req_dec_T 2 0) as [H2 | _]; [lra |].
  destruct (Req_dec_T pitch 0) as [H0 | _]; [contradiction |].
  reflexivity.
Qed.

Lemma XToPad_extended_finite ct x sector row :
  pitch_of ct row <> 0 ->
  Extended.XToPad NumberOfPads ct (Fin x) sector row = Fin (XToPad ct x sector row).
Proof.
  intros Hpitch.
  rewrite XToPad_extended_unfold, (linear_pad_extended_finite ct x row Hpitch),
    XToPad_unfold.
  cbn [xlt]. unfold Rltb. destruct (Rlt_dec _ _); reflexivity.
Qed.

(** The formula is a number or an infinity, unless the position is NaN
    or the quotient is that of zero by zero. *)
Lemma linear_pad_extended_number ct (x : xreal) row :
  x <> NaN -> (pitch_of ct row = 0 -> x <> Fin 0) ->
  Extended.linear_pad NumberOfPads ct x row <> NaN.
Proof.
  unfold pitch_of, clamped_row. rewrite <- clamp_is_min.
  unfold Extended.linear_pad. cbv zeta.
  set (row' := if (row >? padRows (S_tpcPadPlanes (cfg_ ct)))%Z
               then padRows (S_tpcPadPlanes (cfg_ ct)) else row).
  set (pitch := if (row' <=? innerPadRows (S_tpcPadPlanes (cfg_ ct)))%Z
                then innerSectorPadPitch (S_tpcPadPlanes (cfg_ ct))
                else outerSectorPadPitch (S_tpcPadPlanes (cfg_ ct))).
  intros Hnan Hzero.
  cbn [fdiv fsub fadd of_int of_real xreal_Floating xdiv xadd].
  destruct (Req_dec_T 2 0) as [H2 | _]; [lra |].
  destruct x as [r | | |]; [| | | contradiction]; cbn [xdiv xsign].
  - destruct (Req_dec_T pitch 0) as [H0 | _]; [| discriminate].
    assert (Hr : r <> 0) by (intros ->; apply (Hzero H0); reflexivity).
    unfold Rsign. destruct (Rlt_dec 0 r); [discriminate |].
    destruct (Rlt_dec r 0); [discriminate | lra].
  - destruct (Rsign pitch) as [[] |]; discriminate.
  - destruct (Rsign pitch) as [[] |]; discriminate.
Qed.

(** C7. For a position [x] that is not NaN, and unless [x] is zero in a
    row whose pad pitch is zero, [XToPad] returns a value that is at
    least 0.500001: exactly 0.500001 where the linear formula
    [(npads + 1)/2 - x/pitch] is below that value, and the value of the
    formula otherwise.  For a finite [x] and a nonzero pitch the formula
    and the result are the real numbers of the embedding in [R]. *)
Theorem XToPad_lower_clamp (ct : CoordTransform) (x : xreal) (sector row : Z) :
  x <> NaN ->
  (pitch_of ct row = 0 -> x <> Fin 0) ->
  Extended.at_least 0.500001 (Extended.XToPad NumberOfPads ct x sector row)
  /\ (xlt (Extended.linear_pad NumberOfPads ct x row) (Fin 0.500001) = true ->
      Extended.XToPad NumberOfPads ct x sector row = Fin 0.500001)
  /\ (xlt (Extended.linear_pad NumberOfPads ct x row) (Fin 0.500001) = false ->
      Extended.XToPad NumberOfPads ct x sector row
      = Extended.linear_pad NumberOfPads ct x row)
  /\ (forall r : R, x = Fin r -> pitch_of ct row <> 0 ->
      Extended.linear_pad NumberOfPads ct x row = Fin (linear_pad ct r row)
      /\ Extended.XToPad NumberOfPads ct x sector row = Fin (XToPad ct r sector row)
      /\ 0.500001 <= XToPad ct r sector row).
Proof.
  intros Hnan Hzero.
  pose proof (linear_pad_extended_number ct x row Hnan Hzero) as Hnum.
  split; [| split; [| split]].
  - rewrite XToPad_extended_unfold.
    destruct (Extended.linear_pad NumberOfPads ct x row) as [v | | |];
      [| | | contradiction]; cbn [xlt Extended.at_least].
    + unfold Rltb. destruct (Rlt_dec v 0.500001); cbn [Extended.at_least]; lra.
    + exact I.
    + cbn [Extended.at_least]. lra.
  - rewrite XToPad_extended_unfold. intros ->. reflexivity.
  - rewrite XToPad_extended_unfold. intros ->. reflexivity.
  - intros r -> Hpitch.
    split; [apply linear_pad_extended_finite; exact Hpitch |].
    split; [apply XToPad_extended_finite; exact Hpitch |].
    rewrite XToPad_unfold.
      destruct (Rlt_dec (linear_pad ct r row) 0.500001); lra.
Qed.

Lemma XToPad_PadToX ct sector row p :
  pitch_of ct row <> 0 -> 0.500001 <= p ->
  XToPad ct (PadToX ct sector row p) sector row = p.
Proof.
  intros Hpitch Hp.
  rewrite XToPad_unfold, PadToX_unfold. unfold linear_pad.
  set (m := (IZR (npads_of ct row) + 1) / 2).
  replace (m - - pitch_of ct row * (p - m) / pitch_of ct row) with p
    by (field; exact Hpitch).
  destruct (Rlt_dec p 0.500001); [lra | reflexivity].
Qed.

Lemma lookupZ_Some {A : Type} (l : list A) (i : Z) :
  (0 <= i < Z.of_nat (length l))%Z -> exists v, lookupZ l i = Some v.
Proof.
  intros Hi. unfold lookupZ.
  destruct (Z.ltb_spec i 0); [lia |].
  destruct (lookup_lt_is_Some_2 l (Z.to_nat i)) as [v Hv]; [lia |].
  exists v. exact Hv.
Qed.

Lemma lookupZ_negative {A : Type} (l : list A) (i : Z) :
  (i < 0)%Z -> lookupZ l i = None.
Proof.
  intros Hi. unfold lookupZ. destruct (Z.ltb_spec i 0); [reflexivity | lia].
Qed.

Lemma lookupZ_in {A : Type} (l : list A) (i : Z) (v : A) :
  lookupZ l i = Some v -> v ∈ l.
Proof.
  unfold lookupZ. destruct (i <? 0)%Z; [discriminate |].
  intros Hv. eapply list_elem_of_lookup_2. exact Hv.
Qed.

Lemma lookupZ_bounds {A : Type} (l : list A) (i : Z) (v : A) :
  lookupZ l i = Some v -> (0 <= i < Z.of_nat (length l))%Z.
Proof.
  unfold lookupZ. destruct (Z.ltb_spec i 0); [discriminate |].
  intros Hv. apply lookup_lt_Some in Hv. lia.
Qed.

(** [TimeToZ] returns a value for a sector and a row within the
    configured ranges. *)
Lemma TimeToZ_defined ct tb sector row pad :
  tables_cover (cfg_ ct) ->
  (1 <= sector <= 24)%Z -> (1 <= row)%Z ->
  (1 <= padRows (S_tpcPadPlanes (cfg_ ct)))%Z ->
  exists z, TimeToZ ct tb sector row pad = Some z.
Proof.
  intros (Hsec & Hrows & Hoff) Hs Hr Hp.
  unfold TimeToZ. rewrite clamp_is_min.
  destruct (lookupZ_Some (S_tpcPadrowT0 (cfg_ ct)) (sector - 1)) as [rec Hrec];
    [lia |].
  rewrite Hrec. simpl.
  pose proof (proj1 (Forall_forall _ _) Hrows rec (lookupZ_in _ _ _ Hrec))
    as Hlen.
  simpl in Hlen.
  destruct (lookupZ_Some (T0 rec)
              (Z.min row (padRows (S_tpcPadPlanes (cfg_ ct))) - 1)) as [v Hv];
    [lia |].
  rewrite Hv. simpl.
  destruct (lookupZ_Some (t0 (S_tpcSectorT0offset (cfg_ ct)))
              ((if IsInner (Z.min row (padRows (S_tpcPadPlanes (cfg_ ct)))) (cfg_ ct)
                then sector + 24 else sector) - 1)) as [w Hw].
  { destruct (IsInner _ _); lia. }
  rewrite Hw. simpl. eexists. reflexivity.
Qed.

(** [ZToTime] undoes [TimeToZ] when neither the drift velocity nor the
    width of a time bin is zero. *)
Lemma ZToTime_TimeToZ ct tb sector row pad z :
  DriftVelocity sector (cfg_ ct) <> 0 ->
  timebin_width_ ct <> 0 ->
  TimeToZ ct tb sector row pad = Some z ->
  ZToTime ct z sector row pad = Some tb.
Proof.
  intros Hv Hw. unfold TimeToZ, ZToTime.
  destruct (lookupZ (S_tpcPadrowT0 (cfg_ ct)) (sector - 1)) as [rec |];
    [simpl | discriminate].
  destruct (lookupZ (T0 rec) _) as [sectT0 |]; [simpl | discriminate].
  destruct (lookupZ (t0 (S_tpcSectorT0offset (cfg_ ct))) _) as [t0off |];
    [simpl | discriminate].
  intros Hz. injection Hz as Hz. subst z. f_equal. field. repeat split; auto; lra.
Qed.

(** Below row 1 the read [T0[row - 1]] is out of bounds, whatever the
    configuration. *)
Lemma padrow_read_out_of_bounds ct tb z sector row pad :
  (row <= 0)%Z ->
  TimeToZ ct tb sector row pad = None /\ ZToTime ct z sector row pad = None.
Proof.
  intros Hrow. unfold TimeToZ, ZToTime. rewrite clamp_is_min.
  assert (Hread : forall rec : tpcPadrowT0,
             lookupZ (T0 rec) (Z.min row (padRows (S_tpcPadPlanes (cfg_ ct))) - 1)
             = None) by (intros rec; apply lookupZ_negative; lia).
  destruct (lookupZ (S_tpcPadrowT0 (cfg_ ct)) (sector - 1)) as [rec |];
    [| split; reflexivity].
  cbn [mbind option_bind]. rewrite Hread. split; reflexivity.
Qed.

(** ** Properties of the row lookup *)

Lemma shiftr_1_half (n : Z) : Z.shiftr n 1 = (n / 2)%Z.
Proof. rewrite Z.shiftr_div_pow2 by lia. reflexivity. Qed.

(** The loop of the binary search stays inside its range, and never runs
    out of iterations when given as many as the range is long. *)
Lemma lower_bound_loop_range (a : list R) (val : R) :
  forall (fuel : nat) (first len : Z),
    (0 <= first)%Z -> (0 <= len)%Z ->
    (first + len <= Z.of_nat (length a))%Z ->
    (len <= Z.of_nat fuel)%Z ->
    exists k, lower_bound_loop fuel a first len val = Some k
              /\ (first <= k <= first + len)%Z.
Proof.
  induction fuel as [| fuel IH]; intros first len Hf Hl Hb Hfuel.
  - assert (len = 0%Z) by lia. subst len. simpl. exists first. split; [reflexivity | lia].
  - simpl. destruct (Z.leb_spec len 0) as [Hle | Hgt].
    + exists first. split; [reflexivity | lia].
    + rewrite shiftr_1_half.
      pose proof (Z.div_pos len 2 ltac:(lia) ltac:(lia)) as Hh0.
      pose proof (Z.div_lt_upper_bound len 2 len ltac:(lia) ltac:(lia)) as Hh1.
      destruct (lookupZ_Some a (first + len / 2)) as [m Hm]; [lia |].
      rewrite Hm. simpl.
      destruct (Rlt_dec m val).
      * destruct (IH (first + len / 2 + 1)%Z (len - len / 2 - 1)%Z) as (k & Hk & Hr);
          try lia.
        exists k. split; [exact Hk | lia].
      * destruct (IH first (len / 2)%Z) as (k & Hk & Hr); try lia.
        exists k. split; [exact Hk | lia].
Qed.

(** On a nondecreasing array the loop returns the partition point. *)
Lemma lower_bound_loop_partition (a : list R) (val : R) :
  nondecreasing a ->
  forall (fuel : nat) (first len k : Z),
    (0 <= first)%Z -> (0 <= len)%Z ->
    (forall i v, lookupZ a i = Some v -> (i < first)%Z -> v < val) ->
    (forall i v, lookupZ a i = Some v -> (first + len <= i)%Z -> ~ v < val) ->
    lower_bound_loop fuel a first len val = Some k ->
    partition_point a val k.
Proof.
  intros Hsorted.
  induction fuel as [| fuel IH]; intros first len k Hf Hl Hlo Hhi Hrun.
  - simpl in Hrun. destruct (Z.leb_spec len 0) as [Hle | Hgt]; [| discriminate].
    injection Hrun as <-. intros i v Hv. split; intros Hi.
    + eapply Hlo; eauto.
    + eapply Hhi; eauto. lia.
  - simpl in Hrun. destruct (Z.leb_spec len 0) as [Hle | Hgt].
    + injection Hrun as <-. intros i v Hv. split; intros Hi.
      * eapply Hlo; eauto.
      * eapply Hhi; eauto. lia.
    + rewrite shiftr_1_half in Hrun.
      pose proof (Z.div_pos len 2 ltac:(lia) ltac:(lia)) as Hh0.
      pose proof (Z.div_lt_upper_bound len 2 len ltac:(lia) ltac:(lia)) as Hh1.
      destruct (lookupZ a (first + len / 2)) as [m |] eqn:Hm; [| discriminate].
      simpl in Hrun.
      destruct (Rlt_dec m val) as [Hlt | Hge].
      * apply (IH (first + len / 2 + 1)%Z (len - len / 2 - 1)%Z k
                  ltac:(lia) ltac:(lia)); [| | exact Hrun].
        -- intros i v Hv Hi.
           pose proof (Hsorted i (first + len / 2)%Z v m ltac:(lia) Hv Hm). lra.
        -- intros i v Hv Hi. eapply Hhi; eauto. lia.
      * apply (IH first (len / 2)%Z k ltac:(lia) ltac:(lia)); [exact Hlo | | exact Hrun].
        intros i v Hv Hi.
        pose proof (Hsorted (first + len / 2)%Z i m v ltac:(lia) Hm Hv). lra.
Qed.

Lemma lower_bound_range (a : list R) (val : R) :
  exists k, lower_bound a (Z.of_nat (length a)) val = Some k
            /\ (0 <= k <= Z.of_nat (length a))%Z.
Proof.
  unfold lower_bound.
  destruct (lower_bound_loop_range a val (Z.to_nat (Z.of_nat (length a))) 0
              (Z.of_nat (length a))) as (k & Hk & Hr); try lia.
  exists k. split; [exact Hk | lia].
Qed.

Lemma lower_bound_partition (a : list R) (val : R) (k : Z) :
  nondecreasing a ->
  lower_bound a (Z.of_nat (length a)) val = Some k ->
  partition_point a val k.
Proof.
  intros Hsorted Hk. unfold lower_bound in Hk.
  eapply lower_bound_loop_partition; eauto; try lia.
  - intros i v Hv Hi. apply lookupZ_bounds in Hv. lia.
  - intros i v Hv Hi. apply lookupZ_bounds in Hv. lia.
Qed.

(** Partition points grow with the value searched for. *)
Lemma partition_point_mono (a : list R) (y1 y2 : R) (k1 k2 : Z) :
  (0 <= k1 <= Z.of_nat (length a))%Z -> (0 <= k2 <= Z.of_nat (length a))%Z ->
  partition_point a y1 k1 -> partition_point a y2 k2 ->
  y1 <= y2 -> (k1 <= k2)%Z.
Proof.
  intros Hk1 Hk2 Hp1 Hp2 Hy.
  destruct (Z.le_gt_cases k1 k2) as [Hle | Hgt]; [exact Hle |].
  destruct (lookupZ_Some a k2) as [v Hv]; [lia |].
  destruct (Hp1 k2 v Hv) as [Hlt _]. destruct (Hp2 k2 v Hv) as [_ Hge].
  specialize (Hlt Hgt). specialize (Hge ltac:(lia)). lra.
Qed.

Lemma YToRow_unfold ct st y sector :
  YToRow ct st y sector =
  st' ← refresh_statics (cfg_ ct) st; r ← search_row st' y; Some (r, st').
Proof.
  unfold YToRow, search_row.
  destruct (refresh_statics (cfg_ ct) st) as [st' |]; [simpl | reflexivity].
  destruct (lower_bound (Radii st') (Nrows st' + 1) y) as [k |]; [simpl | reflexivity].
  destruct (k =? Nrows st' + 1)%Z; [reflexivity |].
  destruct (lookupZ (Radii st') k); reflexivity.
Qed.

Lemma length_Zrange lo hi : length (Zrange lo hi) = Z.to_nat (hi - lo).
Proof. unfold Zrange. rewrite length_map, length_seq. reflexivity. Qed.

Lemma Zrange_nil lo hi : (hi <= lo)%Z -> Zrange lo hi = [].
Proof.
  intros H. unfold Zrange. replace (Z.to_nat (hi - lo)) with 0%nat by lia. reflexivity.
Qed.

Lemma Zrange_cons lo hi : (lo < hi)%Z -> Zrange lo hi = lo :: Zrange (lo + 1) hi.
Proof.
  intros H. unfold Zrange.
  replace (Z.to_nat (hi - lo)) with (S (Z.to_nat (hi - (lo + 1)))) by lia.
  simpl. f_equal; [lia |].
  rewrite <- seq_shift, map_map. apply map_ext. intros i. lia.
Qed.

Lemma length_build_Radii cfg nrows :
  length (build_Radii cfg nrows) = Z.to_nat (nrows + 1).
Proof.
  unfold build_Radii. rewrite length_map, length_Zrange. f_equal. lia.
Qed.

Lemma initial_statics_ok cfg :
  (padRows (S_tpcPadPlanes cfg) <> 0)%Z -> statics_ok cfg statics_initial.
Proof. intros Hrows Heq. simpl in Heq. congruence. Qed.

Lemma statics_of_ok cfg : statics_ok cfg (statics_of cfg).
Proof. intros _. reflexivity. Qed.

Lemma refresh_statics_ok cfg st :
  (0 <= padRows (S_tpcPadPlanes cfg) + 1)%Z -> statics_ok cfg st ->
  refresh_statics cfg st = Some (statics_of cfg).
Proof.
  intros Hrows Hok. unfold refresh_statics.
  destruct (Z.eqb_spec (Nrows st) (padRows (S_tpcPadPlanes cfg))) as [Heq | Hne].
  - rewrite (Hok Heq). reflexivity.
  - destruct (Z.ltb_spec (padRows (S_tpcPadPlanes cfg) + 1) 0); [lia | reflexivity].
Qed.

(** After a refresh the cached row count is the configured one. *)
Lemma refresh_statics_Nrows cfg st st' :
  refresh_statics cfg st = Some st' -> Nrows st' = padRows (S_tpcPadPlanes cfg).
Proof.
  unfold refresh_statics.
  destruct (Z.eqb_spec (Nrows st) (padRows (S_tpcPadPlanes cfg))) as [Heq | Hne].
  - intros H. injection H as <-. exact Heq.
  - destruct (_ <? 0)%Z; [discriminate |]. intros H. injection H as <-. reflexivity.
Qed.

Lemma search_row_range st y :
  (1 <= Nrows st)%Z -> Z.of_nat (length (Radii st)) = (Nrows st + 1)%Z ->
  exists r, search_row st y = Some r /\ (1 <= r <= Nrows st)%Z.
Proof.
  intros Hn Hlen. unfold search_row. rewrite <- Hlen.
  destruct (lower_bound_range (Radii st) y) as (k & Hk & Hr).
  rewrite Hk. simpl.
  assert (Hclamp : forall r0 : Z, exists r,
    Some (let row := if (r0 <=? 0)%Z then 1%Z else r0 in
          if (row >? Nrows st)%Z then Nrows st else row) = Some r
    /\ (1 <= r <= Nrows st)%Z).
  { intros r0. eexists. split; [reflexivity |]. simpl.
    destruct (Z.leb_spec r0 0); destruct (Z.gtb_spec 1 (Nrows st));
      try destruct (Z.gtb_spec r0 (Nrows st)); lia. }
  destruct (Z.eqb_spec k (Z.of_nat (length (Radii st)))) as [Heq | Hne].
  - simpl. apply Hclamp.
  - destruct (lookupZ_Some (Radii st) k) as [v Hv]; [lia |].
    rewrite Hv. simpl. destruct (Reqb v y); apply Hclamp.
Qed.

Lemma clamp_row_mono (n a b : Z) :
  (a <= b)%Z ->
  ((let row := if (a <=? 0)%Z then 1%Z else a in
    if (row >? n)%Z then n else row)
   <= (let row := if (b <=? 0)%Z then 1%Z else b in
       if (row >? n)%Z then n else row))%Z.
Proof.
  intros Hab. simpl.
  destruct (Z.leb_spec a 0); destruct (Z.leb_spec b 0);
    repeat match goal with
           | |- context [(?u >? ?v)%Z] => destruct (Z.gtb_spec u v)
           end; lia.
Qed.

Lemma search_row_mono st y1 y2 r1 r2 :
  Z.of_nat (length (Radii st)) = (Nrows st + 1)%Z ->
  nondecreasing (Radii st) -> y1 < y2 ->
  search_row st y1 = Some r1 -> search_row st y2 = Some r2 -> (r1 <= r2)%Z.
Proof.
  intros Hlen Hsorted Hy. unfold search_row. rewrite <- Hlen.
  destruct (lower_bound_range (Radii st) y1) as (k1 & Hk1 & Hr1).
  destruct (lower_bound_range (Radii st) y2) as (k2 & Hk2 & Hr2).
  rewrite Hk1, Hk2. simpl.
  pose proof (lower_bound_partition _ _ _ Hsorted Hk1) as Hp1.
  pose proof (lower_bound_partition _ _ _ Hsorted Hk2) as Hp2.
  pose proof (partition_point_mono _ _ _ _ _ Hr1 Hr2 Hp1 Hp2 ltac:(lra)) as Hk.
  assert (Hhit1 : forall v, lookupZ (Radii st) k1 = Some v -> Reqb v y1 = true ->
                            (k1 < k2)%Z).
  { intros v Hv Heq. unfold Reqb in Heq.
    destruct (Req_dec_T v y1) as [-> |]; [| discriminate].
    destruct (Z.eq_dec k1 k2) as [<- |]; [| lia].
    destruct (Hp2 k1 y1 Hv) as [_ Hge]. specialize (Hge ltac:(lia)). lra. }
  destruct (Z.eqb_spec k1 (Z.of_nat (length (Radii st)))) as [He1 | Hn1];
    destruct (Z.eqb_spec k2 (Z.of_nat (length (Radii st)))) as [He2 | Hn2]; simpl.
  - intros H1 H2. injection H1 as <-. injection H2 as <-.
    apply clamp_row_mono. lia.
  - lia.
  - destruct (lookupZ (Radii st) k1) as [v1 |] eqn:Hv1; [simpl | discriminate].
    intros H1 H2. injection H1 as <-. injection H2 as <-.
    apply clamp_row_mono. destruct (Reqb v1 y1); lia.
  - destruct (lookupZ (Radii st) k1) as [v1 |] eqn:Hv1; [simpl | discriminate].
    destruct (lookupZ (Radii st) k2) as [v2 |] eqn:Hv2; [simpl | discriminate].
    intros H1 H2. injection H1 as <-. injection H2 as <-.
    apply clamp_row_mono.
    destruct (Reqb v1 y1) eqn:Hq1; destruct (Reqb v2 y2); try lia;
      specialize (Hhit1 v1 eq_refl Hq1); lia.
Qed.

Lemma StronglySorted_lookup (l : list R) :
  StronglySorted Rle l ->
  forall (i j : nat) (vi vj : R),
    (i <= j)%nat -> l !! i = Some vi -> l !! j = Some vj -> vi <= vj.
Proof.
  induction 1 as [| a l Hss IH Hall]; intros i j vi vj Hij Hi Hj.
  - rewrite lookup_nil in Hi. discriminate.
  - destruct i as [| i]; destruct j as [| j]; simpl in Hi, Hj.
    + injection Hi as <-. injection Hj as <-. lra.
    + injection Hi as <-.
      apply (proj1 (Forall_forall _ _) Hall). eapply list_elem_of_lookup_2. exact Hj.
    + exfalso. lia.
    + apply (IH i j vi vj); [lia | exact Hi | exact Hj].
Qed.

Lemma Sorted_nondecreasing (l : list R) : Sorted Rle l -> nondecreasing l.
Proof.
  intros Hs. apply Sorted_StronglySorted in Hs.
  - intros i j vi vj Hij Hi Hj. unfold lookupZ in Hi, Hj.
    destruct (Z.ltb_spec i 0); [discriminate |].
    destruct (Z.ltb_spec j 0); [discriminate |].
    eapply (StronglySorted_lookup l Hs (Z.to_nat i) (Z.to_nat j)); eauto. lia.
  - intros a b c Hab Hbc. lra.
Qed.

Lemma statics_of_length cfg :
  (0 <= padRows (S_tpcPadPlanes cfg) + 1)%Z ->
  Z.of_nat (length (Radii (statics_of cfg))) = (Nrows (statics_of cfg) + 1)%Z.
Proof. intros Hrows. simpl. rewrite length_build_Radii. lia. Qed.

Lemma YToRow_ok ct st y sector :
  (0 <= padRows (S_tpcPadPlanes (cfg_ ct)) + 1)%Z -> statics_ok (cfg_ ct) st ->
  YToRow ct st y sector =
  r ← search_row (statics_of (cfg_ ct)) y; Some (r, statics_of (cfg_ ct)).
Proof.
  intros Hrows Hok. rewrite YToRow_unfold, refresh_statics_ok by assumption.
  reflexivity.
Qed.

Lemma refresh_statics_reachable cfg st :
  (1 <= padRows (S_tpcPadPlanes cfg))%Z -> statics_reachable st ->
  exists st', refresh_statics cfg st = Some st'
              /\ Nrows st' = padRows (S_tpcPadPlanes cfg)
              /\ Z.of_nat (length (Radii st')) = (Nrows st' + 1)%Z.
Proof.
  intros Hrows Hreach. unfold refresh_statics.
  destruct (Z.eqb_spec (Nrows st) (padRows (S_tpcPadPlanes cfg))) as [Heq | Hne].
  - exists st. split; [reflexivity |]. split; [exact Heq |].
    destruct Hreach as [-> | Hlen]; [simpl in Heq; lia | exact Hlen].
  - destruct (Z.ltb_spec (padRows (S_tpcPadPlanes cfg) + 1) 0); [lia |].
    eexists. split; [reflexivity |]. split; [reflexivity |].
    simpl. rewrite length_build_Radii. lia.
Qed.

(** C6. With at least one row configured, [YToRow] returns a row in
    [1, padRows] for every [y], from every state that its statics can be
    in.  When the boundary table of the configuration is sorted and the
    statics hold no table of another configuration, [y1 < y2] implies
    [YToRow y1 s <= YToRow y2 s], for all [y1] and [y2]. *)
Theorem YToRow_range_and_monotone (ct : CoordTransform) :
  (1 <= padRows (S_tpcPadPlanes (cfg_ ct)))%Z ->
  (forall st y sector, statics_reachable st ->
     exists row st', YToRow ct st y sector = Some (row, st')
                     /\ statics_reachable st'
                     /\ (1 <= row <= padRows (S_tpcPadPlanes (cfg_ ct)))%Z)
  /\ (Sorted Rle (build_Radii (cfg_ ct) (padRows (S_tpcPadPlanes (cfg_ ct)))) ->
      forall st1 st2 y1 y2 sector row1 row2 st1' st2',
        statics_ok (cfg_ ct) st1 -> statics_ok (cfg_ ct) st2 ->
        y1 < y2 ->
        YToRow ct st1 y1 sector = Some (row1, st1') ->
        YToRow ct st2 y2 sector = Some (row2, st2') ->
        (row1 <= row2)%Z).
Proof.
  intros Hrows. split.
  - intros st y sector Hreach. rewrite YToRow_unfold.
    destruct (refresh_statics_reachable (cfg_ ct) st Hrows Hreach)
      as (st' & Href & Hn & Hlen).
    rewrite Href. cbn [mbind option_bind].
    destruct (search_row_range st' y) as (r & Hr & Hrange); [lia | exact Hlen |].
    rewrite Hr. cbn [mbind option_bind]. exists r, st'.
    split; [reflexivity |]. split; [right; exact Hlen | lia].
  - intros Hsorted st1 st2 y1 y2 sector row1 row2 st1' st2' Hok1 Hok2 Hy.
    rewrite !YToRow_ok by (assumption || lia).
    destruct (search_row (statics_of (cfg_ ct)) y1) as [r1 |] eqn:H1;
      [simpl | discriminate].
    destruct (search_row (statics_of (cfg_ ct)) y2) as [r2 |] eqn:H2;
      [simpl | discriminate].
    intros E1 E2. injection E1 as <- _. injection E2 as <- _.
    eapply (search_row_mono (statics_of (cfg_ ct)) y1 y2); eauto.
    + apply statics_of_length. lia.
    + apply Sorted_nondecreasing. exact Hsorted.
Qed.

(** C10. The sector argument of [YToRow] has no influence on its result:
    two calls that differ in the sector only agree, whether they start
    from the same statics or follow one another. *)
Theorem YToRow_sector_independent (ct : CoordTransform) (st : YToRowStatics)
    (y : R) (s1 s2 : Z) :
  YToRow ct st y s1 = YToRow ct st y s2
  /\ match YToRow ct st y s1 with
     | Some (row, st') => YToRow ct st' y s2 = Some (row, st')
     | None => YToRow ct st y s2 = None
     end.
Proof.
  split; [reflexivity |].
  rewrite !YToRow_unfold.
  destruct (refresh_statics (cfg_ ct) st) as [st' |] eqn:Href; [simpl | reflexivity].
  destruct (search_row st' y) as [r |] eqn:Hr; [simpl | reflexivity].
  rewrite YToRow_unfold.
  assert (Hre : refresh_statics (cfg_ ct) st' = Some st').
  { unfold refresh_statics.
    rewrite (refresh_statics_Nrows _ _ _ Href), Z.eqb_refl. reflexivity. }
  rewrite Hre. simpl. rewrite Hr. reflexivity.
Qed.

(** Rows at nondecreasing nominal radii, two rows at least, give a
    sorted boundary table. *)
Lemma Sorted_map_Zrange (f : Z -> R) (n : nat) :
  forall lo hi, Z.to_nat (hi - lo) = n ->
    (forall i, (lo <= i)%Z -> (i + 1 < hi)%Z -> f i <= f (i + 1)%Z) ->
    Sorted Rle (map f (Zrange lo hi)).
Proof.
  induction n as [| n IH]; intros lo hi Hn Hstep.
  - rewrite Zrange_nil by lia. constructor.
  - rewrite Zrange_cons by lia. simpl. constructor.
    + apply IH; [lia |]. intros i Hlo Hhi. apply Hstep; lia.
    + destruct n as [| n].
      * rewrite Zrange_nil by lia. constructor.
      * rewrite Zrange_cons by lia. simpl. constructor. apply Hstep; lia.
Qed.

Lemma build_Radii_sorted cfg :
  (2 <= padRows (S_tpcPadPlanes cfg))%Z ->
  (forall i, (1 <= i < padRows (S_tpcPadPlanes cfg))%Z ->
     RadialDistanceAtRow i cfg <= RadialDistanceAtRow (i + 1) cfg) ->
  Sorted Rle (build_Radii cfg (padRows (S_tpcPadPlanes cfg))).
Proof.
  intros Hrows Hradii. unfold build_Radii.
  apply (Sorted_map_Zrange _ (Z.to_nat (padRows (S_tpcPadPlanes cfg) + 1)));
    [lia |].
  intros i Hlo Hhi. unfold row_boundary.
  set (N := padRows (S_tpcPadPlanes cfg)) in *.
  destruct (Z.eqb_spec i 1) as [-> | Hi1].
  - destruct (Z.eqb_spec (1 + 1) 1); [lia |].
    destruct (Z.eqb_spec (1 + 1) (N + 1)); [lia |].
    replace (1 + 1 - 1)%Z with 1%Z by lia.
    pose proof (Hradii 1%Z ltac:(lia)). lra.
  - destruct (Z.eqb_spec i (N + 1)); [lia |].
    destruct (Z.eqb_spec (i + 1) 1); [lia |].
    replace (i + 1 - 1)%Z with i by lia.
    pose proof (Hradii (i - 1)%Z ltac:(lia)) as H1.
    replace (i - 1 + 1)%Z with i in H1 by lia.
    destruct (Z.eqb_spec (i + 1) (N + 1)) as [Hlast | Hmid].
    + replace (i + 1 - 2)%Z with (i - 1)%Z by lia. lra.
    + pose proof (Hradii i ltac:(lia)). lra.
Qed.

(** ** Properties of the sector transform cache *)

Lemma orthonormal_identity : orthonormal rot_identity.
Proof. unfold orthonormal; simpl; repeat split; ring. Qed.

Lemma orthonormal_mul (a b : Rotation) :
  orthonormal a -> orthonormal b -> orthonormal (rot_mul a b).
Proof.
  destruct a as [a0 a1 a2 a3 a4 a5 a6 a7 a8].
  destruct b as [b0 b1 b2 b3 b4 b5 b6 b7 b8].
  unfold orthonormal; simpl.
  intros (A1 & A2 & A3 & A4 & A5 & A6) (B1 & B2 & B3 & B4 & B5 & B6).
  repeat split; nsatz.
Qed.

Lemma rigid_identity : rigid hm_identity.
Proof. exact orthonormal_identity. Qed.

Lemma rigid_mul (a b : TGeoHMatrix) : rigid a -> rigid b -> rigid (a ** b)%hm.
Proof. unfold rigid; simpl. apply orthonormal_mul. Qed.

Lemma rigid_flip : rigid flip_matrix.
Proof. unfold rigid, orthonormal; simpl; repeat split; ring. Qed.

Lemma rigid_translation dx dy dz : rigid (TGeoTranslation dx dy dz).
Proof. exact orthonormal_identity. Qed.

Lemma rigid_SetTranslation m t : rigid m -> rigid (SetTranslation m t).
Proof. intros H; exact H. Qed.

Lemma rigid_RotateX m angle : rigid m -> rigid (RotateX m angle).
Proof.
  destruct m as [t [a0 a1 a2 a3 a4 a5 a6 a7 a8]].
  unfold rigid, orthonormal, RotateX; simpl.
  pose proof (sin2_cos2 (angle * DegToRad)) as Hsc. unfold Rsqr in Hsc.
  set (c := cos (angle * DegToRad)) in *. set (s := sin (angle * DegToRad)) in *.
  intros (A1 & A2 & A3 & A4 & A5 & A6).
  repeat split; nsatz.
Qed.

Lemma rigid_RotateY m angle : rigid m -> rigid (RotateY m angle).
Proof.
  destruct m as [t [a0 a1 a2 a3 a4 a5 a6 a7 a8]].
  unfold rigid, orthonormal, RotateY; simpl.
  pose proof (sin2_cos2 (angle * DegToRad)) as Hsc. unfold Rsqr in Hsc.
  set (c := cos (angle * DegToRad)) in *. set (s := sin (angle * DegToRad)) in *.
  intros (A1 & A2 & A3 & A4 & A5 & A6).
  repeat split; nsatz.
Qed.

Lemma rigid_RotateZ m angle : rigid m -> rigid (RotateZ m angle).
Proof.
  destruct m as [t [a0 a1 a2 a3 a4 a5 a6 a7 a8]].
  unfold rigid, orthonormal, RotateZ; simpl.
  pose proof (sin2_cos2 (angle * DegToRad)) as Hsc. unfold Rsqr in Hsc.
  set (c := cos (angle * DegToRad)) in *. set (s := sin (angle * DegToRad)) in *.
  intros (A1 & A2 & A3 & A4 & A5 & A6).
  repeat split; nsatz.
Qed.

Lemma SetAngles_flip : SetAngles 90 0 90 (-90) 180 0 = flip_y_z.
Proof.
  unfold SetAngles, flip_y_z, DegToRad.
  replace (90 * (PI / 180)) with (PI / 2) by field.
  replace (0 * (PI / 180)) with 0 by field.
  replace (-90 * (PI / 180)) with (- (PI / 2)) by field.
  replace (180 * (PI / 180)) with PI by field.
  rewrite cos_neg, sin_neg, cos_PI2, sin_PI2, cos_0, sin_0, cos_PI, sin_PI.
  f_equal. f_equal; ring.
Qed.

Lemma rigid_flip_y_z : rigid flip_y_z.
Proof. unfold rigid, orthonormal; simpl; repeat split; ring. Qed.

(** The block "Normalize" leaves a rigid transform as it is. *)
Lemma normalize_rigid (m : TGeoHMatrix) : rigid m -> normalize m = m.
Proof.
  destruct m as [tr [a0 a1 a2 a3 a4 a5 a6 a7 a8]].
  unfold rigid, orthonormal, normalize; simpl.
  intros (A1 & A2 & A3 & A4 & A5 & A6).
  unfold Mag; simpl. rewrite A1, A3, sqrt_1.
  replace (1 / 1) with 1 by field.
  unfold vscale, Cross, Dot; simpl. rewrite !Rmult_1_l.
  set (c0 := a3 * a8 - a5 * a6). set (c1 := a6 * a2 - a8 * a0).
  set (c2 := a0 * a5 - a2 * a3).
  set (e := c0 * a1 + c1 * a4 + c2 * a7).
  assert (E0 : a1 = e * c0) by (subst e c0 c1 c2; nsatz).
  assert (E1 : a4 = e * c1) by (subst e c0 c1 c2; nsatz).
  assert (E2 : a7 = e * c2) by (subst e c0 c1 c2; nsatz).
  assert (Ee : e * e = 1) by (subst e c0 c1 c2; nsatz).
  unfold SetRotation; simpl. f_equal.
  destruct (Rlt_dec e 0) as [Hneg | Hpos]; simpl.
  - assert (e = -1) by nra.
    f_equal; nra.
  - assert (e = 1) by nra.
    f_equal; nra.
Qed.

Lemma storeZ_Some {A : Type} (l : list A) (i : Z) (v : A) :
  (0 <= i < Z.of_nat (length l))%Z ->
  storeZ l i v = Some (<[Z.to_nat i := v]> l).
Proof.
  intros Hi. unfold storeZ.
  destruct (Z.leb_spec 0 i); [| lia].
  destruct (Z.ltb_spec i (Z.of_nat (length l))); [reflexivity | lia].
Qed.

Lemma storeZ_inv {A : Type} (l l' : list A) (i : Z) (v : A) :
  storeZ l i v = Some l' ->
  length l' = length l
  /\ lookupZ l' i = Some v
  /\ (forall j, j <> i -> lookupZ l' j = lookupZ l j).
Proof.
  unfold storeZ.
  destruct (Z.leb_spec 0 i); [| discriminate].
  destruct (Z.ltb_spec i (Z.of_nat (length l))); [| discriminate].
  simpl. intros Hl. injection Hl as <-. split; [apply length_insert |]. split.
  - unfold lookupZ. destruct (Z.ltb_spec i 0); [lia |].
    apply list_lookup_insert_eq. lia.
  - intros j Hj. unfold lookupZ. destruct (Z.ltb_spec j 0); [reflexivity |].
    apply list_lookup_insert_ne. lia.
Qed.

Lemma same_calibration_refl ct : same_calibration ct ct.
Proof. repeat split. Qed.

Lemma same_calibration_trans a b c :
  same_calibration a b -> same_calibration b c -> same_calibration a c.
Proof.
  unfold same_calibration. intros (? & ? & ? & ?) (? & ? & ? & ?).
  repeat split; congruence.
Qed.

Lemma rotation_step_calibration sector ct k ct' :
  rotation_step sector ct k = Some ct' -> same_calibration ct ct'.
Proof.
  unfold rotation_step.
  destruct (if (sector =? 0)%Z then _ else _) as [rotA |]; [simpl | discriminate].
  destruct (sector =? 0)%Z.
  - intros H. injection H as <-. repeat split.
  - destruct (storeZ _ _ _) as [v |]; [simpl | discriminate].
    intros H. injection H as <-. repeat split.
Qed.

Lemma for_each_preserves {S A : Type} (body : S -> A -> option S)
    (rel : S -> S -> Prop) :
  (forall s, rel s s) ->
  (forall a b c, rel a b -> rel b c -> rel a c) ->
  (forall s a s', body s a = Some s' -> rel s s') ->
  forall l s s', for_each body l s = Some s' -> rel s s'.
Proof.
  intros Hrefl Htrans Hbody. induction l as [| a l IH]; intros s s' Hrun.
  - simpl in Hrun. injection Hrun as <-. apply Hrefl.
  - simpl in Hrun. destruct (body s a) as [s1 |] eqn:H1; [simpl in Hrun | discriminate].
    eapply Htrans; [eapply Hbody; exact H1 | apply IH; exact Hrun].
Qed.

Lemma sector_step_calibration ct sector ct' :
  sector_step ct sector = Some ct' -> same_calibration ct ct'.
Proof.
  unfold sector_step.
  apply (for_each_preserves (rotation_step sector) same_calibration).
  - apply same_calibration_refl.
  - apply same_calibration_trans.
  - intros s a s'. apply rotation_step_calibration.
Qed.

Lemma SetTpcRotations_calibration ct ct' :
  SetTpcRotations ct = Some ct' -> same_calibration ct ct'.
Proof.
  unfold SetTpcRotations.
  apply (for_each_preserves sector_step same_calibration).
  - apply same_calibration_refl.
  - apply same_calibration_trans.
  - intros s a s'. apply sector_step_calibration.
Qed.

(** What the constructor copies from the configuration. *)
Lemma new_CoordTransform_calibration cfg ct :
  new_CoordTransform cfg = Some ct ->
  cfg_ ct = cfg
  /\ timebin_width_ ct = 1e6 / frequency (S_starClockOnl cfg)
  /\ z_inner_offset_ ct = z_inner_offset (S_tpcEffectiveGeom cfg)
  /\ z_outer_offset_ ct = z_outer_offset (S_tpcEffectiveGeom cfg).
Proof.
  unfold new_CoordTransform. intros H.
  apply SetTpcRotations_calibration in H. exact H.
Qed.

Lemma rigid_supersector_to_tpc cfg sector :
  calibration_rigid cfg -> rigid (supersector_to_tpc cfg sector).
Proof.
  intros Hcal. unfold supersector_to_tpc.
  destruct (sector >? 12)%Z.
  - apply rigid_mul; [| apply Hcal].
    apply rigid_mul; [apply rigid_translation |].
    apply rigid_RotateZ. rewrite SetAngles_flip. apply rigid_flip_y_z.
  - apply rigid_mul; [| apply Hcal].
    apply rigid_mul; [apply rigid_translation |].
    apply rigid_RotateZ. apply rigid_identity.
Qed.

Lemma rigid_stage_product cfg g sector k :
  calibration_rigid cfg -> rigid g -> rigid (stage_product cfg g sector k).
Proof.
  intros Hcal Hg. unfold stage_product.
  pose proof (rigid_supersector_to_tpc cfg sector Hcal) as Hs.
  pose proof rigid_flip as Hf.
  pose proof (proj2 (Hcal (sector - 1)%Z)) as Ho.
  repeat match goal with
         | |- context [if ?b then _ else _] => destruct b
         end;
    repeat (apply rigid_mul); assumption.
Qed.

Lemma stage_matrix_filled ct sector k :
  (0 <= k < kTotalTpcSectorRotaions)%Z -> stages_filled ct sector k ->
  stage_matrix ct sector k
  = Some (stage_product (cfg_ ct) (tpc2global_ ct) sector k).
Proof.
  intros Hk Hfilled. unfold kTotalTpcSectorRotaions in Hk.
  assert (Hget : forall j, (0 <= j < k)%Z ->
            sector_rotation ct sector j
            = Some (stage_product (cfg_ ct) (tpc2global_ ct) sector j))
    by exact Hfilled.
  stage_cases k Hc; subst k;
    unfold stage_matrix, SupS2Tpc, SupS2Glob, SubSInner2SupS, SubSOuter2SupS,
      SubSInner2Tpc, SubSOuter2Tpc, SubSInner2Glob, SubSOuter2Glob,
      PadInner2SupS, PadOuter2SupS, PadInner2Tpc, PadOuter2Tpc,
      PadInner2Glob, PadOuter2Glob;
    cbn [Z.eqb kSupS2Tpc kSupS2Glob kSubSInner2SupS kSubSOuter2SupS
         kSubSInner2Tpc kSubSOuter2Tpc kSubSInner2Glob kSubSOuter2Glob
         kPadInner2SupS kPadOuter2SupS kPadInner2Tpc kPadOuter2Tpc
         kPadInner2Glob kPadOuter2Glob Pos.eqb];
    rewrite ?(Hget kSupS2Tpc), ?(Hget kSubSInner2SupS), ?(Hget kSubSOuter2SupS),
      ?(Hget kSubSInner2Tpc), ?(Hget kSubSOuter2Tpc),
      ?(Hget kPadInner2SupS), ?(Hget kPadOuter2SupS),
      ?(Hget kPadInner2Tpc), ?(Hget kPadOuter2Tpc)
      by (unfold kSupS2Tpc, kSubSInner2SupS, kSubSOuter2SupS, kSubSInner2Tpc,
          kSubSOuter2Tpc, kPadInner2SupS, kPadOuter2SupS, kPadInner2Tpc,
          kPadOuter2Tpc; lia);
    reflexivity.
Qed.

Lemma slot_bounds sector k :
  (1 <= sector <= 24)%Z -> (0 <= k < kTotalTpcSectorRotaions)%Z ->
  (0 <= slot sector k < Z.of_nat cache_size)%Z.
Proof.
  unfold slot, cache_size, kTotalTpcSectorRotaions. lia.
Qed.

Lemma rotation_step_spec ct sector k :
  calibration_rigid (cfg_ ct) -> cache_wf ct ->
  (1 <= sector <= 24)%Z -> (0 <= k < kTotalTpcSectorRotaions)%Z ->
  stages_filled ct sector k ->
  exists ct', rotation_step sector ct k = Some ct'
              /\ writes_only ct ct' sector k
              /\ stages_filled ct' sector (k + 1).
Proof.
  intros Hcal [Hlen Hg] Hs Hk Hfilled.
  unfold rotation_step.
  destruct (Z.eqb_spec sector 0) as [| _]; [lia |].
  rewrite (stage_matrix_filled ct sector k Hk Hfilled). simpl.
  rewrite (normalize_rigid _ (rigid_stage_product _ _ sector k Hcal Hg)).
  pose proof (slot_bounds sector k Hs Hk) as Hslot.
  rewrite storeZ_Some by (rewrite Hlen; exact Hslot). simpl.
  eexists. split; [reflexivity |].
  destruct (storeZ_inv (sector_rotations_ ct) _ (slot sector k)
              (stage_product (cfg_ ct) (tpc2global_ ct) sector k)
              (storeZ_Some _ _ _ ltac:(rewrite Hlen; exact Hslot)))
    as (Hlen' & Hnew & Hold).
  split.
  - split; [repeat split |]. split; [reflexivity |].
    split; [exact Hlen' |].
    intros i Hi. simpl. apply Hold. unfold slot in *. lia.
  - intros j Hj. unfold sector_rotation; simpl.
    destruct (Z.eq_dec j k) as [-> | Hne].
    + exact Hnew.
    + rewrite Hold by (unfold slot; lia). apply Hfilled. lia.
Qed.

Lemma writes_only_trans a b c sector k :
  writes_only a b sector k -> writes_only b c sector (k + 1) ->
  writes_only a c sector k.
Proof.
  intros (Hc1 & Hg1 & Hl1 & Hi1) (Hc2 & Hg2 & Hl2 & Hi2).
  split; [eapply same_calibration_trans; eassumption |].
  split; [congruence |]. split; [congruence |].
  intros i Hi. rewrite Hi2, Hi1; [reflexivity | exact Hi |].
  unfold slot in *. lia.
Qed.

Lemma writes_only_wf ct ct' sector k :
  writes_only ct ct' sector k -> cache_wf ct -> cache_wf ct'.
Proof.
  intros (_ & Hg & Hl & _) [Hlen Hrigid]. split; congruence.
Qed.

Lemma writes_only_cfg ct ct' sector k :
  writes_only ct ct' sector k -> cfg_ ct' = cfg_ ct.
Proof. intros ((H & _) & _). exact H. Qed.

(** The inner loop from stage [k] on. *)
Lemma stage_loop_spec sector (n : nat) :
  forall ct k,
    calibration_rigid (cfg_ ct) -> cache_wf ct ->
    (1 <= sector <= 24)%Z -> (0 <= k)%Z ->
    (k + Z.of_nat n = kTotalTpcSectorRotaions)%Z ->
    stages_filled ct sector k ->
    exists ct', for_each (rotation_step sector)
                  (Zrange k kTotalTpcSectorRotaions) ct = Some ct'
                /\ (n = 0%nat -> ct' = ct)
                /\ (n <> 0%nat -> writes_only ct ct' sector k)
                /\ stages_filled ct' sector kTotalTpcSectorRotaions.
Proof.
  induction n as [| n IH]; intros ct k Hcal Hwf Hs Hk0 Hkn Hfilled.
  - rewrite Zrange_nil by lia. simpl. exists ct.
    split; [reflexivity |]. split; [reflexivity |]. split; [congruence |].
    replace kTotalTpcSectorRotaions with k by lia. exact Hfilled.
  - rewrite Zrange_cons by lia. simpl.
    destruct (rotation_step_spec ct sector k Hcal Hwf Hs ltac:(lia) Hfilled)
      as (ct1 & Hstep & Hw1 & Hf1).
    rewrite Hstep. simpl.
    assert (Hcal1 : calibration_rigid (cfg_ ct1))
      by (rewrite (writes_only_cfg _ _ _ _ Hw1); exact Hcal).
    destruct (IH ct1 (k + 1)%Z Hcal1 (writes_only_wf _ _ _ _ Hw1 Hwf) Hs
                ltac:(lia) ltac:(lia) Hf1) as (ct' & Hrun & Hzero & Hw2 & Hf2).
    exists ct'. split; [exact Hrun |]. split; [discriminate |].
    split; [| exact Hf2]. intros _.
    destruct n as [| n].
    + rewrite (Hzero eq_refl). exact Hw1.
    + eapply writes_only_trans; [exact Hw1 | apply Hw2; discriminate].
Qed.

Lemma stages_of_sector sector :
  sector <> 0%Z -> stages_of sector = Zrange kSupS2Tpc kTotalTpcSectorRotaions.
Proof.
  intros Hs. unfold stages_of. destruct (Z.eqb_spec sector 0); [contradiction |].
  reflexivity.
Qed.

Lemma sector_step_spec ct sector :
  calibration_rigid (cfg_ ct) -> cache_wf ct -> (1 <= sector <= 24)%Z ->
  exists ct', sector_step ct sector = Some ct'
              /\ writes_only ct ct' sector 0
              /\ stages_filled ct' sector kTotalTpcSectorRotaions.
Proof.
  intros Hcal Hwf Hs. unfold sector_step. rewrite stages_of_sector by lia.
  destruct (stage_loop_spec sector 14 ct 0 Hcal Hwf Hs ltac:(lia) eq_refl)
    as (ct' & Hrun & _ & Hw & Hf).
  - intros j Hj. lia.
  - exists ct'. split; [exact Hrun |]. split; [apply Hw; discriminate | exact Hf].
Qed.

Lemma rigid_tpc_reference_system cfg : rigid (tpc_reference_system cfg).
Proof.
  unfold tpc_reference_system. apply rigid_SetTranslation.
  apply rigid_RotateZ, rigid_RotateY, rigid_RotateX, rigid_identity.
Qed.

(** The iterations for sector 0 store the TPC reference system, however
    many they are. *)
Lemma reference_loop_spec (l : list Z) :
  forall ct, exists ct',
    for_each (rotation_step 0) l ct = Some ct'
    /\ same_calibration ct ct'
    /\ sector_rotations_ ct' = sector_rotations_ ct
    /\ (tpc2global_ ct' = tpc2global_ ct
        \/ tpc2global_ ct' = tpc_reference_system (cfg_ ct)).
Proof.
  induction l as [| k l IH]; intros ct.
  - exists ct. simpl. split; [reflexivity |].
    split; [apply same_calibration_refl |]. split; [reflexivity | left; reflexivity].
  - simpl. unfold rotation_step at 1. simpl.
    rewrite (normalize_rigid _ (rigid_tpc_reference_system (cfg_ ct))).
    destruct (IH (set_tpc2global ct (tpc_reference_system (cfg_ ct))))
      as (ct' & Hrun & Hcal & Hrot & Hg).
    exists ct'. split; [exact Hrun |].
    split; [exact Hcal |]. split; [exact Hrot |].
    right. destruct Hg as [Hg | Hg]; exact Hg.
Qed.

Lemma sector_loop_spec (n : nat) :
  forall ct sector,
    calibration_rigid (cfg_ ct) -> cache_wf ct ->
    (1 <= sector)%Z -> (sector + Z.of_nat n = 25)%Z ->
    sectors_filled ct sector ->
    exists ct', for_each sector_step (Zrange sector 25) ct = Some ct'
                /\ same_calibration ct ct'
                /\ tpc2global_ ct' = tpc2global_ ct
                /\ cache_wf ct'
                /\ sectors_filled ct' 25.
Proof.
  induction n as [| n IH]; intros ct sector Hcal Hwf Hs Hn Hfilled.
  - rewrite Zrange_nil by lia. simpl. exists ct.
    split; [reflexivity |]. split; [apply same_calibration_refl |].
    split; [reflexivity |]. split; [exact Hwf |].
    replace 25%Z with sector by lia. exact Hfilled.
  - rewrite Zrange_cons by lia. simpl.
    destruct (sector_step_spec ct sector Hcal Hwf ltac:(lia)) as (ct1 & Hstep & Hw & Hf).
    rewrite Hstep. simpl.
    pose proof (writes_only_cfg _ _ _ _ Hw) as Hcfg.
    destruct Hw as (Hc1 & Hg1 & Hl1 & Hi1).
    assert (Hwf1 : cache_wf ct1) by (destruct Hwf; split; congruence).
    destruct (IH ct1 (sector + 1)%Z) as (ct' & Hrun & Hc2 & Hg2 & Hwf2 & Hf2);
      try lia; try assumption.
    + rewrite Hcfg. exact Hcal.
    + intros s Hs' j Hj.
      destruct (Z.eq_dec s sector) as [-> | Hne]; [apply Hf; exact Hj |].
      unfold sector_rotation. rewrite Hi1, Hcfg, Hg1.
      * apply Hfilled; [lia | exact Hj].
      * unfold slot, kTotalTpcSectorRotaions in *. lia.
    + exists ct'. split; [exact Hrun |].
      split; [eapply same_calibration_trans; eassumption |].
      split; [congruence |]. split; assumption.
Qed.

(** The constructor succeeds, and leaves every slot of the cache with the
    documented product of its stage. *)
Lemma new_CoordTransform_spec cfg :
  calibration_rigid cfg ->
  exists ct, new_CoordTransform cfg = Some ct
             /\ cfg_ ct = cfg
             /\ cache_wf ct
             /\ sectors_filled ct 25.
Proof.
  intros Hcal. unfold new_CoordTransform, SetTpcRotations.
  set (ct0 := mkCoordTransform _ _ _ _ _ _).
  rewrite Zrange_cons by lia.
  change (for_each sector_step (0%Z :: Zrange (0 + 1) 25) ct0)
    with (ct1 ← for_each (rotation_step 0) (stages_of 0) ct0;
          for_each sector_step (Zrange 1 25) ct1).
  destruct (reference_loop_spec (stages_of 0) ct0) as (ct1 & Hrun & Hc1 & Hrot & Hg).
  rewrite Hrun. cbn [mbind option_bind].
  assert (Hcfg1 : cfg_ ct1 = cfg) by (destruct Hc1 as (H & _); exact H).
  assert (Hwf1 : cache_wf ct1).
  { split.
    - rewrite Hrot. cbn [sector_rotations_]. apply length_replicate.
    - destruct Hg as [-> | ->].
      + apply rigid_identity.
      + apply rigid_tpc_reference_system. }
  destruct (sector_loop_spec 24 ct1 1) as (ct & Hloop & Hc & Hg' & Hwf & Hf);
    try lia; try assumption.
  - rewrite Hcfg1. exact Hcal.
  - intros s Hs. lia.
  - exists ct. split; [exact Hloop |].
    split; [destruct Hc as (H & _); congruence |]. split; assumption.
Qed.

Lemma hm_ext (x y z a0 a1 a2 a3 a4 a5 a6 a7 a8
               x' y' z' b0 b1 b2 b3 b4 b5 b6 b7 b8 : R) :
  x = x' -> y = y' -> z = z' ->
  a0 = b0 -> a1 = b1 -> a2 = b2 -> a3 = b3 -> a4 = b4 -> a5 = b5 ->
  a6 = b6 -> a7 = b7 -> a8 = b8 ->
  mkHMatrix (mkVec x y z) (mkRot a0 a1 a2 a3 a4 a5 a6 a7 a8)
  = mkHMatrix (mkVec x' y' z') (mkRot b0 b1 b2 b3 b4 b5 b6 b7 b8).
Proof. intros. subst. reflexivity. Qed.

Lemma hm_mul_assoc (a b c : TGeoHMatrix) : ((a ** b) ** c = a ** (b ** c))%hm.
Proof.
  destruct a as [[ax ay az] [a0 a1 a2 a3 a4 a5 a6 a7 a8]].
  destruct b as [[bx by_ bz] [b0 b1 b2 b3 b4 b5 b6 b7 b8]].
  destruct c as [[cx cy cz] [c0 c1 c2 c3 c4 c5 c6 c7 c8]].
  unfold hm_mul, rot_mul, rot_apply, vadd; simpl.
  apply hm_ext; ring.
Qed.

(** The construction visits the slots of the cache in increasing order,
    each of them once. *)
Lemma write_schedule_once :
  write_schedule = Zrange 0 (12 * 2 * kTotalTpcSectorRotaions).
Proof. vm_compute. reflexivity. Qed.

Lemma filled_stage ct sector k :
  sectors_filled ct 25 -> (1 <= sector <= 24)%Z ->
  (0 <= k < kTotalTpcSectorRotaions)%Z ->
  sector_rotation ct sector k
  = Some (stage_product (cfg_ ct) (tpc2global_ ct) sector k).
Proof. intros Hf Hs Hk. apply (Hf sector); lia. Qed.

(** C4. With rigid calibration matrices the constructor succeeds, and
    for every sector 1..24 the cached composite stages are the products
    of the cached stages they are made of: SubS[io] to Tpc, SupS to Glob,
    SubS[io] to Glob (also as the product of three) and Pad[io] to Tpc.
    Every slot of the cache is written once during the construction. *)
Theorem cached_stage_algebra (cfg : Configurator) :
  calibration_rigid cfg ->
  exists ct, new_CoordTransform cfg = Some ct
  /\ write_schedule = Zrange 0 (12 * 2 * kTotalTpcSectorRotaions)
  /\ forall sector, (1 <= sector <= 24)%Z ->
     exists supS2Tpc supS2Glob subSInner2SupS subSOuter2SupS
            subSInner2Tpc subSOuter2Tpc subSInner2Glob subSOuter2Glob
            padInner2SupS padOuter2SupS padInner2Tpc padOuter2Tpc,
       SupS2Tpc ct sector = Some supS2Tpc
       /\ SupS2Glob ct sector = Some supS2Glob
       /\ SubSInner2SupS ct sector = Some subSInner2SupS
       /\ SubSOuter2SupS ct sector = Some subSOuter2SupS
       /\ SubSInner2Tpc ct sector = Some subSInner2Tpc
       /\ SubSOuter2Tpc ct sector = Some subSOuter2Tpc
       /\ SubSInner2Glob ct sector = Some subSInner2Glob
       /\ SubSOuter2Glob ct sector = Some subSOuter2Glob
       /\ PadInner2SupS ct sector = Some padInner2SupS
       /\ PadOuter2SupS ct sector = Some padOuter2SupS
       /\ PadInner2Tpc ct sector = Some padInner2Tpc
       /\ PadOuter2Tpc ct sector = Some padOuter2Tpc
       /\ (subSInner2Tpc = supS2Tpc ** subSInner2SupS)%hm
       /\ (subSOuter2Tpc = supS2Tpc ** subSOuter2SupS)%hm
       /\ (supS2Glob = tpc2global_ ct ** supS2Tpc)%hm
       /\ (subSInner2Glob = tpc2global_ ct ** subSInner2Tpc)%hm
       /\ (subSInner2Glob = tpc2global_ ct ** supS2Tpc ** subSInner2SupS)%hm
       /\ (subSOuter2Glob = tpc2global_ ct ** subSOuter2Tpc)%hm
       /\ (padInner2Tpc = supS2Tpc ** padInner2SupS)%hm
       /\ (padOuter2Tpc = supS2Tpc ** padOuter2SupS)%hm.
Proof.
  intros Hcal.
  destruct (new_CoordTransform_spec cfg Hcal) as (ct & Hnew & Hcfg & Hwf & Hf).
  exists ct. split; [exact Hnew |]. split; [exact write_schedule_once |].
  intros sector Hs.
  pose proof (fun k Hk => filled_stage ct sector k Hf Hs Hk) as Hget.
  unfold kTotalTpcSectorRotaions in Hget.
  do 12 eexists.
  unfold SupS2Tpc, SupS2Glob, SubSInner2SupS, SubSOuter2SupS, SubSInner2Tpc,
    SubSOuter2Tpc, SubSInner2Glob, SubSOuter2Glob, PadInner2SupS, PadOuter2SupS,
    PadInner2Tpc, PadOuter2Tpc.
  repeat match goal with
         | |- sector_rotation ct sector ?k = Some _ /\ _ =>
             split; [apply (Hget k); vm_compute; split; [discriminate | reflexivity] |]
         end.
  unfold stage_product; simpl.
  repeat split; try reflexivity.
  symmetry. apply hm_mul_assoc.
Qed.

Lemma RotateZ_identity deg : RotateZ hm_identity deg = rotation_z deg.
Proof.
  unfold RotateZ, rotation_z, hm_identity, rot_identity, DegToRad; simpl.
  replace (deg * (PI / 180)) with (deg * PI / 180) by field.
  apply hm_ext; ring.
Qed.

Lemma RotateZ_flip_y_z deg : RotateZ flip_y_z deg = (rotation_z deg ** flip_y_z)%hm.
Proof.
  unfold RotateZ, rotation_z, flip_y_z, hm_mul, DegToRad; simpl.
  replace (deg * (PI / 180)) with (deg * PI / 180) by field.
  unfold vadd, rot_apply, rot_mul; simpl.
  apply hm_ext; ring.
Qed.

(** C5. With rigid calibration matrices, the cached SupS to Tpc of a
    sector in 1..12 is the translation by the drift distance along z,
    times the rotation about z by (360 + 90 - 30 s) mod 360 degrees,
    times the alignment matrix of the sector; for a sector in 13..24 the
    translation is negated, the angle is (90 + 30 (s - 12)) mod 360 and
    the rotation is applied after the flip (x, y, z) to (x, -y, -z). *)
Theorem cached_supersector_to_tpc (cfg : Configurator) :
  calibration_rigid cfg ->
  exists ct, new_CoordTransform cfg = Some ct
  /\ (forall s, (1 <= s <= 12)%Z ->
        SupS2Tpc ct s
        = Some (TGeoTranslation 0 0 (drift_distance cfg)
                ** rotation_z (IZR ((360 + 90 - 30 * s) mod 360))
                ** StTpcSuperSectorPosition_GetMatrix cfg (s - 1))%hm)
  /\ (forall s, (13 <= s <= 24)%Z ->
        SupS2Tpc ct s
        = Some (TGeoTranslation 0 0 (- drift_distance cfg)
                ** (rotation_z (IZR ((90 + 30 * (s - 12)) mod 360)) ** flip_y_z)
                ** StTpcSuperSectorPosition_GetMatrix cfg (s - 1))%hm).
Proof.
  intros Hcal.
  destruct (new_CoordTransform_spec cfg Hcal) as (ct & Hnew & Hcfg & Hwf & Hf).
  exists ct. split; [exact Hnew |].
  split; intros s Hs; unfold SupS2Tpc;
    rewrite (filled_stage ct s kSupS2Tpc Hf ltac:(lia)
               ltac:(vm_compute; split; [discriminate | reflexivity]));
    rewrite Hcfg; unfold stage_product; simpl; unfold supersector_to_tpc;
    f_equal.
  - destruct (Z.gtb_spec s 12) as [Hgt | _]; [lia |].
    rewrite RotateZ_identity, Z.rem_mod_nonneg by lia. reflexivity.
  - destruct (Z.gtb_spec s 12) as [_ | Hle]; [| lia].
    rewrite SetAngles_flip, RotateZ_flip_y_z, Z.rem_mod_nonneg by lia.
    unfold drift_distance. do 2 f_equal. unfold TGeoTranslation. do 2 f_equal. ring.
Qed.

(** ** Round trips of the scalar conversions *)

Lemma timebin_width_nonzero cfg ct :
  new_CoordTransform cfg = Some ct ->
  frequency (S_starClockOnl cfg) <> 0 -> timebin_width_ ct <> 0.
Proof.
  intros Hnew Hf.
  destruct (new_CoordTransform_calibration cfg ct Hnew) as (_ & Hw & _).
  rewrite Hw. unfold Rdiv. apply Rmult_integral_contrapositive_currified.
  - lra.
  - apply Rinv_neq_0_compat. exact Hf.
Qed.

(** C1, as amended.  For a transform built from a configuration whose
    tables cover the configured ranges and whose clock frequency is not
    zero, every sector in 1..24 and every row in [1, padRows]:
    [XToPad (PadToX p)] is [p] for every pad [p >= 0.500001] when the pad
    pitch of the row is not zero, and [ZToTime (TimeToZ tb)] is [tb] for
    every time bucket when the drift velocity of the sector is not
    zero. *)
Theorem scalar_round_trips (cfg : Configurator) (ct : CoordTransform)
    (sector row : Z) :
  new_CoordTransform cfg = Some ct ->
  tables_cover cfg ->
  frequency (S_starClockOnl cfg) <> 0 ->
  (1 <= sector <= 24)%Z ->
  (1 <= row <= padRows (S_tpcPadPlanes cfg))%Z ->
  (forall p, pitch_of ct row <> 0 -> 0.500001 <= p ->
     XToPad ct (PadToX ct sector row p) sector row = p)
  /\ (forall tb pad, DriftVelocity sector cfg <> 0 ->
        exists z, TimeToZ ct tb sector row pad = Some z
                  /\ ZToTime ct z sector row pad = Some tb).
Proof.
  intros Hnew Hcover Hfreq Hs Hr.
  pose proof (timebin_width_nonzero cfg ct Hnew Hfreq) as Hw.
  destruct (new_CoordTransform_calibration cfg ct Hnew) as (Hcfg & _).
  split.
  - intros p Hpitch Hp. apply XToPad_PadToX; assumption.
  - intros tb pad Hv.
    destruct (TimeToZ_defined ct tb sector row pad) as [z Hz];
      try (rewrite Hcfg); try assumption; try lia.
    exists z. split; [exact Hz |].
    apply (ZToTime_TimeToZ ct tb sector row pad z); try assumption.
    rewrite Hcfg. exact Hv.
Qed.

(** ** The row used by [local_sector_to_hardware] *)

(** What the function stores: the row re-derived from [y] when the
    supplied one is out of range, the pad computed with the supplied
    row, and the time bucket computed with the stored row. *)
Lemma local_sector_to_hardware_stores ct st a pc st' :
  local_sector_to_hardware ct st a = Some (pc, st') ->
  pad_sector pc = sector a
  /\ pad pc = XToPad ct (x (position a)) (sector a) (row a)
  /\ (if ((row a <? 1)%Z || (row a >? padRows (S_tpcPadPlanes (cfg_ ct)))%Z)%bool
      then YToRow ct st (y (position a)) (sector a) = Some (pad_row pc, st')
      else pad_row pc = row a /\ st' = st)
  /\ ZToTime ct
       (z (position a)
        + (if (pad_row pc >? innerPadRows (S_tpcPadPlanes (cfg_ ct)))%Z
           then z_outer_offset_ ct else z_inner_offset_ ct))
       (sector a) (pad_row pc) (double_to_int (pad pc))
     = Some (timeBucket pc).
Proof.
  unfold local_sector_to_hardware.
  destruct ((row a <? 1)%Z || (row a >? padRows (S_tpcPadPlanes (cfg_ ct)))%Z)%bool.
  - destruct (YToRow ct st (y (position a)) (sector a)) as [[r s1] |];
      [simpl | discriminate].
    destruct (ZToTime ct _ (sector a) r _) as [tb |] eqn:Htb; [simpl | discriminate].
    intros H. injection H as <- <-. simpl. repeat split; try reflexivity. exact Htb.
  - simpl.
    destruct (ZToTime ct _ (sector a) (row a) _) as [tb |] eqn:Htb;
      [simpl | discriminate].
    intros H. injection H as <- <-. simpl. repeat split; try reflexivity. exact Htb.
Qed.

(** ** Pad coordinates and local sector coordinates *)

Lemma ZToTime_defined ct z sector row pad :
  tables_cover (cfg_ ct) ->
  (1 <= sector <= 24)%Z -> (1 <= row)%Z ->
  (1 <= padRows (S_tpcPadPlanes (cfg_ ct)))%Z ->
  exists tb, ZToTime ct z sector row pad = Some tb.
Proof.
  intros (Hsec & Hrows & Hoff) Hs Hr Hp.
  unfold ZToTime. rewrite clamp_is_min.
  destruct (lookupZ_Some (S_tpcPadrowT0 (cfg_ ct)) (sector - 1)) as [rec Hrec];
    [lia |].
  rewrite Hrec. simpl.
  pose proof (proj1 (Forall_forall _ _) Hrows rec (lookupZ_in _ _ _ Hrec))
    as Hlen.
  simpl in Hlen.
  destruct (lookupZ_Some (T0 rec)
              (Z.min row (padRows (S_tpcPadPlanes (cfg_ ct))) - 1)) as [v Hv];
    [lia |].
  rewrite Hv. simpl.
  destruct (lookupZ_Some (t0 (S_tpcSectorT0offset (cfg_ ct)))
              ((if IsInner (Z.min row (padRows (S_tpcPadPlanes (cfg_ ct)))) (cfg_ ct)
                then sector + 24 else sector) - 1)) as [w Hw].
  { destruct (IsInner _ _); lia. }
  rewrite Hw. simpl. eexists. reflexivity.
Qed.

Lemma row_in_range (row rows : Z) :
  (1 <= row <= rows)%Z -> ((row <? 1)%Z || (row >? rows)%Z)%bool = false.
Proof.
  intros H. destruct (Z.ltb_spec row 1); [lia |].
  destruct (Z.gtb_spec row rows); [lia | reflexivity].
Qed.

(** X3. A pad coordinate with a sector in 1..24, a row in [1, padRows]
    and a pad of at least 0.500001 survives the way to a local sector
    coordinate and back unchanged, when the pad pitch of its row, the
    drift velocity of its sector and the width of a time bin are not
    zero; the way back leaves the statics of [YToRow] alone. *)
Theorem hardware_round_trip (ct : CoordTransform) (st : YToRowStatics)
    (a : StTpcPadCoordinate) :
  tables_cover (cfg_ ct) ->
  (1 <= pad_sector a <= 24)%Z ->
  (1 <= pad_row a <= padRows (S_tpcPadPlanes (cfg_ ct)))%Z ->
  0.500001 <= pad a ->
  pitch_of ct (pad_row a) <> 0 ->
  DriftVelocity (pad_sector a) (cfg_ ct) <> 0 ->
  timebin_width_ ct <> 0 ->
  exists b, hardware_to_local_sector ct a = Some b
            /\ local_sector_to_hardware ct st b = Some (a, st).
Proof.
  intros Hcover Hs Hr Hpad Hpitch Hv Hw.
  destruct a as [sec rw p tb]. simpl in *.
  unfold hardware_to_local_sector. simpl.
  destruct (TimeToZ_defined ct tb sec rw (double_to_int p) Hcover Hs
              ltac:(lia) ltac:(lia)) as [tz Htz].
  rewrite Htz. cbn [mbind option_bind]. eexists. split; [reflexivity |].
  unfold local_sector_to_hardware. cbn [row sector position x y z].
  rewrite (row_in_range rw _ Hr). cbn [mbind option_bind].
  rewrite XToPad_PadToX by assumption.
  match goal with
  | |- context [ZToTime ct ?zz sec rw _] => replace zz with tz by ring
  end.
  rewrite (ZToTime_TimeToZ ct tb sec rw (double_to_int p) tz Hv Hw Htz).
  reflexivity.
Qed.

Lemma XToPad_at_least ct x sector row : 0.500001 <= XToPad ct x sector row.
Proof.
  rewrite XToPad_unfold. destruct (Rlt_dec (linear_pad ct x row) 0.500001); lra.
Qed.

(** The row that the conversions from a local sector coordinate work
    with: the supplied one when it is in range, else the one of
    [YToRow]; it lies in [1, padRows]. *)
Lemma effective_row_range ct st (row0 : Z) (yy : R) (sec : Z) :
  (1 <= padRows (S_tpcPadPlanes (cfg_ ct)))%Z -> statics_reachable st ->
  exists row' st',
    (if ((row0 <? 1)%Z || (row0 >? padRows (S_tpcPadPlanes (cfg_ ct)))%Z)%bool
     then YToRow ct st yy sec else Some (row0, st)) = Some (row', st')
    /\ (1 <= row' <= padRows (S_tpcPadPlanes (cfg_ ct)))%Z
    /\ statics_reachable st'.
Proof.
  intros Hrows Hreach.
  destruct (Z.ltb_spec row0 1) as [Hlow | Hge]; simpl.
  2: destruct (Z.gtb_spec row0 (padRows (S_tpcPadPlanes (cfg_ ct)))) as [Hhigh | Hle].
  3: { exists row0, st. split; [reflexivity |]. split; [lia | exact Hreach]. }
  all: rewrite YToRow_unfold;
    destruct (refresh_statics_reachable (cfg_ ct) st Hrows Hreach)
      as (st' & Href & Hn & Hlen);
    rewrite Href; cbn [mbind option_bind];
    destruct (search_row_range st' yy) as (r & Hr & Hrange); [lia | exact Hlen |];
    rewrite Hr; cbn [mbind option_bind]; exists r, st';
    split; [reflexivity |]; split; [lia | right; exact Hlen].
Qed.

(** X4. For every local sector coordinate with real coordinates, in
    a sector in 1..24, with a row of at least 1, in range or beyond
    [padRows], and a nonzero pad pitch for that row,
    [local_sector_to_hardware] returns a pad coordinate of the same
    sector, with a row in [1, padRows], which is the supplied row when
    that is in range, and a pad of at least 0.500001. *)
Theorem local_sector_to_hardware_valid (ct : CoordTransform) (st : YToRowStatics)
    (a : StTpcLocalSectorCoordinate) :
  tables_cover (cfg_ ct) ->
  (1 <= padRows (S_tpcPadPlanes (cfg_ ct)))%Z ->
  statics_reachable st ->
  (1 <= sector a <= 24)%Z ->
  (1 <= row a)%Z ->
  pitch_of ct (row a) <> 0 ->
  exists pc st', local_sector_to_hardware ct st a = Some (pc, st')
                 /\ statics_reachable st'
                 /\ pad_sector pc = sector a
                 /\ (1 <= pad_row pc <= padRows (S_tpcPadPlanes (cfg_ ct)))%Z
                 /\ ((row a <= padRows (S_tpcPadPlanes (cfg_ ct)))%Z ->
                     pad_row pc = row a)
                 /\ 0.500001 <= pad pc.
Proof.
  intros Hcover Hrows Hreach Hs Hrow1 Hpitch. unfold local_sector_to_hardware.
  destruct (effective_row_range ct st (row a) (y (position a)) (sector a)
              Hrows Hreach) as (row' & st' & Hrow & Hrange & Hreach').
  rewrite Hrow. cbn [mbind option_bind].
  match goal with
  | |- context [ZToTime ct ?zz (sector a) row' ?pp] =>
      destruct (ZToTime_defined ct zz (sector a) row' pp Hcover Hs
                  ltac:(lia) Hrows) as [tb Htb]
  end.
  rewrite Htb. cbn [mbind option_bind].
  eexists. eexists. split; [reflexivity |]. simpl.
  split; [exact Hreach' |]. split; [reflexivity |]. split; [exact Hrange |].
  split; [| apply XToPad_at_least].
  intros Hin. rewrite (row_in_range (row a) _ (conj Hrow1 Hin)) in Hrow.
  injection Hrow as <- _. reflexivity.
Qed.

(** ** The rows as intervals of the radius *)

Lemma lookupZ_Zrange lo hi i :
  (0 <= i < hi - lo)%Z -> lookupZ (Zrange lo hi) i = Some (lo + i)%Z.
Proof.
  intros Hi. unfold lookupZ, Zrange.
  destruct (Z.ltb_spec i 0); [lia |].
  rewrite list_lookup_fmap, lookup_seq_lt by lia. simpl. f_equal. lia.
Qed.

Lemma lookupZ_map {A B : Type} (f : A -> B) (l : list A) (i : Z) :
  lookupZ (map f l) i = option_map f (lookupZ l i).
Proof.
  unfold lookupZ. destruct (i <? 0)%Z; [reflexivity |].
  change (map f l) with (f <$> l). rewrite list_lookup_fmap.
  destruct (l !! Z.to_nat i); reflexivity.
Qed.

(** Entry [i] of the table is the boundary computed for [i + 1]. *)
Lemma lookupZ_build_Radii cfg nrows i :
  (0 <= i <= nrows)%Z ->
  lookupZ (build_Radii cfg nrows) i = Some (row_boundary cfg nrows (i + 1)).
Proof.
  intros Hi. unfold build_Radii.
  rewrite lookupZ_map, lookupZ_Zrange by lia. simpl. f_equal. f_equal. lia.
Qed.

Lemma row_boundary_middle cfg nrows i :
  (2 <= i <= nrows)%Z -> row_boundary cfg nrows i = midpoint cfg (i - 1) i.
Proof.
  intros Hi. unfold row_boundary, midpoint.
  destruct (Z.eqb_spec i 1); [lia |].
  destruct (Z.eqb_spec i (nrows + 1)); [lia | reflexivity].
Qed.

Lemma row_boundary_step cfg i :
  (2 <= padRows (S_tpcPadPlanes cfg))%Z -> radii_increasing cfg ->
  (1 <= i <= padRows (S_tpcPadPlanes cfg))%Z ->
  row_boundary cfg (padRows (S_tpcPadPlanes cfg)) i
  < RadialDistanceAtRow i cfg
  < row_boundary cfg (padRows (S_tpcPadPlanes cfg)) (i + 1).
Proof.
  intros Hrows Hinc Hi. unfold row_boundary.
  set (N := padRows (S_tpcPadPlanes cfg)) in *.
  destruct (Z.eqb_spec (i + 1) 1); [lia |].
  destruct (Z.eqb_spec i (N + 1)); [lia |].
  replace (i + 1 - 1)%Z with i by lia.
  replace (i + 1 - 2)%Z with (i - 1)%Z by lia.
  destruct (Z.eqb_spec i 1) as [Hi1 | Hi1];
    destruct (Z.eqb_spec (i + 1) (N + 1)) as [Hlast | Hmid]; try lia.
  - pose proof (Hinc i ltac:(lia)). split; lra.
  - pose proof (Hinc (i - 1)%Z ltac:(lia)) as H1.
    replace (i - 1 + 1)%Z with i in H1 by lia. split; lra.
  - pose proof (Hinc (i - 1)%Z ltac:(lia)) as H1.
    replace (i - 1 + 1)%Z with i in H1 by lia.
    pose proof (Hinc i ltac:(lia)). split; lra.
Qed.

Lemma row_boundary_increasing cfg (n : nat) :
  (2 <= padRows (S_tpcPadPlanes cfg))%Z -> radii_increasing cfg ->
  forall i, (1 <= i)%Z -> (i + Z.of_nat n <= padRows (S_tpcPadPlanes cfg))%Z ->
    row_boundary cfg (padRows (S_tpcPadPlanes cfg)) i
    < row_boundary cfg (padRows (S_tpcPadPlanes cfg)) (i + Z.of_nat n + 1).
Proof.
  intros Hrows Hinc. induction n as [| n IH]; intros i Hlo Hhi.
  - replace (i + Z.of_nat 0 + 1)%Z with (i + 1)%Z by lia.
    pose proof (row_boundary_step cfg i Hrows Hinc ltac:(lia)). lra.
  - specialize (IH i Hlo ltac:(lia)).
    pose proof (row_boundary_step cfg (i + Z.of_nat n + 1)%Z Hrows Hinc ltac:(lia)).
    replace (i + Z.of_nat (S n) + 1)%Z with (i + Z.of_nat n + 1 + 1)%Z by lia. lra.
Qed.

Lemma build_Radii_increasing cfg :
  (2 <= padRows (S_tpcPadPlanes cfg))%Z -> radii_increasing cfg ->
  increasing (build_Radii cfg (padRows (S_tpcPadPlanes cfg))).
Proof.
  intros Hrows Hinc i j vi vj Hij Hi Hj.
  pose proof (lookupZ_bounds _ _ _ Hi) as Bi.
  pose proof (lookupZ_bounds _ _ _ Hj) as Bj.
  rewrite length_build_Radii in Bi, Bj.
  rewrite lookupZ_build_Radii in Hi, Hj by lia.
  injection Hi as <-. injection Hj as <-.
  pose proof (row_boundary_increasing cfg (Z.to_nat (j - i - 1)) Hrows Hinc
                (i + 1)%Z ltac:(lia) ltac:(lia)) as H.
  replace (i + 1 + Z.of_nat (Z.to_nat (j - i - 1)) + 1)%Z with (j + 1)%Z in H by lia.
  exact H.
Qed.

Lemma increasing_nondecreasing (a : list R) : increasing a -> nondecreasing a.
Proof.
  intros Hinc i j vi vj Hij Hi Hj.
  destruct (Z.eq_dec i j) as [-> | Hne].
  - rewrite Hi in Hj. injection Hj as <-. lra.
  - pose proof (Hinc i j vi vj ltac:(lia) Hi Hj). lra.
Qed.

(** In a table of strictly increasing boundaries the search counts the
    boundaries that are not above [y], and clamps the count to the
    rows. *)
Lemma search_row_count st y :
  Z.of_nat (length (Radii st)) = (Nrows st + 1)%Z -> increasing (Radii st) ->
  exists c, search_row st y = Some (Z.min (Z.max 1 c) (Nrows st))
            /\ (0 <= c <= Nrows st + 1)%Z
            /\ forall i v, lookupZ (Radii st) i = Some v ->
                 ((i < c)%Z -> v <= y) /\ ((c <= i)%Z -> y < v).
Proof.
  intros Hlen Hinc. unfold search_row. rewrite <- Hlen.
  destruct (lower_bound_range (Radii st) y) as (k & Hk & Hr).
  pose proof (lower_bound_partition _ _ _ (increasing_nondecreasing _ Hinc) Hk) as Hp.
  rewrite Hk. cbn [mbind option_bind].
  assert (Hclamp : forall c : Z,
    (let row := if (c <=? 0)%Z then 1%Z else c in
     if (row >? Nrows st)%Z then Nrows st else row) = Z.min (Z.max 1 c) (Nrows st)).
  { intros c. simpl. destruct (Z.leb_spec c 0);
      match goal with |- context [(?u >? ?v)%Z] => destruct (Z.gtb_spec u v) end; lia. }
  destruct (Z.eqb_spec k (Z.of_nat (length (Radii st)))) as [Heq | Hne].
  - cbn [mbind option_bind]. exists k. split; [f_equal; apply Hclamp |].
    split; [lia |]. intros i v Hv. split; intros Hi.
    + destruct (Hp i v Hv) as [Hlt _]. specialize (Hlt Hi). lra.
    + apply lookupZ_bounds in Hv. lia.
  - destruct (lookupZ_Some (Radii st) k) as [vk Hvk]; [lia |].
    rewrite Hvk. cbn [mbind option_bind]. unfold Reqb.
    destruct (Req_dec_T vk y) as [Heq | Hneq].
    + exists (k + 1)%Z. split; [f_equal; apply Hclamp |]. split; [lia |].
      intros i v Hv. split; intros Hi.
      * destruct (Z.eq_dec i k) as [-> | Hik].
        -- rewrite Hvk in Hv. injection Hv as <-. lra.
        -- destruct (Hp i v Hv) as [Hlt _]. specialize (Hlt ltac:(lia)). lra.
      * pose proof (Hinc k i vk v ltac:(lia) Hvk Hv). lra.
    + exists k. split; [f_equal; apply Hclamp |]. split; [lia |].
      intros i v Hv. split; intros Hi.
      * destruct (Hp i v Hv) as [Hlt _]. specialize (Hlt Hi). lra.
      * destruct (Hp k vk Hvk) as [_ Hge]. specialize (Hge ltac:(lia)).
        destruct (Z.eq_dec i k) as [-> | Hik].
        -- rewrite Hvk in Hv. injection Hv as <-. lra.
        -- pose proof (Hinc k i vk v ltac:(lia) Hvk Hv). lra.
Qed.

(** The count of [search_row_count] in the table of a configuration. *)
Lemma YToRow_count ct st y sector :
  (2 <= padRows (S_tpcPadPlanes (cfg_ ct)))%Z -> radii_increasing (cfg_ ct) ->
  statics_ok (cfg_ ct) st ->
  exists c,
    YToRow ct st y sector
    = Some (Z.min (Z.max 1 c) (padRows (S_tpcPadPlanes (cfg_ ct))),
            statics_of (cfg_ ct))
    /\ (0 <= c <= padRows (S_tpcPadPlanes (cfg_ ct)) + 1)%Z
    /\ forall i, (1 <= i <= padRows (S_tpcPadPlanes (cfg_ ct)) + 1)%Z ->
         ((i <= c)%Z ->
            row_boundary (cfg_ ct) (padRows (S_tpcPadPlanes (cfg_ ct))) i <= y)
         /\ ((c < i)%Z ->
            y < row_boundary (cfg_ ct) (padRows (S_tpcPadPlanes (cfg_ ct))) i).
Proof.
  intros Hrows Hinc Hok. rewrite YToRow_ok by (assumption || lia).
  destruct (search_row_count (statics_of (cfg_ ct)) y) as (c & Hc & Hr & Hcount).
  { apply statics_of_length. lia. }
  { apply build_Radii_increasing; assumption. }
  exists c. rewrite Hc. cbn [mbind option_bind]. split; [reflexivity |].
  split; [exact Hr |]. intros i Hi.
  pose proof (Hcount (i - 1)%Z _
                (lookupZ_build_Radii (cfg_ ct) (padRows (S_tpcPadPlanes (cfg_ ct)))
                   (i - 1)%Z ltac:(lia))) as [H1 H2].
  replace (i - 1 + 1)%Z with i in H1, H2 by lia.
  split; intros Hic; [apply H1 | apply H2]; simpl; lia.
Qed.

(** X5. With two rows at least, at strictly increasing nominal radii,
    [YToRow] sends a radius to the row whose nominal radius is nearest:
    row [r] is returned exactly for the radii from the midpoint between
    rows [r - 1] and [r], included, to the midpoint between rows [r] and
    [r + 1], excluded; the first row extends down and the last row up
    without bound. *)
Theorem YToRow_nearest_row (ct : CoordTransform) (st : YToRowStatics)
    (y : R) (sector r : Z) :
  (2 <= padRows (S_tpcPadPlanes (cfg_ ct)))%Z ->
  radii_increasing (cfg_ ct) ->
  statics_ok (cfg_ ct) st ->
  (1 <= r <= padRows (S_tpcPadPlanes (cfg_ ct)))%Z ->
  YToRow ct st y sector = Some (r, statics_of (cfg_ ct))
  <-> (r = 1%Z \/ midpoint (cfg_ ct) (r - 1) r <= y)
      /\ (r = padRows (S_tpcPadPlanes (cfg_ ct)) \/ y < midpoint (cfg_ ct) r (r + 1)).
Proof.
  intros Hrows Hinc Hok Hr.
  destruct (YToRow_count ct st y sector Hrows Hinc Hok) as (c & Hc & Hcr & Hcount).
  rewrite Hc. set (N := padRows (S_tpcPadPlanes (cfg_ ct))) in *.
  assert (Hlow : (2 <= r)%Z -> (midpoint (cfg_ ct) (r - 1) r <= y <-> (r <= c)%Z)).
  { intros H2. rewrite <- (row_boundary_middle (cfg_ ct) N r) by lia.
    destruct (Hcount r ltac:(lia)) as [H1 H3].
    destruct (Z.le_gt_cases r c) as [Hle | Hgt].
    - split; [intros _; exact Hle | intros _; apply H1; exact Hle].
    - specialize (H3 Hgt). split; [lra | lia]. }
  assert (Hhigh : (r < N)%Z -> (y < midpoint (cfg_ ct) r (r + 1) <-> (c <= r)%Z)).
  { intros H2.
    pose proof (row_boundary_middle (cfg_ ct) N (r + 1) ltac:(lia)) as Hmid.
    replace (r + 1 - 1)%Z with r in Hmid by lia. rewrite <- Hmid.
    destruct (Hcount (r + 1)%Z ltac:(lia)) as [H1 H3].
    destruct (Z.le_gt_cases (r + 1) c) as [Hle | Hgt].
    - specialize (H1 Hle). split; [lra | lia].
    - split; [lia | intros _; apply H3; lia]. }
  split.
  - intros H. injection H as H. split.
    + destruct (Z.eq_dec r 1%Z) as [H1 | H1]; [left; exact H1 | right].
      apply Hlow; lia.
    + destruct (Z.eq_dec r N) as [H1 | H1]; [left; exact H1 | right].
      apply Hhigh; lia.
  - intros [Hl Hh]. f_equal. f_equal.
    assert (Hc1 : r = 1%Z \/ (r <= c)%Z).
    { destruct Hl as [Hl | Hl]; [left; exact Hl |].
      destruct (Z.eq_dec r 1%Z); [left; assumption | right; apply Hlow; [lia | exact Hl]]. }
    assert (Hc2 : r = N \/ (c <= r)%Z).
    { destruct Hh as [Hh | Hh]; [left; exact Hh |].
      destruct (Z.eq_dec r N); [left; assumption | right; apply Hhigh; [lia | exact Hh]]. }
    lia.
Qed.

(** X6. With two rows at least, at strictly increasing nominal radii,
    [YToRow] sends the nominal radius of every configured row back to
    that row: it inverts [RadialDistanceAtRow] on the rows 1..padRows. *)
Theorem YToRow_of_nominal_radius (ct : CoordTransform) (st : YToRowStatics)
    (sector row : Z) :
  (2 <= padRows (S_tpcPadPlanes (cfg_ ct)))%Z ->
  radii_increasing (cfg_ ct) ->
  statics_ok (cfg_ ct) st ->
  (1 <= row <= padRows (S_tpcPadPlanes (cfg_ ct)))%Z ->
  YToRow ct st (RadialDistanceAtRow row (cfg_ ct)) sector
  = Some (row, statics_of (cfg_ ct)).
Proof.
  intros Hrows Hinc Hok Hr.
  destruct (YToRow_count ct st (RadialDistanceAtRow row (cfg_ ct)) sector
              Hrows Hinc Hok) as (c & Hc & Hcr & Hcount).
  rewrite Hc. f_equal. f_equal.
  pose proof (row_boundary_step (cfg_ ct) row Hrows Hinc Hr) as [Hbelow Habove].
  destruct (Hcount row ltac:(lia)) as [_ H1].
  destruct (Hcount (row + 1)%Z ltac:(lia)) as [H2 _].
  assert (row <= c)%Z.
  { destruct (Z.le_gt_cases row c) as [Hle | Hgt]; [exact Hle |].
    specialize (H1 Hgt). lra. }
  assert (c <= row)%Z.
  { destruct (Z.le_gt_cases (row + 1) c) as [Hle | Hgt]; [| lia].
    specialize (H2 Hle). lra. }
  lia.
Qed.

(** X7. The boundary table of [YToRow] is shared by all transforms and
    rebuilt only when the number of rows changes: after a call on one
    transform, a call on another transform with the same number of rows
    answers from the table of the first, whatever the nominal radii of
    its own configuration. *)
Theorem YToRow_table_shared (ct1 ct2 : CoordTransform) (st0 st : YToRowStatics)
    (y0 y : R) (sector0 sector row0 : Z) :
  padRows (S_tpcPadPlanes (cfg_ ct2)) = padRows (S_tpcPadPlanes (cfg_ ct1)) ->
  YToRow ct1 st0 y0 sector0 = Some (row0, st) ->
  YToRow ct2 st y sector = YToRow ct1 st y sector
  /\ YToRow ct2 st y sector = (r ← search_row st y; Some (r, st)).
Proof.
  intros Hrows Hfirst. rewrite YToRow_unfold in Hfirst.
  destruct (refresh_statics (cfg_ ct1) st0) as [st' |] eqn:Href;
    [cbn [mbind option_bind] in Hfirst | discriminate].
  destruct (search_row st' y0) as [r |];
    [cbn [mbind option_bind] in Hfirst | discriminate].
  injection Hfirst as _ <-.
  pose proof (refresh_statics_Nrows _ _ _ Href) as Hn.
  assert (H1 : refresh_statics (cfg_ ct1) st' = Some st').
  { unfold refresh_statics. rewrite Hn, Z.eqb_refl. reflexivity. }
  assert (H2 : refresh_statics (cfg_ ct2) st' = Some st').
  { unfold refresh_statics. rewrite Hn, Hrows, Z.eqb_refl. reflexivity. }
  rewrite !YToRow_unfold, H1, H2. split; reflexivity.
Qed.

(** ** The construction of the cache, whatever the calibration *)

Lemma sector_rotation_defined ct sector k :
  cache_sized ct -> (1 <= sector <= 24)%Z -> (0 <= k < kTotalTpcSectorRotaions)%Z ->
  exists m, sector_rotation ct sector k = Some m.
Proof.
  intros Hlen Hs Hk. unfold sector_rotation. apply lookupZ_Some.
  rewrite Hlen. apply slot_bounds; assumption.
Qed.

(** No stage of a sector falls into the [default] branch, and no read of
    an earlier stage leaves the cache. *)
Lemma stage_matrix_defined ct sector k :
  cache_sized ct -> (1 <= sector <= 24)%Z -> (0 <= k < kTotalTpcSectorRotaions)%Z ->
  exists m, stage_matrix ct sector k = Some m.
Proof.
  intros Hlen Hs Hk.
  pose proof (fun j Hj => sector_rotation_defined ct sector j Hlen Hs Hj) as Hget.
  unfold kTotalTpcSectorRotaions in Hk, Hget.
  stage_cases k Hc; subst k;
    unfold stage_matrix, SupS2Tpc, SupS2Glob, SubSInner2SupS, SubSOuter2SupS,
      SubSInner2Tpc, SubSOuter2Tpc, SubSInner2Glob, SubSOuter2Glob,
      PadInner2SupS, PadOuter2SupS, PadInner2Tpc, PadOuter2Tpc,
      PadInner2Glob, PadOuter2Glob;
    cbn [Z.eqb kSupS2Tpc kSupS2Glob kSubSInner2SupS kSubSOuter2SupS
         kSubSInner2Tpc kSubSOuter2Tpc kSubSInner2Glob kSubSOuter2Glob
         kPadInner2SupS kPadOuter2SupS kPadInner2Tpc kPadOuter2Tpc
         kPadInner2Glob kPadOuter2Glob Pos.eqb];
    repeat match goal with
           | |- context [sector_rotation ct sector ?j] =>
               let m := fresh "m" in
               let Hm := fresh "Hm" in
               destruct (Hget j ltac:(vm_compute; split; [discriminate | reflexivity]))
                 as [m Hm]; rewrite Hm;
               cbn [mbind option_bind]
           end;
    eexists; reflexivity.
Qed.

Lemma same_frame_refl ct : same_frame ct ct.
Proof. split; [apply same_calibration_refl | reflexivity]. Qed.

Lemma same_frame_trans a b c : same_frame a b -> same_frame b c -> same_frame a c.
Proof.
  intros [H1 G1] [H2 G2]. split; [eapply same_calibration_trans; eassumption |].
  congruence.
Qed.

Lemma rotation_step_defined ct sector k :
  cache_sized ct -> (1 <= sector <= 24)%Z -> (0 <= k < kTotalTpcSectorRotaions)%Z ->
  exists ct', rotation_step sector ct k = Some ct'
              /\ same_frame ct ct' /\ cache_sized ct'.
Proof.
  intros Hlen Hs Hk. unfold rotation_step.
  destruct (Z.eqb_spec sector 0) as [| _]; [lia |].
  destruct (stage_matrix_defined ct sector k Hlen Hs Hk) as [m Hm].
  rewrite Hm. cbn [mbind option_bind].
  pose proof (slot_bounds sector k Hs Hk) as Hslot.
  rewrite storeZ_Some by (rewrite Hlen; exact Hslot). cbn [mbind option_bind].
  eexists. split; [reflexivity |]. split.
  - split; [repeat split | reflexivity].
  - unfold cache_sized. cbn [sector_rotations_ set_sector_rotations].
    rewrite length_insert. exact Hlen.
Qed.

Lemma stage_loop_defined sector (n : nat) :
  forall ct k,
    cache_sized ct -> (1 <= sector <= 24)%Z -> (0 <= k)%Z ->
    (k + Z.of_nat n = kTotalTpcSectorRotaions)%Z ->
    exists ct', for_each (rotation_step sector)
                  (Zrange k kTotalTpcSectorRotaions) ct = Some ct'
                /\ same_frame ct ct' /\ cache_sized ct'.
Proof.
  induction n as [| n IH]; intros ct k Hlen Hs Hk0 Hkn.
  - rewrite Zrange_nil by lia. exists ct.
    split; [reflexivity |]. split; [apply same_frame_refl | exact Hlen].
  - rewrite Zrange_cons by lia. cbn [for_each].
    destruct (rotation_step_defined ct sector k Hlen Hs ltac:(lia))
      as (ct1 & Hstep & Hf1 & Hlen1).
    rewrite Hstep. cbn [mbind option_bind].
    destruct (IH ct1 (k + 1)%Z Hlen1 Hs ltac:(lia) ltac:(lia))
      as (ct' & Hrun & Hf2 & Hlen2).
    exists ct'. split; [exact Hrun |].
    split; [eapply same_frame_trans; eassumption | exact Hlen2].
Qed.

Lemma sector_loop_defined (n : nat) :
  forall ct sector,
    cache_sized ct -> (1 <= sector)%Z -> (sector + Z.of_nat n = 25)%Z ->
    exists ct', for_each sector_step (Zrange sector 25) ct = Some ct'
                /\ same_frame ct ct' /\ cache_sized ct'.
Proof.
  induction n as [| n IH]; intros ct sector Hlen Hs Hn.
  - rewrite Zrange_nil by lia. exists ct.
    split; [reflexivity |]. split; [apply same_frame_refl | exact Hlen].
  - rewrite Zrange_cons by lia. cbn [for_each].
    destruct (stage_loop_defined sector 14 ct 0 Hlen ltac:(lia) ltac:(lia) eq_refl)
      as (ct1 & Hstep & Hf1 & Hlen1).
    assert (Hsec : sector_step ct sector = Some ct1).
    { unfold sector_step. rewrite stages_of_sector by lia. exact Hstep. }
    rewrite Hsec. cbn [mbind option_bind].
    destruct (IH ct1 (sector + 1)%Z Hlen1 ltac:(lia) ltac:(lia))
      as (ct' & Hrun & Hf2 & Hlen2).
    exists ct'. split; [exact Hrun |].
    split; [eapply same_frame_trans; eassumption | exact Hlen2].
Qed.

(** The iterations for sector 0: none when [kUndefSector] is not
    negative, else each of them stores the TPC reference system. *)
Lemma reference_loop_frame (l : list Z) :
  forall ct, exists ct',
    for_each (rotation_step 0) l ct = Some ct'
    /\ same_calibration ct ct'
    /\ sector_rotations_ ct' = sector_rotations_ ct
    /\ tpc2global_ ct' = match l with
                         | [] => tpc2global_ ct
                         | _ :: _ => tpc_reference_system (cfg_ ct)
                         end.
Proof.
  induction l as [| k l IH]; intros ct.
  - exists ct. split; [reflexivity |].
    split; [apply same_calibration_refl |]. split; reflexivity.
  - simpl. unfold rotation_step at 1. simpl.
    rewrite (normalize_rigid _ (rigid_tpc_reference_system (cfg_ ct))).
    destruct (IH (set_tpc2global ct (tpc_reference_system (cfg_ ct))))
      as (ct' & Hrun & Hcal & Hrot & Hg).
    exists ct'. split; [exact Hrun |].
    split; [exact Hcal |]. split; [exact Hrot |].
    rewrite Hg. destruct l; reflexivity.
Qed.

Lemma SetTpcRotations_defined ct0 :
  cache_sized ct0 ->
  exists ct, SetTpcRotations ct0 = Some ct
             /\ same_calibration ct0 ct
             /\ cache_sized ct
             /\ tpc2global_ ct = if (kUndefSector <? 0)%Z
                                 then tpc_reference_system (cfg_ ct0)
                                 else tpc2global_ ct0.
Proof.
  intros Hlen. unfold SetTpcRotations.
  rewrite Zrange_cons by lia.
  change (for_each sector_step (0%Z :: Zrange (0 + 1) 25) ct0)
    with (ct1 ← for_each (rotation_step 0) (stages_of 0) ct0;
          for_each sector_step (Zrange 1 25) ct1).
  destruct (reference_loop_frame (stages_of 0) ct0) as (ct1 & Hrun & Hc1 & Hrot & Hg).
  rewrite Hrun. cbn [mbind option_bind].
  assert (Hlen1 : cache_sized ct1) by (unfold cache_sized; rewrite Hrot; exact Hlen).
  destruct (sector_loop_defined 24 ct1 1 Hlen1 ltac:(lia) eq_refl)
    as (ct & Hloop & [Hc2 Hg2] & Hlen2).
  exists ct. split; [exact Hloop |].
  split; [eapply same_calibration_trans; eassumption |].
  split; [exact Hlen2 |].
  rewrite Hg2, Hg. unfold stages_of. cbn [Z.eqb].
  destruct (Z.ltb_spec kUndefSector 0) as [Hneg | Hpos].
  - rewrite (Zrange_cons kUndefSector kSupS2Tpc) by (unfold kSupS2Tpc; lia).
    reflexivity.
  - rewrite (Zrange_nil kUndefSector kSupS2Tpc) by (unfold kSupS2Tpc; lia).
    reflexivity.
Qed.

(** X8. The constructor returns for every configuration, rigid
    calibration matrices or not: no stage reaches [assert(0)] and no
    access leaves the cache.  The transform holds the configuration, the
    width of a time bin and the two offsets taken from it, and a cache of
    12 * 2 * 14 matrices. *)
Theorem construction_total (cfg : Configurator) :
  exists ct, new_CoordTransform cfg = Some ct
             /\ cfg_ ct = cfg
             /\ timebin_width_ ct = 1e6 / frequency (S_starClockOnl cfg)
             /\ z_inner_offset_ ct = z_inner_offset (S_tpcEffectiveGeom cfg)
             /\ z_outer_offset_ ct = z_outer_offset (S_tpcEffectiveGeom cfg)
             /\ length (sector_rotations_ ct) = 336%nat.
Proof.
  unfold new_CoordTransform.
  set (ct0 := mkCoordTransform _ _ _ _ _ _).
  destruct (SetTpcRotations_defined ct0) as (ct & Hrun & Hcal & Hlen & _).
  { unfold cache_sized, ct0. cbn [sector_rotations_]. apply length_replicate. }
  exists ct. split; [exact Hrun |].
  destruct Hcal as (H1 & H2 & H3 & H4).
  split; [exact H1 |]. split; [exact H2 |]. split; [exact H3 |]. split; [exact H4 |].
  exact Hlen.
Qed.

Lemma tpc_reference_system_tilted cfg :
  tpc_reference_system cfg
  = tilted_frame (PhiXZ_geom (S_tpcGlobalPosition cfg))
                 (PhiYZ_geom (S_tpcGlobalPosition cfg))
                 (mkVec (LocalxShift (S_tpcGlobalPosition cfg))
                        (LocalyShift (S_tpcGlobalPosition cfg))
                        (LocalzShift (S_tpcGlobalPosition cfg))).
Proof.
  unfold tpc_reference_system, tilted_frame, RotateX, RotateY, RotateZ,
    SetTranslation, hm_identity, rot_identity, DegToRad.
  cbn [fRotationMatrix fTranslation r0 r1 r2 r3 r4 r5 r6 r7 r8 vx vy vz].
  pose proof PI_neq0 as Hpi.
  replace (- (PhiYZ_geom (S_tpcGlobalPosition cfg) * 180 / PI) * (PI / 180))
    with (- PhiYZ_geom (S_tpcGlobalPosition cfg)) by (field; exact Hpi).
  replace (- (PhiXZ_geom (S_tpcGlobalPosition cfg) * 180 / PI) * (PI / 180))
    with (- PhiXZ_geom (S_tpcGlobalPosition cfg)) by (field; exact Hpi).
  replace (- 0 * (PI / 180)) with 0 by field.
  rewrite !cos_neg, !sin_neg, cos_0, sin_0.
  f_equal. f_equal; ring.
Qed.

(** X9. The constructor leaves in [tpc2global_] the tilt of the TPC
    with the shift of the configuration: the angles [PhiXZ_geom] and
    [PhiYZ_geom] act as radians, their conversion to degrees being undone
    by the rotations, and the third angle is zero.  This holds for every
    configuration when [kUndefSector] is negative; otherwise the loop for
    sector 0 is empty and [tpc2global_] stays the identity. *)
Theorem tpc2global_explicit (cfg : Configurator) :
  exists ct, new_CoordTransform cfg = Some ct
    /\ tpc2global_ ct
       = if (kUndefSector <? 0)%Z
         then tilted_frame (PhiXZ_geom (S_tpcGlobalPosition cfg))
                           (PhiYZ_geom (S_tpcGlobalPosition cfg))
                           (mkVec (LocalxShift (S_tpcGlobalPosition cfg))
                                  (LocalyShift (S_tpcGlobalPosition cfg))
                                  (LocalzShift (S_tpcGlobalPosition cfg)))
         else hm_identity.
Proof.
  unfold new_CoordTransform.
  set (ct0 := mkCoordTransform _ _ _ _ _ _).
  destruct (SetTpcRotations_defined ct0) as (ct & Hrun & _ & _ & Hg).
  { unfold cache_sized, ct0. cbn [sector_rotations_]. apply length_replicate. }
  exists ct. split; [exact Hrun |]. rewrite Hg.
  destruct (kUndefSector <? 0)%Z; [| reflexivity].
  apply tpc_reference_system_tilted.
Qed.

(** ** The block "Normalize" on an arbitrary matrix *)

Lemma Mag_nonneg v : 0 <= Mag v.
Proof. apply sqrt_pos. Qed.

Lemma Mag_sqr v : Mag v * Mag v = Dot v v.
Proof. unfold Mag, Dot. apply sqrt_sqrt. nra. Qed.

Lemma Mag_unit v : Mag v <> 0 -> Mag (vscale (1 / Mag v) v) = 1.
Proof.
  intros Hv. pose proof (Mag_sqr v) as Hs. unfold Dot in Hs.
  unfold Mag at 1. cbn [vscale vx vy vz].
  replace (1 / Mag v * vx v * (1 / Mag v * vx v)
           + 1 / Mag v * vy v * (1 / Mag v * vy v)
           + 1 / Mag v * vz v * (1 / Mag v * vz v))
    with ((vx v * vx v + vy v * vy v + vz v * vz v) / (Mag v * Mag v))
    by (field; exact Hv).
  rewrite <- Hs. replace (Mag v * Mag v / (Mag v * Mag v)) with 1 by (field; exact Hv).
  apply sqrt_1.
Qed.

Lemma vscale_one v : vscale (1 / 1) v = v.
Proof. destruct v. unfold vscale. simpl. f_equal; field. Qed.

(** The result of "Normalize" by its columns. *)
Lemma normalize_columns m :
  fTranslation (normalize m) = fTranslation m
  /\ column_x (normalize m) = vscale (1 / Mag (column_x m)) (column_x m)
  /\ column_z (normalize m) = vscale (1 / Mag (column_z m)) (column_z m)
  /\ column_y (normalize m)
     = (let c := Cross (column_x (normalize m)) (column_z (normalize m)) in
        if Rlt_dec (Dot c (column_y m)) 0 then vscale (-1) c else c).
Proof.
  assert (Hx : column_x (normalize m) = vscale (1 / Mag (column_x m)) (column_x m))
    by reflexivity.
  assert (Hz : column_z (normalize m) = vscale (1 / Mag (column_z m)) (column_z m))
    by reflexivity.
  split; [reflexivity |]. split; [exact Hx |]. split; [exact Hz |].
  rewrite Hx, Hz. clear Hx Hz.
  unfold normalize, column_y at 1. cbv zeta.
  cbn [fRotationMatrix SetRotation r1 r4 r7].
  fold (column_x m). fold (column_y m). fold (column_z m).
  set (c := Cross _ _).
  destruct (Rlt_dec (Dot c (column_y m)) 0); [reflexivity |].
  subst c. reflexivity.
Qed.

Lemma matrix_by_columns (m m' : TGeoHMatrix) :
  fTranslation m = fTranslation m' ->
  column_x m = column_x m' -> column_y m = column_y m' -> column_z m = column_z m' ->
  m = m'.
Proof.
  destruct m as [tr [a0 a1 a2 a3 a4 a5 a6 a7 a8]].
  destruct m' as [tr' [b0 b1 b2 b3 b4 b5 b6 b7 b8]].
  unfold column_x, column_y, column_z. simpl.
  intros -> Hx Hy Hz. injection Hx as -> -> ->. injection Hy as -> -> ->.
  injection Hz as -> -> ->. reflexivity.
Qed.

(** X10. On a matrix whose first and third columns are not zero,
    "Normalize" keeps the translation, scales the first and the third
    column to unit length, and replaces the second column by a vector
    orthogonal to both that does not point away from the old one.  It
    does not make the first and the third column orthogonal: the result
    is orthonormal exactly when they were orthogonal before. *)
Theorem normalize_orthonormal_iff (m : TGeoHMatrix) :
  Mag (column_x m) <> 0 -> Mag (column_z m) <> 0 ->
  fTranslation (normalize m) = fTranslation m
  /\ Mag (column_x (normalize m)) = 1
  /\ Mag (column_z (normalize m)) = 1
  /\ Dot (column_y (normalize m)) (column_x (normalize m)) = 0
  /\ Dot (column_y (normalize m)) (column_z (normalize m)) = 0
  /\ 0 <= Dot (column_y (normalize m)) (column_y m)
  /\ (rigid (normalize m) <-> Dot (column_x m) (column_z m) = 0).
Proof.
  intros Hx Hz.
  destruct (normalize_columns m) as (Ht & Hcx & Hcz & Hcy).
  pose proof (Mag_unit _ Hx) as Ux. pose proof (Mag_unit _ Hz) as Uz.
  rewrite <- Hcx in Ux. rewrite <- Hcz in Uz.
  pose proof (Mag_sqr (column_x (normalize m))) as Sx.
  pose proof (Mag_sqr (column_z (normalize m))) as Sz.
  rewrite Ux in Sx. rewrite Uz in Sz.
  assert (Hdot : Dot (column_x (normalize m)) (column_z (normalize m))
                 = Dot (column_x m) (column_z m)
                   / (Mag (column_x m) * Mag (column_z m))).
  { rewrite Hcx, Hcz. unfold Dot, vscale. cbn [vx vy vz]. field. split; assumption. }
  assert (Hzero : Dot (column_x (normalize m)) (column_z (normalize m)) = 0
                  <-> Dot (column_x m) (column_z m) = 0).
  { rewrite Hdot. split; intros H.
    - apply (Rmult_eq_compat_r (Mag (column_x m) * Mag (column_z m))) in H.
      rewrite Rmult_0_l in H. rewrite <- H. field. split; assumption.
    - rewrite H. unfold Rdiv. apply Rmult_0_l. }
  split; [exact Ht |]. split; [exact Ux |]. split; [exact Uz |].
  revert Hcy Hzero Sx Sz. clear.
  unfold rigid, orthonormal.
  destruct (normalize m) as [tr [a0 a1 a2 a3 a4 a5 a6 a7 a8]].
  destruct m as [tr' [b0 b1 b2 b3 b4 b5 b6 b7 b8]].
  unfold column_x, column_y, column_z, Dot, Cross, vscale.
  cbn [fRotationMatrix r0 r1 r2 r3 r4 r5 r6 r7 r8 vx vy vz].
  intros Hcy Hzero Sx Sz.
  destruct (Rlt_dec _ 0) as [Hneg | Hpos] in Hcy; injection Hcy as -> -> ->.
  - split; [ring |]. split; [ring |]. split; [nra |].
    rewrite <- Hzero. split.
    + intros (_ & _ & _ & _ & H & _). exact H.
    + intros H. repeat split; try nra; nsatz.
  - split; [ring |]. split; [ring |]. split; [nra |].
    rewrite <- Hzero. split.
    + intros (_ & _ & _ & _ & H & _). exact H.
    + intros H. repeat split; try nra; nsatz.
Qed.

(** X11. On a matrix whose first and third columns are not zero,
    "Normalize" is idempotent: a second pass changes nothing. *)
Theorem normalize_idempotent (m : TGeoHMatrix) :
  Mag (column_x m) <> 0 -> Mag (column_z m) <> 0 ->
  normalize (normalize m) = normalize m.
Proof.
  intros Hx Hz.
  destruct (normalize_columns m) as (Ht & Hcx & Hcz & Hcy).
  destruct (normalize_columns (normalize m)) as (Ht' & Hcx' & Hcz' & Hcy').
  pose proof (Mag_unit _ Hx) as Ux. pose proof (Mag_unit _ Hz) as Uz.
  rewrite <- Hcx in Ux. rewrite <- Hcz in Uz.
  rewrite Ux, vscale_one in Hcx'. rewrite Uz, vscale_one in Hcz'.
  apply matrix_by_columns; [exact Ht' | exact Hcx' | | exact Hcz'].
  rewrite Hcy'. rewrite Hcx', Hcz'. rewrite Hcy. cbv zeta.
  set (c := Cross (column_x (normalize m)) (column_z (normalize m))).
  assert (Hcc : 0 <= Dot c c) by (unfold Dot; nra).
  destruct (Rlt_dec (Dot c (column_y m)) 0) as [Hneg | Hpos].
  - assert (Hd : Dot c (vscale (-1) c) = - Dot c c)
      by (unfold Dot, vscale; cbn [vx vy vz]; ring).
    destruct (Rlt_dec (Dot c (vscale (-1) c)) 0) as [Hneg' | Hpos']; [reflexivity |].
    assert (Hc0 : Dot c c = 0) by lra.
    destruct c as [c0 c1 c2]. unfold Dot in Hc0. cbn [vx vy vz] in Hc0.
    assert (c0 = 0) by nra. assert (c1 = 0) by nra. assert (c2 = 0) by nra.
    subst. unfold vscale. cbn [vx vy vz]. f_equal; ring.
  - destruct (Rlt_dec (Dot c c) 0) as [Hneg' | Hpos']; [lra | reflexivity].
Qed.

(** ** The cache of a rigid calibration *)

(** Every index of the cache is the slot of a stage of a sector. *)
Lemma slot_covers (i : Z) :
  (0 <= i < Z.of_nat cache_size)%Z ->
  exists sector k, (1 <= sector <= 24)%Z /\ (0 <= k < kTotalTpcSectorRotaions)%Z
                   /\ slot sector k = i.
Proof.
  unfold cache_size, slot, kTotalTpcSectorRotaions. intros Hi.
  exists (i / 14 + 1)%Z, (i mod 14)%Z.
  pose proof (Z.mod_pos_bound i 14 ltac:(lia)).
  pose proof (Z.div_mod i 14 ltac:(lia)).
  split; [| split]; lia.
Qed.

(** X12. With rigid calibration matrices the constructor leaves rigid
    transforms only: [tpc2global_] and each of the 336 matrices of the
    cache has an orthonormal rotation array. *)
Theorem cache_rigid (cfg : Configurator) :
  calibration_rigid cfg ->
  exists ct, new_CoordTransform cfg = Some ct
             /\ rigid (tpc2global_ ct)
             /\ length (sector_rotations_ ct) = 336%nat
             /\ Forall rigid (sector_rotations_ ct).
Proof.
  intros Hcal.
  destruct (new_CoordTransform_spec cfg Hcal) as (ct & Hnew & Hcfg & [Hlen Hg] & Hf).
  exists ct. split; [exact Hnew |]. split; [exact Hg |]. split; [exact Hlen |].
  apply Forall_lookup. intros i m Hm.
  pose proof (lookup_lt_Some _ _ _ Hm) as Hi.
  destruct (slot_covers (Z.of_nat i)) as (sector & k & Hs & Hk & Hslot); [lia |].
  pose proof (filled_stage ct sector k Hf Hs Hk) as Hstage.
  unfold sector_rotation, lookupZ in Hstage. rewrite Hslot in Hstage.
  destruct (Z.ltb_spec (Z.of_nat i) 0); [lia |].
  rewrite Nat2Z.id, Hm in Hstage. injection Hstage as ->.
  apply rigid_stage_product; [rewrite Hcfg; exact Hcal | exact Hg].
Qed.

(** X13. With rigid calibration matrices, the six pad stages of every
    sector duplicate the subsector stages: each Pad slot holds the matrix
    of the SubS slot of the same side and target.  The inner SubS to
    SupS is the exchange of x and y with z negated, for every sector. *)
Theorem pad_stages_duplicate (cfg : Configurator) :
  calibration_rigid cfg ->
  exists ct, new_CoordTransform cfg = Some ct
  /\ forall sector, (1 <= sector <= 24)%Z ->
       PadInner2SupS ct sector = SubSInner2SupS ct sector
       /\ PadOuter2SupS ct sector = SubSOuter2SupS ct sector
       /\ PadInner2Tpc ct sector = SubSInner2Tpc ct sector
       /\ PadOuter2Tpc ct sector = SubSOuter2Tpc ct sector
       /\ PadInner2Glob ct sector = SubSInner2Glob ct sector
       /\ PadOuter2Glob ct sector = SubSOuter2Glob ct sector
       /\ exists flip, SubSInner2SupS ct sector = Some flip
            /\ forall p, LocalToMasterVect flip p = mkCoords (y p) (x p) (- z p).
Proof.
  intros Hcal.
  destruct (new_CoordTransform_spec cfg Hcal) as (ct & Hnew & Hcfg & Hwf & Hf).
  exists ct. split; [exact Hnew |].
  intros sector Hs.
  pose proof (fun k Hk => filled_stage ct sector k Hf Hs Hk) as Hget.
  unfold kTotalTpcSectorRotaions in Hget.
  unfold SubSInner2SupS, SubSOuter2SupS, SubSInner2Tpc, SubSOuter2Tpc,
    SubSInner2Glob, SubSOuter2Glob, PadInner2SupS, PadOuter2SupS,
    PadInner2Tpc, PadOuter2Tpc, PadInner2Glob, PadOuter2Glob.
  repeat match goal with
         | |- context [sector_rotation ct sector ?k] =>
             rewrite (Hget k ltac:(vm_compute; split; [discriminate | reflexivity]))
         end.
  repeat (split; [reflexivity |]).
  eexists. split; [reflexivity |].
  intros [px py pz]. unfold LocalToMasterVect, stage_product, flip_matrix. simpl.
  f_equal; ring.
Qed.

(** ** Local sector coordinates and local coordinates *)

(** The transpose of an orthonormal array undoes it. *)
Lemma MasterToLocalVect_LocalToMasterVect m p :
  rigid m -> MasterToLocalVect m (LocalToMasterVect m p) = p.
Proof.
  destruct m as [tr [a0 a1 a2 a3 a4 a5 a6 a7 a8]]. destruct p as [px py pz].
  unfold rigid, orthonormal, MasterToLocalVect, LocalToMasterVect. simpl.
  intros (A1 & A2 & A3 & A4 & A5 & A6). f_equal; nsatz.
Qed.

(** The rows of an orthonormal array are orthonormal as well. *)
Lemma orthonormal_rows (r : Rotation) :
  orthonormal r ->
  r0 r * r0 r + r1 r * r1 r + r2 r * r2 r = 1
  /\ r3 r * r3 r + r4 r * r4 r + r5 r * r5 r = 1
  /\ r6 r * r6 r + r7 r * r7 r + r8 r * r8 r = 1
  /\ r0 r * r3 r + r1 r * r4 r + r2 r * r5 r = 0
  /\ r0 r * r6 r + r1 r * r7 r + r2 r * r8 r = 0
  /\ r3 r * r6 r + r4 r * r7 r + r5 r * r8 r = 0.
Proof.
  destruct r as [a0 a1 a2 a3 a4 a5 a6 a7 a8]. unfold orthonormal. simpl.
  intros (A1 & A2 & A3 & A4 & A5 & A6).
  set (c0 := a3 * a8 - a5 * a6). set (c1 := a6 * a2 - a8 * a0).
  set (c2 := a0 * a5 - a2 * a3).
  set (e := c0 * a1 + c1 * a4 + c2 * a7).
  assert (E0 : a1 = e * c0) by (subst e c0 c1 c2; nsatz).
  assert (E1 : a4 = e * c1) by (subst e c0 c1 c2; nsatz).
  assert (E2 : a7 = e * c2) by (subst e c0 c1 c2; nsatz).
  assert (Ee : e * e = 1) by (subst e c0 c1 c2; nsatz).
  assert (Hprod : forall u v p q : R, u = e * p -> v = e * q -> u * v = p * q).
  { intros u v p q -> ->. replace (e * p * (e * q)) with (e * e * (p * q)) by ring.
    rewrite Ee. ring. }
  pose proof (Hprod _ _ _ _ E0 E0) as P00. pose proof (Hprod _ _ _ _ E1 E1) as P11.
  pose proof (Hprod _ _ _ _ E2 E2) as P22. pose proof (Hprod _ _ _ _ E0 E1) as P01.
  pose proof (Hprod _ _ _ _ E0 E2) as P02. pose proof (Hprod _ _ _ _ E1 E2) as P12.
  rewrite P00, P11, P22, P01, P02, P12.
  clear Hprod P00 P11 P22 P01 P02 P12 E0 E1 E2 Ee. subst c0 c1 c2. clear e.
  repeat split; nsatz.
Qed.

Lemma LocalToMasterVect_MasterToLocalVect m p :
  rigid m -> LocalToMasterVect m (MasterToLocalVect m p) = p.
Proof.
  intros Hm. apply orthonormal_rows in Hm. revert Hm.
  destruct m as [tr [a0 a1 a2 a3 a4 a5 a6 a7 a8]]. destruct p as [px py pz].
  unfold MasterToLocalVect, LocalToMasterVect. simpl.
  intros (A1 & A2 & A3 & A4 & A5 & A6). f_equal; nsatz.
Qed.

(** X14. A local sector coordinate survives the way to a local
    coordinate and back, when the pad frames of its sector are rigid:
    the position and the sector come back unchanged, and so does the row
    when it was in [1, padRows]; a row out of range comes back as the
    row in range that the first conversion derived. *)
Theorem local_round_trip (ct : CoordTransform) (st : YToRowStatics)
    (a : StTpcLocalSectorCoordinate) :
  (1 <= padRows (S_tpcPadPlanes (cfg_ ct)))%Z ->
  statics_reachable st ->
  pad_frames_rigid ct (sector a) ->
  exists b st',
    local_sector_to_local ct st a = Some (b, st')
    /\ local_sector b = sector a
    /\ (1 <= local_row b <= padRows (S_tpcPadPlanes (cfg_ ct)))%Z
    /\ ((1 <= row a <= padRows (S_tpcPadPlanes (cfg_ ct)))%Z -> local_row b = row a)
    /\ local_to_local_sector ct st' b
       = Some (mkLocalSector (position a) (sector a) (local_row b), st').
Proof.
  intros Hrows Hreach Hrigid. unfold local_sector_to_local.
  destruct (effective_row_range ct st (row a) (y (position a)) (sector a)
              Hrows Hreach) as (row' & st' & Hrow & Hrange & Hreach').
  rewrite Hrow. cbn [mbind option_bind].
  eexists. eexists. split; [reflexivity |].
  cbn [local_sector local_row local_position].
  split; [reflexivity |]. split; [exact Hrange |]. split.
  - intros Hin. revert Hrow.
    destruct (Z.ltb_spec (row a) 1); [lia |].
    destruct (Z.gtb_spec (row a) (padRows (S_tpcPadPlanes (cfg_ ct)))); [lia |].
    simpl. intros Heq. injection Heq as <- _. reflexivity.
  - unfold local_to_local_sector. cbn [local_sector local_row local_position].
    destruct (Z.ltb_spec row' 1); [lia |].
    destruct (Z.gtb_spec row' (padRows (S_tpcPadPlanes (cfg_ ct)))); [lia |].
    cbn [orb mbind option_bind]. f_equal. f_equal. f_equal.
    specialize (Hrigid row' Hrange).
    rewrite <- (MasterToLocalVect_LocalToMasterVect _ (position a) Hrigid) at 2.
    f_equal.
    unfold TGeoTranslation_MasterToLocal, TGeoTranslation_LocalToMaster,
      TGeoTranslation, GetTranslation.
    cbn [fTranslation vx vy vz x y z].
    destruct (LocalToMasterVect (Pad2Tpc ct (sector a) row') (position a)).
    cbn [x y z]. f_equal; ring.
Qed.

(** X15. The other way round: a local coordinate with a row in
    [1, padRows] survives the way to a local sector coordinate and back
    unchanged, when the pad frame of its sector and row is rigid. *)
Theorem local_coordinate_round_trip (ct : CoordTransform) (st : YToRowStatics)
    (a : StTpcLocalCoordinate) :
  (1 <= local_row a <= padRows (S_tpcPadPlanes (cfg_ ct)))%Z ->
  rigid (Pad2Tpc ct (local_sector a) (local_row a)) ->
  exists b, local_to_local_sector ct st a = Some (b, st)
            /\ local_sector_to_local ct st b = Some (a, st).
Proof.
  intros Hrange Hrigid. unfold local_to_local_sector.
  destruct (Z.ltb_spec (local_row a) 1); [lia |].
  destruct (Z.gtb_spec (local_row a) (padRows (S_tpcPadPlanes (cfg_ ct)))); [lia |].
  cbn [orb mbind option_bind]. eexists. split; [reflexivity |].
  unfold local_sector_to_local. cbn [row sector position].
  destruct (Z.ltb_spec (local_row a) 1); [lia |].
  destruct (Z.gtb_spec (local_row a) (padRows (S_tpcPadPlanes (cfg_ ct)))); [lia |].
  cbn [orb mbind option_bind]. f_equal. f_equal.
  rewrite (LocalToMasterVect_MasterToLocalVect _ _ Hrigid).
  destruct a as [[px py pz] s r].
  unfold TGeoTranslation_MasterToLocal, TGeoTranslation_LocalToMaster,
    TGeoTranslation, GetTranslation.
  cbn [fTranslation vx vy vz x y z local_position local_sector local_row].
  f_equal. f_equal; ring.
Qed.

Lemma LocalToMasterVect_isometry m p q :
  rigid m ->
  CoordsOps.mag (CoordsOps.minus (LocalToMasterVect m p) (LocalToMasterVect m q))
  = CoordsOps.mag (CoordsOps.minus p q).
Proof.
  destruct m as [tr [a0 a1 a2 a3 a4 a5 a6 a7 a8]].
  destruct p as [px py pz]. destruct q as [qx qy qz].
  unfold rigid, orthonormal, CoordsOps.mag, CoordsOps.minus, LocalToMasterVect.
  simpl. intros (A1 & A2 & A3 & A4 & A5 & A6). f_equal. nsatz.
Qed.

(** X16. The conversion to local coordinates keeps distances: two
    local sector coordinates of the same sector and the same row in
    [1, padRows] are as far apart after [local_sector_to_local] as
    before, when the pad frame of the sector and row is rigid. *)
Theorem local_sector_to_local_isometry (ct : CoordTransform) (st : YToRowStatics)
    (a b : StTpcLocalSectorCoordinate) :
  (1 <= row a <= padRows (S_tpcPadPlanes (cfg_ ct)))%Z ->
  sector b = sector a -> row b = row a ->
  rigid (Pad2Tpc ct (sector a) (row a)) ->
  exists a' b',
    local_sector_to_local ct st a = Some (a', st)
    /\ local_sector_to_local ct st b = Some (b', st)
    /\ CoordsOps.mag (CoordsOps.minus (local_position a') (local_position b'))
       = CoordsOps.mag (CoordsOps.minus (position a) (position b)).
Proof.
  intros Hrange Hs Hr Hrigid. unfold local_sector_to_local. rewrite Hs, Hr.
  destruct (Z.ltb_spec (row a) 1); [lia |].
  destruct (Z.gtb_spec (row a) (padRows (S_tpcPadPlanes (cfg_ ct)))); [lia |].
  cbn [orb mbind option_bind]. eexists. eexists.
  split; [reflexivity |]. split; [reflexivity |].
  cbn [local_position].
  rewrite <- (LocalToMasterVect_isometry _ (position a) (position b) Hrigid).
  unfold TGeoTranslation_LocalToMaster, TGeoTranslation, GetTranslation,
    CoordsOps.mag, CoordsOps.minus.
  cbn [fTranslation vx vy vz x y z].
  f_equal. ring.
Qed.

(** ** More on the scalar conversions *)

(** X22. With a positive pad pitch, [PadToX] after [XToPad] returns
    [x] up to the position of pad 0.500001, and that position for every
    [x] beyond it: the clamp of [XToPad] saturates the round trip at the
    edge of the row. *)
Theorem PadToX_XToPad_saturates (ct : CoordTransform) (x : R) (sector row : Z) :
  0 < pitch_of ct row ->
  PadToX ct sector row (XToPad ct x sector row)
  = Rmin x (PadToX ct sector row 0.500001).
Proof.
  intros Hpitch. rewrite XToPad_unfold, !PadToX_unfold. unfold linear_pad.
  set (m := (IZR (npads_of ct row) + 1) / 2).
  set (p := pitch_of ct row) in *.
  assert (Hx : x = x / p * p) by (field; lra).
  set (q := x / p) in *.
  destruct (Rlt_dec (m - q) 0.500001) as [Hlt | Hge].
  - rewrite Rmin_right; [reflexivity |]. rewrite Hx. nra.
  - rewrite Rmin_left; [rewrite Hx; ring |]. rewrite Hx. nra.
Qed.

(** X23. For a sector in 1..24 and a row of at least 1, [ZToTime]
    returns a time bucket for every [z], and [TimeToZ] takes that time
    bucket back to [z], when neither the drift velocity nor the width of
    a time bin is zero. *)
Theorem TimeToZ_ZToTime (ct : CoordTransform) (z : R) (sector row pad : Z) :
  tables_cover (cfg_ ct) ->
  (1 <= sector <= 24)%Z -> (1 <= row)%Z ->
  (1 <= padRows (S_tpcPadPlanes (cfg_ ct)))%Z ->
  DriftVelocity sector (cfg_ ct) <> 0 ->
  timebin_width_ ct <> 0 ->
  exists tb, ZToTime ct z sector row pad = Some tb
             /\ TimeToZ ct tb sector row pad = Some z.
Proof.
  intros Hcover Hs Hr Hp Hv Hw.
  destruct (ZToTime_defined ct z sector row pad Hcover Hs Hr Hp) as [tb Htb].
  exists tb. split; [exact Htb |].
  revert Htb. unfold TimeToZ, ZToTime.
  destruct (lookupZ (S_tpcPadrowT0 (cfg_ ct)) (sector - 1)) as [rec |];
    [simpl | discriminate].
  destruct (lookupZ (T0 rec) _) as [sectT0 |]; [simpl | discriminate].
  destruct (lookupZ (t0 (S_tpcSectorT0offset (cfg_ ct))) _) as [t0off |];
    [simpl | discriminate].
  intros Htb. injection Htb as Htb. subst tb. f_equal. field.
  repeat split; auto; lra.
Qed.

(** X24. For a sector in 1..24, [hardware_to_local_sector] returns
    exactly for the pad coordinates with a row of at least 1: a row
    beyond [padRows] is accepted, and kept as it is in the result, with
    the nominal radius taken at that row; a row below 1 reads before the
    zero-time table of the sector. *)
Theorem hardware_to_local_sector_defined_iff (ct : CoordTransform)
    (a : StTpcPadCoordinate) :
  tables_cover (cfg_ ct) ->
  (1 <= pad_sector a <= 24)%Z ->
  (1 <= padRows (S_tpcPadPlanes (cfg_ ct)))%Z ->
  (exists b, hardware_to_local_sector ct a = Some b
             /\ sector b = pad_sector a /\ row b = pad_row a
             /\ y (position b) = RadialDistanceAtRow (pad_row a) (cfg_ ct))
  <-> (1 <= pad_row a)%Z.
Proof.
  intros Hcover Hs Hp. unfold hardware_to_local_sector. split.
  - intros (b & Hb & _).
    destruct (Z.le_gt_cases 1 (pad_row a)) as [Hle | Hgt]; [exact Hle |].
    destruct (padrow_read_out_of_bounds ct (timeBucket a) 0 (pad_sector a)
                (pad_row a) (double_to_int (pad a)) ltac:(lia)) as [Hnone _].
    rewrite Hnone in Hb. discriminate.
  - intros Hr.
    destruct (TimeToZ_defined ct (timeBucket a) (pad_sector a) (pad_row a)
                (double_to_int (pad a)) Hcover Hs Hr Hp) as [tz Htz].
    rewrite Htz. cbn [mbind option_bind]. eexists.
    split; [reflexivity |]. repeat split.
Qed.

(** X26. For a transform with a cache of full size and a sector in
    1..24, [local_to_local_sector] returns for every local coordinate,
    whatever its row: the result has the same sector and a row in
    [1, padRows], which is the supplied row when that was in range and
    else the row that [YToRow] finds for the x of the position in the
    frame of the supersector. *)
Theorem local_to_local_sector_valid (ct : CoordTransform) (st : YToRowStatics)
    (a : StTpcLocalCoordinate) :
  cache_sized ct ->
  (1 <= padRows (S_tpcPadPlanes (cfg_ ct)))%Z ->
  statics_reachable st ->
  (1 <= local_sector a <= 24)%Z ->
  exists b st',
    local_to_local_sector ct st a = Some (b, st')
    /\ statics_reachable st'
    /\ sector b = local_sector a
    /\ (1 <= row b <= padRows (S_tpcPadPlanes (cfg_ ct)))%Z
    /\ ((1 <= local_row a <= padRows (S_tpcPadPlanes (cfg_ ct)))%Z ->
        row b = local_row a /\ st' = st)
    /\ (~ (1 <= local_row a <= padRows (S_tpcPadPlanes (cfg_ ct)))%Z ->
        exists supS, SupS2Tpc ct (local_sector a) = Some supS
          /\ YToRow ct st (x (MasterToLocalVect supS (local_position a)))
               (local_sector a) = Some (row b, st')).
Proof.
  intros Hlen Hrows Hreach Hs. unfold local_to_local_sector.
  destruct (sector_rotation_defined ct (local_sector a) kSupS2Tpc Hlen Hs
              ltac:(vm_compute; split; [discriminate | reflexivity]))
    as [supS HsupS].
  fold (SupS2Tpc ct (local_sector a)) in HsupS.
  destruct (effective_row_range ct st (local_row a)
              (x (MasterToLocalVect supS (local_position a))) (local_sector a)
              Hrows Hreach) as (row' & st' & Hrow & Hrange & Hreach').
  destruct (Z.ltb_spec (local_row a) 1) as [Hlow | Hge];
    [| destruct (Z.gtb_spec (local_row a) (padRows (S_tpcPadPlanes (cfg_ ct))))
         as [Hhigh | Hle]];
    cbn [orb] in Hrow |- *.
  3: { injection Hrow as <- <-. cbn [mbind option_bind].
       eexists. eexists. split; [reflexivity |]. cbn [sector row].
       split; [exact Hreach |]. split; [reflexivity |]. split; [lia |].
       split; [intros _; split; reflexivity | intros Hout; lia]. }
  all: rewrite HsupS; cbn [mbind option_bind]; rewrite Hrow;
    cbn [mbind option_bind]; eexists; eexists; split; [reflexivity |];
    cbn [sector row]; split; [exact Hreach' |]; split; [reflexivity |];
    split; [exact Hrange |]; split; [intros Hin; lia |];
    intros _; exists supS; split; [reflexivity | exact Hrow].
Qed.

End Coordinates.

(** ** Properties of the helix *)

Module HelixProperties.
Import Helix.

Section Validation.

Context {D : Type} {F : Floating D}.
Variable StThreeVector_bad : StThreeVector D -> D -> Z.

Lemma first_violation_zero (l : list (bool * Z)) :
  Forall (fun c => snd c <> 0%Z) l ->
  (first_violation l = 0%Z <-> Forall (fun c => fst c = false) l).
Proof.
  induction l as [| [b c] l IH]; intros Hnz.
  - simpl. split; [constructor | reflexivity].
  - apply Forall_cons in Hnz. destruct Hnz as [Hc Hnz]. simpl in Hc.
    simpl. destruct b.
    + split; [intros H; contradiction |].
      intros H. apply Forall_cons in H. destruct H as [H _]. discriminate.
    + rewrite (IH Hnz). split.
      * intros H. apply Forall_cons. split; [reflexivity | exact H].
      * intros H. apply Forall_cons in H. destruct H as [_ H]. exact H.
Qed.

(** C8. [bad] returns the code of the first violated check in the order
    non-finite dip angle (11), non-finite curvature (12), invalid origin
    with sub-code k (3 + 100 k), |dip| > 1.58 (21), ||dip| - pi/2| <
    1/WorldSize (31), |curvature| > WorldSize (22), negative curvature
    (32), |h| <> 1 (24); the codes are nonzero and differ from one
    another; and [bad] returns 0 exactly when no check is violated. *)
Theorem bad_first_violation (h : StHelix D) (WorldSize : D) :
  bad StThreeVector_bad h WorldSize
  = first_violation (checks StThreeVector_bad h WorldSize)
  /\ NoDup (0%Z :: map snd (checks StThreeVector_bad h WorldSize))
  /\ (bad StThreeVector_bad h WorldSize = 0%Z
      <-> Forall (fun c => fst c = false) (checks StThreeVector_bad h WorldSize)).
Proof.
  assert (Hcode : bad StThreeVector_bad h WorldSize
                  = first_violation (checks StThreeVector_bad h WorldSize)).
  { unfold bad, checks, M_PI. cbn [first_violation].
    repeat match goal with
           | |- context [if ?b then _ else _] => destruct b; try reflexivity
           end.
    lia. }
  assert (Hdistinct : NoDup (0%Z :: map snd (checks StThreeVector_bad h WorldSize))).
  { unfold checks. cbn [map snd].
    set (k := StThreeVector_bad (mOrigin h) WorldSize).
    repeat (apply NoDup_cons_2;
            [rewrite ?elem_of_cons, elem_of_nil; lia |]).
    apply NoDup_nil_2. }
  split; [exact Hcode |]. split; [exact Hdistinct |].
  rewrite Hcode. apply first_violation_zero.
  unfold checks. repeat (apply Forall_cons; split; [simpl; lia |]).
  apply Forall_nil_2.
Qed.

End Validation.

(** C9. In exact real arithmetic, a helix whose cached cosine and sine of
    the phase are those of its phase, and whose curvature is not zero
    unless it is flagged singular, is at its origin for [s = 0]. *)
Theorem at_zero_is_origin (h : StHelix R) :
  mCosPhase h = cos (mPhase h) ->
  mSinPhase h = sin (mPhase h) ->
  (mSingularity h = false -> mCurvature h <> 0) ->
  at_ h 0 = mOrigin h.
Proof.
  intros Hcos Hsin Hcurv.
  destruct h as [sing [ox oy oz] dip c ph hh cd sd cp sp].
  simpl in *. unfold at_, x, y, z; simpl.
  destruct sing.
  - f_equal; ring.
  - specialize (Hcurv eq_refl).
    replace (ph + 0 * IZR hh * c * cd) with ph by ring.
    subst cp sp. f_equal; field; exact Hcurv.
Qed.

(** The same over the extended reals, where a division of zero by zero
    is NaN: a helix with finite fields is at its origin for [s = 0]. *)
Lemma origin_at_zero_extended (sing : bool) (ox oy oz dip c ph cd sd : R) (hh : Z) :
  (sing = false -> c <> 0) ->
  at_ (mkHelix sing (mkThreeVector (Fin ox) (Fin oy) (Fin oz)) (Fin dip) (Fin c)
         (Fin ph) hh (Fin cd) (Fin sd) (Fin (cos ph)) (Fin (sin ph))) (Fin 0)
  = mkThreeVector (Fin ox) (Fin oy) (Fin oz).
Proof.
  intros Hcurv. unfold at_, x, y, z; simpl.
  destruct sing; simpl.
  - f_equal; f_equal; ring.
  - specialize (Hcurv eq_refl).
    destruct (Req_dec_T c 0) as [Hc | _]; [contradiction |].
    replace (ph + 0 * IZR hh * c * cd) with ph by ring.
    f_equal; f_equal; field; exact Hcurv.
Qed.

(** ** The helix as a curve, in exact reals *)

Lemma handedness_square (hh : Z) : Z.abs hh = 1%Z -> IZR hh * IZR hh = 1.
Proof.
  intros H. assert (hh = 1 \/ hh = -1)%Z as [-> | ->] by lia; simpl; lra.
Qed.

(** X17. The pointing vector [cat] of a helix whose cached cosines and
    sines are those of its angles, and whose handedness is 1 or -1, has
    length 1 at every path length, in the straight and in the curved
    case. *)
Theorem cat_is_unit (h : StHelix R) (s : R) :
  helix_consistent h -> Z.abs (mH h) = 1%Z -> mag2 (cat h s) = 1.
Proof.
  intros (Hcd & Hsd & Hcp & Hsp) Hh. apply handedness_square in Hh.
  destruct h as [sing [ox oy oz] dip c ph hh cd sd cp sp].
  simpl in *. subst cd sd cp sp.
  unfold mag2, cat, cx, cy, cz; simpl.
  destruct sing; simpl.
  - pose proof (sin2_cos2 dip) as H1. pose proof (sin2_cos2 ph) as H2.
    unfold Rsqr in H1, H2. nsatz.
  - set (a := ph + s * IZR hh * c * cos dip).
    pose proof (sin2_cos2 dip) as H1. pose proof (sin2_cos2 a) as H2.
    unfold Rsqr in H1, H2. nsatz.
Qed.

(** X18. Every point of a helix with nonzero curvature lies, in the
    xy-plane, on the circle of radius 1 / curvature about the centre
    (origin.x - cosPhase / curvature, origin.y - sinPhase / curvature). *)
Theorem helix_on_circle (h : StHelix R) (s : R) :
  mSingularity h = false -> mCurvature h <> 0 ->
  (x h s - circle_center_x h) * (x h s - circle_center_x h)
  + (y h s - circle_center_y h) * (y h s - circle_center_y h)
  = 1 / mCurvature h * (1 / mCurvature h).
Proof.
  destruct h as [sing [ox oy oz] dip c ph hh cd sd cp sp].
  simpl. intros -> Hc. unfold x, y, circle_center_x, circle_center_y; simpl.
  set (a := ph + s * IZR hh * c * cd).
  pose proof (sin2_cos2 a) as H. unfold Rsqr in H.
  replace (ox + (cos a - cp) / c - (ox - cp / c)) with (cos a / c) by (field; exact Hc).
  replace (oy + (sin a - sp) / c - (oy - sp / c)) with (sin a / c) by (field; exact Hc).
  replace (cos a / c * (cos a / c) + sin a / c * (sin a / c))
    with ((sin a * sin a + cos a * cos a) / (c * c)) by (field; exact Hc).
  rewrite H. field. exact Hc.
Qed.

Lemma derivable_pt_lim_ext (f g : R -> R) (s l : R) :
  (forall t, f t = g t) -> derivable_pt_lim f s l -> derivable_pt_lim g s l.
Proof.
  intros Heq Hf eps Heps. destruct (Hf eps Heps) as [delta Hd].
  exists delta. intros d Hd0 Hlt. rewrite <- !Heq. apply Hd; assumption.
Qed.

Lemma derivable_pt_lim_linear (a k s : R) :
  derivable_pt_lim (fun t => a + t * k) s k.
Proof.
  apply (derivable_pt_lim_ext (fct_cte a + id * fct_cte k)%F).
  - intros t. reflexivity.
  - replace k with (0 + (1 * fct_cte k s + id s * 0)) at 2
      by (unfold fct_cte, id; ring).
    apply derivable_pt_lim_plus; [apply derivable_pt_lim_const |].
    apply derivable_pt_lim_mult;
      [apply derivable_pt_lim_id | apply derivable_pt_lim_const].
Qed.

Lemma derivable_pt_lim_cos_linear (a k s : R) :
  derivable_pt_lim (fun t => cos (a + t * k)) s (- sin (a + s * k) * k).
Proof.
  apply (derivable_pt_lim_ext (comp cos (fun t => a + t * k))).
  - intros t. reflexivity.
  - apply derivable_pt_lim_comp.
    + apply derivable_pt_lim_linear.
    + apply derivable_pt_lim_cos.
Qed.

Lemma derivable_pt_lim_sin_linear (a k s : R) :
  derivable_pt_lim (fun t => sin (a + t * k)) s (cos (a + s * k) * k).
Proof.
  apply (derivable_pt_lim_ext (comp sin (fun t => a + t * k))).
  - intros t. reflexivity.
  - apply derivable_pt_lim_comp.
    + apply derivable_pt_lim_linear.
    + apply derivable_pt_lim_sin.
Qed.

(** The derivative of [o + (f t - b) / c]. *)
Lemma derivable_pt_lim_chord (f : R -> R) (o b c s l : R) :
  derivable_pt_lim f s l ->
  derivable_pt_lim (fun t => o + (f t - b) / c) s (l / c).
Proof.
  intros Hf.
  apply (derivable_pt_lim_ext (fct_cte o + mult_real_fct (/ c) (f - fct_cte b))%F).
  - intros t. unfold plus_fct, mult_real_fct, minus_fct, fct_cte, Rdiv. ring.
  - replace (l / c) with (0 + / c * (l - 0)) by (unfold Rdiv; ring).
    apply derivable_pt_lim_plus; [apply derivable_pt_lim_const |].
    apply derivable_pt_lim_scal.
    apply derivable_pt_lim_minus; [exact Hf | apply derivable_pt_lim_const].
Qed.

(** X19. The pointing vector is the derivative of the position: at
    every path length [s], [cx], [cy] and [cz] are the derivatives of
    [x], [y] and [z] with respect to the path length, for a straight
    helix and for a helix with nonzero curvature. *)
Theorem cat_is_derivative (h : StHelix R) (s : R) :
  (mSingularity h = false -> mCurvature h <> 0) ->
  derivable_pt_lim (x h) s (cx h s)
  /\ derivable_pt_lim (y h) s (cy h s)
  /\ derivable_pt_lim (z h) s (cz h s).
Proof.
  destruct h as [sing [ox oy oz] dip c ph hh cd sd cp sp].
  simpl. intros Hc. unfold x, y, z, cx, cy, cz; simpl.
  split; [| split].
  - destruct sing.
    + apply (derivable_pt_lim_ext (fun t => ox + t * (- (cd * sp)))).
      * intros t. ring.
      * replace (0 - cd * sp) with (- (cd * sp)) by ring.
        apply derivable_pt_lim_linear.
    + specialize (Hc eq_refl).
      apply (derivable_pt_lim_ext
               (fun t => ox + (cos (ph + t * (IZR hh * c * cd)) - cp) / c)).
      * intros t. do 3 f_equal. f_equal. ring.
      * replace ((0 - sin (ph + s * IZR hh * c * cd)) * IZR hh * cd)
          with (- sin (ph + s * (IZR hh * c * cd)) * (IZR hh * c * cd) / c).
        -- apply derivable_pt_lim_chord, derivable_pt_lim_cos_linear.
        -- replace (ph + s * (IZR hh * c * cd)) with (ph + s * IZR hh * c * cd) by ring.
           field. exact Hc.
  - destruct sing.
    + apply (derivable_pt_lim_ext (fun t => oy + t * (cd * cp))).
      * intros t. ring.
      * apply derivable_pt_lim_linear.
    + specialize (Hc eq_refl).
      apply (derivable_pt_lim_ext
               (fun t => oy + (sin (ph + t * (IZR hh * c * cd)) - sp) / c)).
      * intros t. do 3 f_equal. f_equal. ring.
      * replace (cos (ph + s * IZR hh * c * cd) * IZR hh * cd)
          with (cos (ph + s * (IZR hh * c * cd)) * (IZR hh * c * cd) / c).
        -- apply derivable_pt_lim_chord, derivable_pt_lim_sin_linear.
        -- replace (ph + s * (IZR hh * c * cd)) with (ph + s * IZR hh * c * cd) by ring.
           field. exact Hc.
  - apply derivable_pt_lim_linear.
Qed.

Lemma cos_shift_turn (a : R) (hh : Z) :
  Z.abs hh = 1%Z -> cos (a + 2 * PI * IZR hh) = cos a.
Proof.
  intros H. assert (hh = 1 \/ hh = -1)%Z as [-> | ->] by lia.
  - rewrite Rmult_1_r, cos_plus, cos_2PI, sin_2PI. ring.
  - replace (a + 2 * PI * -1) with (a - 2 * PI) by ring.
    rewrite cos_minus, cos_2PI, sin_2PI. ring.
Qed.

Lemma sin_shift_turn (a : R) (hh : Z) :
  Z.abs hh = 1%Z -> sin (a + 2 * PI * IZR hh) = sin a.
Proof.
  intros H. assert (hh = 1 \/ hh = -1)%Z as [-> | ->] by lia.
  - rewrite Rmult_1_r, sin_plus, cos_2PI, sin_2PI. ring.
  - replace (a + 2 * PI * -1) with (a - 2 * PI) by ring.
    rewrite sin_minus, cos_2PI, sin_2PI. ring.
Qed.

(** X20. A helix with nonzero curvature, a nonzero cosine of the dip
    angle and handedness 1 or -1 repeats in the xy-plane after the path
    length 2 pi / (curvature * cosDipAngle), while z advances by that
    length times the sine of the dip angle. *)
Theorem helix_periodic (h : StHelix R) (s : R) :
  mSingularity h = false -> mCurvature h <> 0 -> mCosDipAngle h <> 0 ->
  Z.abs (mH h) = 1%Z ->
  x h (s + turn_length h) = x h s
  /\ y h (s + turn_length h) = y h s
  /\ z h (s + turn_length h) = z h s + turn_length h * mSinDipAngle h.
Proof.
  destruct h as [sing [ox oy oz] dip c ph hh cd sd cp sp].
  simpl. intros -> Hc Hcd Hh. unfold x, y, z, turn_length; simpl.
  replace (ph + (s + 2 * PI / (c * cd)) * IZR hh * c * cd)
    with (ph + s * IZR hh * c * cd + 2 * PI * IZR hh)
    by (field; split; assumption).
  rewrite (cos_shift_turn _ hh Hh), (sin_shift_turn _ hh Hh).
  split; [reflexivity |]. split; [reflexivity | ring].
Qed.

(** ** Validity over the extended reals *)

Lemma Rltb_false (a b : R) : Rltb a b = false <-> b <= a.
Proof. unfold Rltb. destruct (Rlt_dec a b); split; intros; try lra; congruence. Qed.

(** X21. Over the extended reals and for a finite positive world
    size, [valid] holds exactly for the helices with a finite dip angle
    and a finite curvature, an origin without defect, a dip angle of at
    most 1.58 in absolute value that stays 1 / world away from pi / 2, a
    curvature between 0 and the world size, and handedness 1 or -1. *)
Theorem valid_characterised (origin_bad : StThreeVector xreal -> xreal -> Z)
    (h : StHelix xreal) (w : R) :
  0 < w ->
  valid origin_bad h (Fin w) = true
  <-> exists dip c,
        mDipAngle h = Fin dip /\ mCurvature h = Fin c
        /\ origin_bad (mOrigin h) (Fin w) = 0%Z
        /\ Rabs dip <= 1.58
        /\ 1 / w <= Rabs (Rabs dip - PI / 2)
        /\ 0 <= c <= w
        /\ Z.abs (mH h) = 1%Z.
Proof.
  intros Hw.
  destruct h as [sing o dip c ph hh cd sd cp sp].
  unfold valid, bad, M_PI. cbn [mDipAngle mCurvature mOrigin mH].
  destruct dip as [d | | |]; cbn [finite xreal_Floating xfinite negb];
    try (split; [discriminate | intros (d' & c' & Hd & _); discriminate]).
  destruct c as [k | | |]; cbn [finite xreal_Floating xfinite negb];
    try (split; [discriminate | intros (d' & c' & _ & Hc & _); discriminate]).
  cbn [fabs fsub fdiv flt of_real xreal_Floating xabs xadd xneg xdiv xlt].
  destruct (Req_dec_T 2 0) as [H2 | _]; [lra |].
  destruct (Req_dec_T w 0) as [H0 | _]; [lra |].
  cbn [xadd xneg xabs xlt].
  replace (Rabs d + - (PI / 2)) with (Rabs d - PI / 2) by ring.
  destruct (Z.eqb_spec (origin_bad o (Fin w)) 0) as [Ho | Ho]; cbn [negb].
  2: { split.
       - intros H. apply Z.eqb_eq in H. lia.
       - intros (d' & c' & _ & _ & Ho' & _). contradiction. }
  destruct (Rltb 1.58 (Rabs d)) eqn:H21.
  { split; [discriminate |].
    intros (d' & c' & Hd & _ & _ & Hb & _). injection Hd as <-.
    apply Rltb_false in Hb. congruence. }
  apply Rltb_false in H21.
  destruct (Rltb (Rabs (Rabs d - PI / 2)) (1 / w)) eqn:H31.
  { split; [discriminate |].
    intros (d' & c' & Hd & _ & _ & _ & Hb & _). injection Hd as <-.
    apply Rltb_false in Hb. congruence. }
  apply Rltb_false in H31.
  destruct (Rltb w (Rabs k)) eqn:H22.
  { split; [discriminate |].
    intros (d' & c' & _ & Hc & _ & _ & _ & [Hk0 Hkw] & _). injection Hc as <-.
    rewrite Rabs_pos_eq in H22 by exact Hk0.
    apply Rltb_false in Hkw. congruence. }
  apply Rltb_false in H22.
  destruct (Rltb k 0) eqn:H32.
  { split; [discriminate |].
    intros (d' & c' & _ & Hc & _ & _ & _ & [Hk0 Hkw] & _). injection Hc as <-.
    apply Rltb_false in Hk0. congruence. }
  apply Rltb_false in H32.
  destruct (Z.eqb_spec (Z.abs hh) 1) as [Hh | Hh]; cbn [negb].
  - split; [intros _ | reflexivity].
    exists d, k. repeat split; try assumption.
    rewrite Rabs_pos_eq in H22 by exact H32. exact H22.
  - split; [discriminate |].
    intros (d' & c' & _ & _ & _ & _ & _ & _ & Hh'). contradiction.
Qed.

End HelixProperties.

(** ** Properties of the operations on [Coords] *)

Module CoordsProperties.
Import CoordsOps.

Lemma sum_squares_nonneg (a b c : R) : 0 <= a * a + b * b + c * c.
Proof. nra. Qed.

Lemma mag_sqr (c : Coords) : mag c * mag c = dot c c.
Proof. unfold mag, dot. apply sqrt_sqrt. apply sum_squares_nonneg. Qed.

Lemma mag_nonneg (c : Coords) : 0 <= mag c.
Proof. unfold mag. apply sqrt_pos. Qed.

Lemma mag_zero (c : Coords) : mag c = 0 -> c = mkCoords 0 0 0.
Proof.
  intros H. pose proof (mag_sqr c) as Hs. rewrite H in Hs. unfold dot in Hs.
  destruct c as [a b d]. simpl in *.
  assert (a = 0) by nra. assert (b = 0) by nra. assert (d = 0) by nra.
  subst. reflexivity.
Qed.

(** X1. [unit] maps the zero vector to the zero vector; every other
    vector it scales to magnitude 1 without changing its direction. *)
Theorem unit_normalizes :
  unit (mkCoords 0 0 0) = mkCoords 0 0 0
  /\ forall c, c <> mkCoords 0 0 0 ->
       mag (unit c) = 1
       /\ mkCoords (x (unit c) * mag c) (y (unit c) * mag c) (z (unit c) * mag c) = c.
Proof.
  split.
  - unfold unit. destruct (Req_dec_T (mag (mkCoords 0 0 0)) 0) as [_ | Hne];
      [reflexivity |].
    exfalso. apply Hne. unfold mag. simpl.
    replace (0 * 0 + 0 * 0 + 0 * 0) with 0 by ring. apply sqrt_0.
  - intros c Hc. unfold unit.
    destruct (Req_dec_T (mag c) 0) as [Hz | Hnz];
      [exfalso; apply Hc, mag_zero, Hz |].
    pose proof (mag_sqr c) as Hs. unfold dot in Hs.
    destruct c as [a b d]. simpl in *.
    set (m := mag (mkCoords a b d)) in *.
    split.
    + unfold mag; simpl.
      replace (a / m * (a / m) + b / m * (b / m) + d / m * (d / m))
        with ((a * a + b * b + d * d) / (m * m)) by (field; exact Hnz).
      rewrite <- Hs.
      replace (m * m / (m * m)) with 1 by (field; exact Hnz).
      apply sqrt_1.
    + f_equal; field; exact Hnz.
Qed.

(** X2. [mag] is a norm that goes with the dot product: [perp] is at
    most [mag], [mag] vanishes on the zero vector only, its square is
    the dot product of the vector with itself, and the
    Cauchy-Schwarz and triangle inequalities hold. *)
Theorem mag_is_norm (a b : Coords) :
  0 <= perp a <= mag a
  /\ (mag a = 0 <-> a = mkCoords 0 0 0)
  /\ mag a * mag a = dot a a
  /\ Rabs (dot a b) <= mag a * mag b
  /\ mag (minus a b) <= mag a + mag b.
Proof.
  pose proof (mag_sqr a) as Ha. pose proof (mag_sqr b) as Hb.
  pose proof (mag_nonneg a) as Hna. pose proof (mag_nonneg b) as Hnb.
  assert (Hcs : Rabs (dot a b) <= mag a * mag b).
  { rewrite <- (Rabs_pos_eq (mag a * mag b)) by nra.
    apply Rsqr_le_abs_0. unfold Rsqr.
    replace (mag a * mag b * (mag a * mag b))
      with ((mag a * mag a) * (mag b * mag b)) by ring.
    rewrite Ha, Hb. unfold dot.
    destruct a as [a1 a2 a3], b as [b1 b2 b3]. simpl.
    pose proof (Rle_0_sqr (a1 * b2 - a2 * b1)) as H1.
    pose proof (Rle_0_sqr (a1 * b3 - a3 * b1)) as H2.
    pose proof (Rle_0_sqr (a2 * b3 - a3 * b2)) as H3.
    unfold Rsqr in H1, H2, H3. lra. }
  split; [| split; [| split; [exact Ha | split; [exact Hcs |]]]].
  - split; [unfold perp; apply sqrt_pos |].
    unfold perp, mag. apply sqrt_le_1_alt. nra.
  - split; [apply mag_zero |]. intros ->. unfold mag. simpl.
    replace (0 * 0 + 0 * 0 + 0 * 0) with 0 by ring. apply sqrt_0.
  - apply Rsqr_incr_0_var; [| nra]. unfold Rsqr.
    rewrite (mag_sqr (minus a b)).
    replace ((mag a + mag b) * (mag a + mag b))
      with (mag a * mag a + 2 * (mag a * mag b) + mag b * mag b) by ring.
    rewrite Ha, Hb.
    assert (Hd : dot (minus a b) (minus a b) = dot a a - 2 * dot a b + dot b b).
    { unfold dot, minus. simpl. ring. }
    rewrite Hd. pose proof (Rle_abs (- dot a b)) as Hab. rewrite Rabs_Ropp in Hab.
    lra.
Qed.
(** X25. Dividing a vector by a nonzero number divides its length by
    the absolute value of that number. *)
Theorem div_scales_mag (c : Coords) (v : R) :
  v <> 0 -> mag (div c v) = mag c / Rabs v.
Proof.
  intros Hv. destruct c as [cx cy cz]. unfold mag, div. simpl.
  replace (cx / v * (cx / v) + cy / v * (cy / v) + cz / v * (cz / v))
    with ((cx * cx + cy * cy + cz * cz) / (v * v)) by (field; exact Hv).
  rewrite sqrt_div_alt by nra.
  f_equal. replace (v * v) with (Rsqr v) by reflexivity. apply sqrt_Rsqr_abs.
Qed.

End CoordsProperties.

(** ** The example configuration *)

Lemma example_calibration_rigid clock : calibration_rigid (example_cfg clock).
Proof. intros i. split; apply rigid_identity. Qed.

Lemma example_tables_cover clock : tables_cover (example_cfg clock).
Proof.
  unfold tables_cover. simpl. repeat split.
  - lia.
  - repeat constructor; simpl; lia.
  - lia.
Qed.

Lemma example_boundaries clock :
  build_Radii example_RadialDistanceAtRow (example_cfg clock) 4
  = [1/2; 3/2; 5/2; 7/2; 9/2].
Proof.
  unfold build_Radii, Zrange. simpl. unfold row_boundary, example_RadialDistanceAtRow. simpl.
  repeat match goal with
         | |- context [IZR ?n] =>
             let v := eval vm_compute in n in progress change (IZR n) with (IZR v)
         end.
  repeat (apply (f_equal2 cons); [lra |]). reflexivity.
Qed.

Lemma example_sorted clock :
  Sorted Rle (build_Radii example_RadialDistanceAtRow (example_cfg clock) 4).
Proof. rewrite example_boundaries. repeat constructor; lra. Qed.

Lemma example_YToRow clock :
  YToRow example_RadialDistanceAtRow (example_ct clock) statics_initial 0.7 1
  = Some (1%Z, statics_of example_RadialDistanceAtRow (example_cfg clock)).
Proof.
  rewrite YToRow_ok.
  2: { simpl. lia. }
  2: { apply initial_statics_ok. simpl. lia. }
  unfold search_row, statics_of. cbn [Nrows Radii cfg_ example_ct padRows S_tpcPadPlanes example_cfg].
  rewrite example_boundaries.
  unfold lower_bound. simpl. decide_R. simpl. unfold Reqb. decide_R. reflexivity.
Qed.

Lemma example_XToPad clock row :
  XToPad example_NumberOfPads (example_ct clock) 1 1 row
  = if (Z.min row 4 <=? 2)%Z then 4.5 else 5.
Proof.
  rewrite XToPad_unfold. unfold linear_pad, npads_of, pitch_of, clamped_row.
  cbn [cfg_ example_ct padRows innerPadRows innerSectorPadPitch outerSectorPadPitch
       S_tpcPadPlanes example_cfg]. unfold example_NumberOfPads.
  destruct (Z.min row 4 <=? 2)%Z; decide_R; lra.
Qed.


(** The scalar conversions read the calibration fields of the transform
    only, not its cache. *)
Lemma scalar_conversions_read_calibration
    (IsInner : Z -> Configurator -> bool)
    (NumberOfPads : Z -> Configurator -> Z)
    (RadialDistanceAtRow DriftVelocity : Z -> Configurator -> R)
    (to_float : R -> R) (ct ct' : CoordTransform) :
  same_calibration ct ct' ->
  (forall x s r, XToPad NumberOfPads ct' x s r = XToPad NumberOfPads ct x s r)
  /\ (forall tb s r p, TimeToZ IsInner DriftVelocity to_float ct' tb s r p
                       = TimeToZ IsInner DriftVelocity to_float ct tb s r p)
  /\ (forall z s r p, ZToTime IsInner DriftVelocity to_float ct' z s r p
                      = ZToTime IsInner DriftVelocity to_float ct z s r p)
  /\ (forall st a,
        local_sector_to_hardware IsInner NumberOfPads RadialDistanceAtRow
          DriftVelocity to_float ct' st a
        = local_sector_to_hardware IsInner NumberOfPads RadialDistanceAtRow
            DriftVelocity to_float ct st a).
Proof.
  destruct ct as [c w zi zo g l], ct' as [c' w' zi' zo' g' l'].
  unfold same_calibration. simpl. intros (-> & -> & -> & ->).
  repeat split; intros; reflexivity.
Qed.

Lemma example_constructed clock :
  exists ct, new_CoordTransform example_kUndefSector (example_cfg clock) = Some ct
             /\ same_calibration (example_ct clock) ct.
Proof.
  destruct (new_CoordTransform_spec example_kUndefSector (example_cfg clock)
              (example_calibration_rigid clock)) as (ct & Hnew & _).
  exists ct. split; [exact Hnew |].
  destruct (new_CoordTransform_calibration _ _ _ Hnew) as (H1 & H2 & H3 & H4).
  repeat split; assumption.
Qed.

Lemma example_TimeToZ_stopped :
  TimeToZ example_IsInner example_DriftVelocity example_to_float (example_ct 0) 1 1 1 1 = Some 0.
Proof.
  unfold TimeToZ. simpl. unfold example_DriftVelocity, example_to_float. f_equal.
  unfold Rdiv. rewrite Rinv_0. lra.
Qed.

Lemma example_ZToTime_stopped :
  ZToTime example_IsInner example_DriftVelocity example_to_float (example_ct 0) 0 1 1 1 = Some 0.
Proof.
  unfold ZToTime. simpl. unfold example_DriftVelocity, example_to_float. f_equal.
  unfold Rdiv. rewrite Rinv_0. lra.
Qed.

Lemma example_ZToTime_running z pad :
  ZToTime example_IsInner example_DriftVelocity example_to_float (example_ct 10) z 1 1 pad
  = Some (z * 10).
Proof.
  unfold ZToTime. simpl. unfold example_DriftVelocity, example_to_float. f_equal.
  field.
Qed.

Lemma example_YToRow_far clock :
  YToRow example_RadialDistanceAtRow (example_ct clock) statics_initial 2.7 1
  = Some (3%Z, statics_of example_RadialDistanceAtRow (example_cfg clock)).
Proof.
  rewrite YToRow_ok.
  2: { simpl. lia. }
  2: { apply initial_statics_ok. simpl. lia. }
  unfold search_row, statics_of.
  cbn [Nrows Radii cfg_ example_ct padRows S_tpcPadPlanes example_cfg].
  rewrite example_boundaries.
  unfold lower_bound. simpl. decide_R. simpl. unfold Reqb. decide_R. reflexivity.
Qed.


(** ** The properties on the example configuration *)

(** The round trips of C1 on the example with a clock of 10: pad 3 of
    row 1, and time bucket 100 in sector 1. *)
Lemma scalar_round_trips_witness :
  exists ct,
    new_CoordTransform example_kUndefSector (example_cfg 10) = Some ct
    /\ tables_cover (example_cfg 10)
    /\ frequency (S_starClockOnl (example_cfg 10)) <> 0
    /\ XToPad example_NumberOfPads ct
         (PadToX example_NumberOfPads ct 1 1 3) 1 1 = 3
    /\ exists z, TimeToZ example_IsInner example_DriftVelocity example_to_float
                   ct 100 1 1 50 = Some z
                 /\ ZToTime example_IsInner example_DriftVelocity example_to_float
                      ct z 1 1 50 = Some 100.
Proof.
  destruct (example_constructed 10) as (ct & Hnew & Hsame).
  assert (Hfreq : frequency (S_starClockOnl (example_cfg 10)) <> 0)
    by (simpl; lra).
  destruct (scalar_round_trips example_IsInner example_NumberOfPads
              example_DriftVelocity example_to_float example_kUndefSector
              (example_cfg 10) ct 1 1 Hnew (example_tables_cover 10) Hfreq
              ltac:(lia) ltac:(simpl; lia)) as [Hpad Htime].
  exists ct. split; [exact Hnew |]. split; [apply example_tables_cover |].
  split; [exact Hfreq |]. split.
  - apply Hpad; [| lra].
    destruct Hsame as (Hcfg & _). unfold pitch_of, clamped_row. rewrite Hcfg.
    simpl. lra.
  - apply Htime. unfold example_DriftVelocity. lra.
Defined.

(** With a clock frequency of zero the round trip of C1 fails as the
    spec states it: the tables cover the ranges, the drift velocity of sector 1
    is 1 and the pitch of row 1 is 1, yet [ZToTime] does not return time
    bucket 1 from what [TimeToZ] makes of it.  (Here the width of a time
    bin is 1e6 / 0; in the C++ program it is infinite and the round trip
    yields NaN.) *)
Lemma time_round_trip_needs_clock :
  exists ct z,
    new_CoordTransform example_kUndefSector (example_cfg 0) = Some ct
    /\ tables_cover (example_cfg 0)
    /\ example_DriftVelocity 1 (example_cfg 0) <> 0
    /\ pitch_of ct 1 <> 0
    /\ TimeToZ example_IsInner example_DriftVelocity example_to_float
         ct 1 1 1 1 = Some z
    /\ ZToTime example_IsInner example_DriftVelocity example_to_float
         ct z 1 1 1 <> Some 1.
Proof.
  destruct (example_constructed 0) as (ct & Hnew & Hsame).
  destruct (scalar_conversions_read_calibration example_IsInner
              example_NumberOfPads example_RadialDistanceAtRow
              example_DriftVelocity example_to_float _ _ Hsame)
    as (_ & HT & HZ & _).
  exists ct, 0. split; [exact Hnew |]. split; [apply example_tables_cover |].
  split; [unfold example_DriftVelocity; lra |].
  split.
  { destruct Hsame as (Hcfg & _). unfold pitch_of, clamped_row. rewrite Hcfg.
    simpl. lra. }
  split; [rewrite HT; apply example_TimeToZ_stopped |].
  rewrite HZ, example_ZToTime_stopped.
  intros H. injection H as H. lra.
Qed.

(** C2. At row 0 the read [T0[row - 1]] of [TimeToZ] and of [ZToTime]
    is out of bounds, for every configuration, sector and time: the
    functions clamp a row above [padRows] only. *)
Theorem padrow_read_before_table
    (IsInner : Z -> Configurator -> bool)
    (DriftVelocity : Z -> Configurator -> R) (to_float : R -> R)
    (ct : CoordTransform) (tb z : R) (sector pad : Z) :
  TimeToZ IsInner DriftVelocity to_float ct tb sector 0 pad = None
  /\ ZToTime IsInner DriftVelocity to_float ct z sector 0 pad = None.
Proof. apply padrow_read_out_of_bounds. lia. Qed.


(** C3. On the example, for the local sector coordinate with the
    out-of-range row 5 and y = 0.7, [local_sector_to_hardware] stores
    the re-derived row 1, but the pad 5 that [XToPad] computes for the
    supplied row 5; for the re-derived row [XToPad] gives 4.5. *)
Theorem stale_row_in_pad_conversion :
  exists ct,
    new_CoordTransform example_kUndefSector (example_cfg 10) = Some ct
    /\ local_sector_to_hardware example_IsInner example_NumberOfPads
         example_RadialDistanceAtRow example_DriftVelocity example_to_float
         ct statics_initial example_bad_row
       = Some (mkPad 1 1 5 0,
               statics_of example_RadialDistanceAtRow (example_cfg 10))
    /\ XToPad example_NumberOfPads ct 1 1 1 = 4.5
    /\ XToPad example_NumberOfPads ct 1 1 5 = 5.
Proof.
  destruct (example_constructed 10) as (ct & Hnew & Hsame).
  destruct (scalar_conversions_read_calibration example_IsInner
              example_NumberOfPads example_RadialDistanceAtRow
              example_DriftVelocity example_to_float _ _ Hsame)
    as (HX & _ & _ & HL).
  exists ct. split; [exact Hnew |].
  rewrite HL, !HX, !example_XToPad.
  split; [| split; reflexivity].
  unfold local_sector_to_hardware, example_bad_row.
  cbn [row sector position x y z].
  replace ((5 <? 1)%Z || (5 >? padRows (S_tpcPadPlanes (cfg_ (example_ct 10))))%Z)
    with true by reflexivity.
  rewrite example_YToRow. cbn [mbind option_bind].
  rewrite example_XToPad. cbn [Z.min Z.compare Pos.compare Pos.compare_cont Z.leb].
  rewrite example_ZToTime_running.
  cbn [mbind option_bind]. do 2 f_equal. f_equal. simpl. lra.
Qed.

(** The stage algebra of C4 on the example, for sector 1. *)
Lemma cached_stage_algebra_witness :
  calibration_rigid (example_cfg 10)
  /\ exists ct supS2Tpc subSInner2SupS subSInner2Tpc subSInner2Glob,
       new_CoordTransform example_kUndefSector (example_cfg 10) = Some ct
       /\ SupS2Tpc ct 1 = Some supS2Tpc
       /\ SubSInner2SupS ct 1 = Some subSInner2SupS
       /\ SubSInner2Tpc ct 1 = Some subSInner2Tpc
       /\ SubSInner2Glob ct 1 = Some subSInner2Glob
       /\ (subSInner2Tpc = supS2Tpc ** subSInner2SupS)%hm
       /\ (subSInner2Glob = tpc2global_ ct ** supS2Tpc ** subSInner2SupS)%hm.
Proof.
  split; [apply example_calibration_rigid |].
  destruct (cached_stage_algebra example_kUndefSector (example_cfg 10)
              (example_calibration_rigid 10)) as (ct & Hnew & _ & Halg).
  destruct (Halg 1%Z ltac:(lia))
    as (a & b & c & d & e & f & g & h & i & j & k & l & H).
  exists ct, a, c, e, g. intuition.
Defined.

(** The super-sector transforms of C5 on the example, for sectors 1
    and 13. *)
Lemma cached_supersector_to_tpc_witness :
  calibration_rigid (example_cfg 10)
  /\ exists ct,
       new_CoordTransform example_kUndefSector (example_cfg 10) = Some ct
       /\ SupS2Tpc ct 1
          = Some (TGeoTranslation 0 0 (drift_distance (example_cfg 10))
                  ** rotation_z (IZR ((360 + 90 - 30 * 1) mod 360))
                  ** StTpcSuperSectorPosition_GetMatrix (example_cfg 10) (1 - 1))%hm
       /\ SupS2Tpc ct 13
          = Some (TGeoTranslation 0 0 (- drift_distance (example_cfg 10))
                  ** (rotation_z (IZR ((90 + 30 * (13 - 12)) mod 360)) ** flip_y_z)
                  ** StTpcSuperSectorPosition_GetMatrix (example_cfg 10) (13 - 1))%hm.
Proof.
  split; [apply example_calibration_rigid |].
  destruct (cached_supersector_to_tpc example_kUndefSector (example_cfg 10)
              (example_calibration_rigid 10)) as (ct & Hnew & Hlow & Hhigh).
  exists ct. split; [exact Hnew |]. split.
  - apply Hlow. lia.
  - apply Hhigh. lia.
Defined.

(** C6 on the example: the rows of y = 0.7 and y = 2.7. *)
Lemma XToPad_lower_clamp_witness :
  Extended.at_least 0.500001
    (Extended.XToPad example_NumberOfPads (example_ct 10) (Fin 7) 1 1)
  /\ Extended.XToPad example_NumberOfPads (example_ct 10) (Fin 7) 1 1
     = Fin (XToPad example_NumberOfPads (example_ct 10) 7 1 1).
Proof.
  assert (Hpitch : pitch_of (example_ct 10) 1 <> 0)
    by (unfold pitch_of, clamped_row; simpl; lra).
  destruct (XToPad_lower_clamp example_NumberOfPads (example_ct 10) (Fin 7) 1 1
              ltac:(discriminate) ltac:(intros _ E; injection E; lra))
    as (Hbound & _ & _ & Hreal).
  split; [exact Hbound |].
  exact (proj1 (proj2 (Hreal 7 eq_refl Hpitch))).
Defined.

(** Against C7 as it is stated.  A position that is NaN passes the
    comparison [probablePad < 0.500001] and is returned as it is; so
    does the NaN that the quotient 0 / 0 gives for the position 0 in a
    configuration whose pad pitch is zero.  Neither result is a number
    of at least 0.500001. *)
Lemma XToPad_not_a_number :
  Extended.XToPad example_NumberOfPads (example_ct 10) NaN 1 1 = NaN
  /\ ~ Extended.at_least 0.500001
        (Extended.XToPad example_NumberOfPads (example_ct 10) NaN 1 1)
  /\ Extended.XToPad example_NumberOfPads example_ct_no_pitch (Fin 0) 1 1 = NaN
  /\ ~ Extended.at_least 0.500001
        (Extended.XToPad example_NumberOfPads example_ct_no_pitch (Fin 0) 1 1).
Proof.
  assert (H1 : Extended.XToPad example_NumberOfPads (example_ct 10) NaN 1 1 = NaN).
  { unfold Extended.XToPad. simpl.
    destruct (Req_dec_T 2 0) as [E | _]; [lra | reflexivity]. }
  assert (H2 : Extended.XToPad example_NumberOfPads example_ct_no_pitch (Fin 0) 1 1
               = NaN).
  { unfold Extended.XToPad. simpl.
    destruct (Req_dec_T 2 0) as [E | _]; [lra |].
    destruct (Req_dec_T 0 0) as [_ | E]; [| contradiction].
    unfold Rsign. destruct (Rlt_dec 0 0) as [E | _]; [lra |]. reflexivity. }
  rewrite H1, H2. simpl. tauto.
Qed.

Lemma YToRow_range_and_monotone_witness :
  (1 <= padRows (S_tpcPadPlanes (cfg_ (example_ct 10))))%Z
  /\ Sorted Rle (build_Radii example_RadialDistanceAtRow (cfg_ (example_ct 10))
                   (padRows (S_tpcPadPlanes (cfg_ (example_ct 10)))))
  /\ 0.7 < 2.7
  /\ exists row1 row2 st1 st2,
       YToRow example_RadialDistanceAtRow (example_ct 10) statics_initial 0.7 1
       = Some (row1, st1)
       /\ YToRow example_RadialDistanceAtRow (example_ct 10) statics_initial 2.7 1
          = Some (row2, st2)
       /\ (1 <= row1 <= 4)%Z /\ (1 <= row2 <= 4)%Z /\ (row1 <= row2)%Z.
Proof.
  assert (Hrows : (1 <= padRows (S_tpcPadPlanes (cfg_ (example_ct 10))))%Z)
    by (simpl; lia).
  assert (Hsorted : Sorted Rle
            (build_Radii example_RadialDistanceAtRow (cfg_ (example_ct 10))
               (padRows (S_tpcPadPlanes (cfg_ (example_ct 10))))))
    by apply example_sorted.
  assert (Hinit : statics_ok example_RadialDistanceAtRow (cfg_ (example_ct 10))
                    statics_initial)
    by (apply initial_statics_ok; simpl; lia).
  assert (Hlt : 0.7 < 2.7) by lra.
  destruct (YToRow_range_and_monotone example_RadialDistanceAtRow
              (example_ct 10) Hrows) as [Hrange Hmono].
  split; [exact Hrows |]. split; [exact Hsorted |]. split; [exact Hlt |].
  destruct (Hrange statics_initial 0.7 1%Z (or_introl eq_refl))
    as (row1 & st1 & Hy1 & _ & Hr1).
  destruct (Hrange statics_initial 2.7 1%Z (or_introl eq_refl))
    as (row2 & st2 & Hy2 & _ & Hr2).
  exists row1, row2, st1, st2.
  split; [exact Hy1 |]. split; [exact Hy2 |].
  split; [exact Hr1 |]. split; [exact Hr2 |].
  exact (Hmono Hsorted statics_initial statics_initial 0.7 2.7 1%Z row1 row2
           st1 st2 Hinit Hinit Hlt Hy1 Hy2).
Defined.

Import Helix.

(** C9 on the helix of the spec's example. *)
Lemma at_zero_is_origin_witness :
  mCosPhase example_helix = cos (mPhase example_helix)
  /\ mSinPhase example_helix = sin (mPhase example_helix)
  /\ mCurvature example_helix <> 0
  /\ at_ example_helix 0 = mOrigin example_helix.
Proof.
  split; [reflexivity |]. split; [reflexivity |].
  split; [simpl; lra |].
  apply HelixProperties.at_zero_is_origin; [reflexivity | reflexivity |].
  intros _. simpl. lra.
Defined.

(** [bad] over the extended reals: a NaN dip angle, an infinite
    curvature, and a handedness of 2 on an otherwise valid helix. *)
Lemma bad_example_nan_dip :
  bad example_origin_ok (example_xhelix NaN (Fin 0.01) (-1)) (Fin 1e5) = 11%Z.
Proof. reflexivity. Qed.

Lemma bad_example_infinite_curvature :
  bad example_origin_ok (example_xhelix (Fin 0.1) PInf (-1)) (Fin 1e5) = 12%Z.
Proof. reflexivity. Qed.

Lemma bad_example_handedness :
  bad example_origin_ok (example_xhelix (Fin 0.1) (Fin 0.01) 2) (Fin 1e5) = 24%Z.
Proof.
  unfold bad, example_xhelix, example_origin_ok, M_PI. simpl.
  pose proof PI2_3_2. pose proof PI_4.
  unfold Rltb.
  rewrite (Rabs_pos_eq 0.1) by lra. rewrite (Rabs_pos_eq 0.01) by lra.
  destruct (Req_dec_T 2 0); [lra |]. destruct (Req_dec_T 1e5 0); [lra |].
  simpl. unfold Rltb.
  rewrite (Rabs_left (0.1 + - (PI / 2))) by lra.
  decide_R. reflexivity.
Qed.

(** The helix of the spec's example passes every check. *)
Lemma bad_example_valid :
  bad example_origin_ok (example_xhelix (Fin 0.1) (Fin 0.01) (-1)) (Fin 1e5) = 0%Z.
Proof.
  unfold bad, example_xhelix, example_origin_ok, M_PI. simpl.
  pose proof PI2_3_2. pose proof PI_4.
  unfold Rltb.
  rewrite (Rabs_pos_eq 0.1) by lra. rewrite (Rabs_pos_eq 0.01) by lra.
  destruct (Req_dec_T 2 0); [lra |]. destruct (Req_dec_T 1e5 0); [lra |].
  simpl. unfold Rltb.
  rewrite (Rabs_left (0.1 + - (PI / 2))) by lra.
  decide_R. reflexivity.
Qed.

(** With a world size of zero, [1. / WorldSize] is infinite and the
    check of the band around pi/2 reports every dip angle. *)
Lemma bad_example_no_world :
  bad example_origin_ok (example_xhelix (Fin 0.1) (Fin 0.01) (-1)) (Fin 0) = 31%Z.
Proof.
  unfold bad, example_xhelix, example_origin_ok, M_PI. simpl.
  unfold Rltb. rewrite (Rabs_pos_eq 0.1) by lra.
  destruct (Req_dec_T 2 0); [lra |]. destruct (Req_dec_T 0 0); [| lra].
  unfold Rsign. decide_R. all: reflexivity.
Qed.

(** Over the extended reals a helix that is not flagged singular and has
    curvature zero is nowhere: its [x] and [y] at [s = 0] are NaN. *)
Lemma origin_at_zero_needs_curvature :
  at_ (mkHelix false (mkThreeVector (Fin 1) (Fin 2) (Fin 3)) (Fin 0.1) (Fin 0)
         (Fin 0) (-1) (Fin (cos 0.1)) (Fin (sin 0.1)) (Fin (cos 0)) (Fin (sin 0)))
      (Fin 0)
  = mkThreeVector NaN NaN (Fin 3).
Proof.
  unfold at_, x, y, z; simpl.
  destruct (Req_dec_T 0 0); [| lra].
  replace (0 + 0 * -1 * 0 * cos 0.1) with 0 by ring.
  unfold Rsign.
  replace (cos 0 - cos 0) with 0 by ring. replace (sin 0 - sin 0) with 0 by ring.
  decide_R. simpl. do 2 f_equal. ring.
Qed.

(** ** The further properties on the examples *)

Lemma example_radii_increasing clock :
  radii_increasing example_RadialDistanceAtRow (example_cfg clock).
Proof. intros i Hi. unfold example_RadialDistanceAtRow. apply IZR_lt. lia. Qed.

Lemma example_pad_frames_rigid ct sector : pad_frames_rigid example_Pad2Tpc ct sector.
Proof. intros row _. unfold rigid, orthonormal. simpl. repeat split; ring. Qed.

Lemma example_pitch clock row : 0 < pitch_of (example_ct clock) row.
Proof.
  unfold pitch_of, clamped_row. simpl.
  destruct (_ <=? _)%Z; lra.
Qed.

Lemma unit_normalizes_witness :
  mkCoords 3 0 4 <> mkCoords 0 0 0
  /\ CoordsOps.mag (CoordsOps.unit (mkCoords 3 0 4)) = 1.
Proof.
  assert (H : mkCoords 3 0 4 <> mkCoords 0 0 0)
    by (intros E; injection E; intros; lra).
  split; [exact H |].
  exact (proj1 (proj2 CoordsProperties.unit_normalizes (mkCoords 3 0 4) H)).
Defined.

Lemma hardware_round_trip_witness :
  exists b,
    hardware_to_local_sector example_IsInner example_NumberOfPads
      example_RadialDistanceAtRow example_DriftVelocity example_to_float
      (example_ct 10) (mkPad 1 1 3 100) = Some b
    /\ local_sector_to_hardware example_IsInner example_NumberOfPads
         example_RadialDistanceAtRow example_DriftVelocity example_to_float
         (example_ct 10) statics_initial b
       = Some (mkPad 1 1 3 100, statics_initial).
Proof.
  apply hardware_round_trip.
  - apply example_tables_cover.
  - simpl. lia.
  - simpl. lia.
  - simpl. lra.
  - pose proof (example_pitch 10 1). simpl pad_row. lra.
  - unfold example_DriftVelocity. lra.
  - simpl. lra.
Defined.

Lemma local_sector_to_hardware_valid_witness :
  exists pc st',
    local_sector_to_hardware example_IsInner example_NumberOfPads
      example_RadialDistanceAtRow example_DriftVelocity example_to_float
      (example_ct 10) statics_initial example_bad_row = Some (pc, st')
    /\ statics_reachable st'
    /\ pad_sector pc = 1%Z
    /\ (1 <= pad_row pc <= 4)%Z
    /\ 0.500001 <= pad pc.
Proof.
  destruct (local_sector_to_hardware_valid example_IsInner example_NumberOfPads
              example_RadialDistanceAtRow example_DriftVelocity example_to_float
              (example_ct 10) statics_initial example_bad_row
              (example_tables_cover 10) ltac:(simpl; lia) (or_introl eq_refl)
              ltac:(simpl; lia) ltac:(simpl; lia)
              ltac:(pose proof (example_pitch 10 (row example_bad_row)); lra))
    as (pc & st' & Hrun & Hreach & Hsec & Hrow & _ & Hpad).
  exists pc, st'. repeat split; try assumption; apply Hrow.
Defined.

Lemma YToRow_nearest_row_witness :
  YToRow example_RadialDistanceAtRow (example_ct 10) statics_initial 2.7 1
  = Some (3%Z, statics_of example_RadialDistanceAtRow (example_cfg 10)).
Proof.
  apply (proj2 (YToRow_nearest_row example_RadialDistanceAtRow (example_ct 10)
                  statics_initial 2.7 1 3
                  ltac:(simpl; lia) (example_radii_increasing 10)
                  ltac:(apply initial_statics_ok; simpl; lia)
                  ltac:(simpl; lia))).
  unfold midpoint, example_RadialDistanceAtRow.
  change (3 - 1)%Z with 2%Z. change (3 + 1)%Z with 4%Z. split; right; lra.
Defined.

Lemma YToRow_of_nominal_radius_witness :
  YToRow example_RadialDistanceAtRow (example_ct 10) statics_initial
    (example_RadialDistanceAtRow 2 (example_cfg 10)) 1
  = Some (2%Z, statics_of example_RadialDistanceAtRow (example_cfg 10)).
Proof.
  apply (YToRow_of_nominal_radius example_RadialDistanceAtRow (example_ct 10)
           statics_initial 1 2).
  - simpl. lia.
  - apply example_radii_increasing.
  - apply initial_statics_ok. simpl. lia.
  - simpl. lia.
Defined.

Lemma YToRow_table_shared_witness :
  YToRow example_RadialDistanceAtRow (example_ct 20)
    (statics_of example_RadialDistanceAtRow (example_cfg 10)) 2.7 1
  = YToRow example_RadialDistanceAtRow (example_ct 10)
      (statics_of example_RadialDistanceAtRow (example_cfg 10)) 2.7 1.
Proof.
  exact (proj1 (YToRow_table_shared example_RadialDistanceAtRow
                  (example_ct 10) (example_ct 20) statics_initial
                  (statics_of example_RadialDistanceAtRow (example_cfg 10))
                  0.7 2.7 1 1 1 eq_refl (example_YToRow 10))).
Defined.

Lemma example_skewed_columns :
  Mag (column_x (mkHMatrix (mkVec 1 2 3) (mkRot 2 0 1 0 3 0 0 0 4))) <> 0
  /\ Mag (column_z (mkHMatrix (mkVec 1 2 3) (mkRot 2 0 1 0 3 0 0 0 4))) <> 0.
Proof.
  unfold Mag, column_x, column_z. simpl.
  split; intros H; apply sqrt_eq_0 in H; lra.
Qed.

Lemma normalize_orthonormal_iff_witness :
  rigid (normalize (mkHMatrix (mkVec 1 2 3) (mkRot 2 0 1 0 3 0 0 0 4)))
  <-> Dot (column_x (mkHMatrix (mkVec 1 2 3) (mkRot 2 0 1 0 3 0 0 0 4)))
          (column_z (mkHMatrix (mkVec 1 2 3) (mkRot 2 0 1 0 3 0 0 0 4))) = 0.
Proof.
  apply (normalize_orthonormal_iff
           (mkHMatrix (mkVec 1 2 3) (mkRot 2 0 1 0 3 0 0 0 4))
           (proj1 example_skewed_columns) (proj2 example_skewed_columns)).
Defined.

Lemma normalize_idempotent_witness :
  normalize (normalize (mkHMatrix (mkVec 1 2 3) (mkRot 2 0 1 0 3 0 0 0 4)))
  = normalize (mkHMatrix (mkVec 1 2 3) (mkRot 2 0 1 0 3 0 0 0 4)).
Proof.
  apply normalize_idempotent; apply example_skewed_columns.
Defined.

Lemma cache_rigid_witness :
  exists ct, new_CoordTransform example_kUndefSector (example_cfg 10) = Some ct
             /\ rigid (tpc2global_ ct)
             /\ length (sector_rotations_ ct) = 336%nat
             /\ Forall rigid (sector_rotations_ ct).
Proof.
  apply cache_rigid. apply example_calibration_rigid.
Defined.

Lemma pad_stages_duplicate_witness :
  exists ct, new_CoordTransform example_kUndefSector (example_cfg 10) = Some ct
             /\ PadInner2Tpc ct 7 = SubSInner2Tpc ct 7
             /\ PadOuter2Glob ct 7 = SubSOuter2Glob ct 7.
Proof.
  destruct (pad_stages_duplicate example_kUndefSector (example_cfg 10)
              (example_calibration_rigid 10)) as (ct & Hnew & Hdup).
  exists ct. split; [exact Hnew |].
  destruct (Hdup 7%Z ltac:(lia)) as (_ & _ & H1 & _ & _ & H2 & _).
  split; [exact H1 | exact H2].
Defined.

Lemma local_round_trip_witness :
  exists b st',
    local_sector_to_local example_RadialDistanceAtRow example_Pad2Tpc
      (example_ct 10) statics_initial example_bad_row = Some (b, st')
    /\ local_to_local_sector example_RadialDistanceAtRow example_Pad2Tpc
         (example_ct 10) st' b
       = Some (mkLocalSector (position example_bad_row) 1 (local_row b), st').
Proof.
  destruct (local_round_trip example_RadialDistanceAtRow example_Pad2Tpc
              (example_ct 10) statics_initial example_bad_row
              ltac:(simpl; lia) (or_introl eq_refl)
              (example_pad_frames_rigid _ _))
    as (b & st' & Hto & _ & _ & _ & Hback).
  exists b, st'. split; [exact Hto | exact Hback].
Defined.

Lemma local_coordinate_round_trip_witness :
  exists b,
    local_to_local_sector example_RadialDistanceAtRow example_Pad2Tpc
      (example_ct 10) statics_initial (mkLocal (mkCoords 1 2 3) 1 2)
    = Some (b, statics_initial)
    /\ local_sector_to_local example_RadialDistanceAtRow example_Pad2Tpc
         (example_ct 10) statics_initial b
       = Some (mkLocal (mkCoords 1 2 3) 1 2, statics_initial).
Proof.
  apply local_coordinate_round_trip.
  - simpl. lia.
  - apply example_pad_frames_rigid. simpl. lia.
Defined.

Lemma local_sector_to_local_isometry_witness :
  exists a' b',
    local_sector_to_local example_RadialDistanceAtRow example_Pad2Tpc
      (example_ct 10) statics_initial (mkLocalSector (mkCoords 1 0.7 0) 1 2)
    = Some (a', statics_initial)
    /\ local_sector_to_local example_RadialDistanceAtRow example_Pad2Tpc
         (example_ct 10) statics_initial (mkLocalSector (mkCoords 0 0 0) 1 2)
       = Some (b', statics_initial)
    /\ CoordsOps.mag (CoordsOps.minus (local_position a') (local_position b'))
       = CoordsOps.mag (CoordsOps.minus (mkCoords 1 0.7 0) (mkCoords 0 0 0)).
Proof.
  apply (local_sector_to_local_isometry example_RadialDistanceAtRow
           example_Pad2Tpc (example_ct 10) statics_initial
           (mkLocalSector (mkCoords 1 0.7 0) 1 2)
           (mkLocalSector (mkCoords 0 0 0) 1 2)).
  - simpl. lia.
  - reflexivity.
  - reflexivity.
  - apply example_pad_frames_rigid. simpl. lia.
Defined.

Lemma PadToX_XToPad_saturates_witness :
  PadToX example_NumberOfPads (example_ct 10) 1 1
    (XToPad example_NumberOfPads (example_ct 10) 7 1 1)
  = Rmin 7 (PadToX example_NumberOfPads (example_ct 10) 1 1 0.500001).
Proof.
  apply PadToX_XToPad_saturates. apply example_pitch.
Defined.

Lemma TimeToZ_ZToTime_witness :
  exists tb,
    ZToTime example_IsInner example_DriftVelocity example_to_float
      (example_ct 10) 100 1 1 50 = Some tb
    /\ TimeToZ example_IsInner example_DriftVelocity example_to_float
         (example_ct 10) tb 1 1 50 = Some 100.
Proof.
  apply TimeToZ_ZToTime.
  - apply example_tables_cover.
  - lia.
  - lia.
  - simpl. lia.
  - unfold example_DriftVelocity. lra.
  - simpl. lra.
Defined.

Lemma hardware_to_local_sector_defined_iff_witness :
  exists b,
    hardware_to_local_sector example_IsInner example_NumberOfPads
      example_RadialDistanceAtRow example_DriftVelocity example_to_float
      (example_ct 10) (mkPad 1 7 3 100) = Some b
    /\ row b = 7%Z.
Proof.
  destruct (proj2 (hardware_to_local_sector_defined_iff example_IsInner
                     example_NumberOfPads example_RadialDistanceAtRow
                     example_DriftVelocity example_to_float
                     (example_ct 10) (mkPad 1 7 3 100)
                     (example_tables_cover 10) ltac:(simpl; lia)
                     ltac:(simpl; lia)) ltac:(simpl; lia))
    as (b & Hb & _ & Hrow & _).
  exists b. split; [exact Hb | exact Hrow].
Defined.

Lemma div_scales_mag_witness :
  CoordsOps.mag (CoordsOps.div (mkCoords 3 0 4) 2)
  = CoordsOps.mag (mkCoords 3 0 4) / Rabs 2.
Proof. apply CoordsProperties.div_scales_mag. lra. Defined.

Lemma example_helix_consistent : helix_consistent example_helix.
Proof. repeat split. Qed.

Lemma cat_is_unit_witness : mag2 (cat example_helix 5) = 1.
Proof.
  apply HelixProperties.cat_is_unit; [apply example_helix_consistent | reflexivity].
Defined.

Lemma helix_on_circle_witness :
  (Helix.x example_helix 5 - circle_center_x example_helix)
  * (Helix.x example_helix 5 - circle_center_x example_helix)
  + (Helix.y example_helix 5 - circle_center_y example_helix)
    * (Helix.y example_helix 5 - circle_center_y example_helix)
  = 1 / mCurvature example_helix * (1 / mCurvature example_helix).
Proof.
  apply HelixProperties.helix_on_circle; [reflexivity | simpl; lra].
Defined.

Lemma cat_is_derivative_witness :
  derivable_pt_lim (Helix.x example_helix) 5 (cx example_helix 5).
Proof.
  apply (HelixProperties.cat_is_derivative example_helix 5).
  intros _. simpl. lra.
Defined.

Lemma helix_periodic_witness :
  Helix.x example_helix (5 + turn_length example_helix) = Helix.x example_helix 5.
Proof.
  apply (HelixProperties.helix_periodic example_helix 5).
  - reflexivity.
  - simpl. lra.
  - simpl. pose proof PI2_1.
    assert (0 < cos 0.1) by (apply cos_gt_0; lra). lra.
  - reflexivity.
Defined.

Lemma valid_characterised_witness :
  valid example_origin_ok (example_xhelix (Fin 0.1) (Fin 0.01) (-1)) (Fin 1e5) = true
  <-> exists dip c,
        mDipAngle (example_xhelix (Fin 0.1) (Fin 0.01) (-1)) = Fin dip
        /\ mCurvature (example_xhelix (Fin 0.1) (Fin 0.01) (-1)) = Fin c
        /\ example_origin_ok (mOrigin (example_xhelix (Fin 0.1) (Fin 0.01) (-1)))
             (Fin 1e5) = 0%Z
        /\ Rabs dip <= 1.58
        /\ 1 / 1e5 <= Rabs (Rabs dip - PI / 2)
        /\ 0 <= c <= 1e5
        /\ Z.abs (mH (example_xhelix (Fin 0.1) (Fin 0.01) (-1))) = 1%Z.
Proof. apply HelixProperties.valid_characterised. lra. Defined.

Lemma local_to_local_sector_valid_witness :
  exists ct b st',
    new_CoordTransform example_kUndefSector (example_cfg 10) = Some ct
    /\ local_to_local_sector example_RadialDistanceAtRow example_Pad2Tpc ct
         statics_initial (mkLocal (mkCoords 1 2 3) 1 9) = Some (b, st')
    /\ sector b = 1%Z.
Proof.
  destruct (new_CoordTransform_spec example_kUndefSector (example_cfg 10)
              (example_calibration_rigid 10))
    as (ct & Hnew & Hcfg & [Hlen _] & _).
  destruct (local_to_local_sector_valid example_RadialDistanceAtRow
              example_Pad2Tpc ct statics_initial (mkLocal (mkCoords 1 2 3) 1 9)
              Hlen ltac:(rewrite Hcfg; simpl; lia) (or_introl eq_refl)
              ltac:(simpl; lia))
    as (b & st' & Hb & _ & Hsec & _).
  exists ct, b, st'. split; [exact Hnew |]. split; [exact Hb | exact Hsec].
Defined.
